(** * git-review: the review-session engine, embedded in Rocq

    A shallow embedding of the Go sources of git-review: the comment
    engine ([AddCmd.Run], [DeleteCmd.Run], [ResolveCmd.Run],
    [UnresolveCmd.Run], [filterComments] and its helpers), the navigation
    engine ([jumpTo], [NextCmd.Run], [JumpCmd.Run]), the session start
    ([StartCmd.Run], [joinExistingSession]), the status report
    ([StatusCmd.Run], [showStatus]), the notes of a commit
    ([buildChildrenMap], [descendants], [buildCommitNotes], [NotesAppend]),
    the process executor ([internal/git/git.go]) and the
    transactional store ([internal/repository/repository.go]) together with
    the SQL statements and the table definitions the store is generated
    from.

    Conventions.
    - Go's [int64] and [int] are [Z]; [null.Int], [null.String],
      [uuid.NullUUID] and [sql.NullString] are [option].
    - A Go [string] is a sequence of bytes: Rocq's [string].
    - A [uuid.UUID] is represented by its canonical text ([ID.String()]),
      which is also what the [comments.id] column stores.
    - A nil slice and an empty slice are both [[]].
    - A SQL table is the list of its rows in scan order.
    - A command runs in the [M] monad: it threads the store, the log of
      the git invocations and the emitted output, and may fail. *)

From Stdlib Require Import ZArith Ascii String.
From stdpp Require Import gmap strings list pretty sorting.

Open Scope Z_scope.

(** ** Errors

    [ergo.New], [ergo.Wrap] and [ergo.WithCode] build the errors of the
    commands (the [slog] attributes are dropped). The other constructors are
    the failures of the collaborators. *)
Inductive Error : Type :=
| ENew (msg : string)
| EWrap (cause : Error) (msg : string)
| EWithCode (cause : Error) (code : string)
| ENumSyntax                       (* strconv.ErrSyntax *)
| ENumRange                        (* strconv.ErrRange *)
| ENoRows                          (* sql.ErrNoRows *)
| EConstraint (table : string)     (* a PRIMARY KEY, UNIQUE or FOREIGN KEY violation *)
| EStorage                         (* any other failure of the storage layer *)
| EExec (args : list string)       (* the git process exited with a failure *)
| EPanic (msg : string).           (* a run-time panic: the process aborts *)

Definition Result (A : Type) : Type := Error + A.

Definition is_ok {A} (r : Result A) : bool :=
  match r with inr _ => true | inl _ => false end.

(** The codes of [internal/errors.go] (their names). *)
Definition ErrCodeNoReview : string := "NoReview".
Definition ErrCodeReviewActive : string := "ReviewActive".
Definition ErrCodeInvalidRef : string := "InvalidRef".
Definition ErrCodeNoCommits : string := "NoCommits".
Definition ErrCodeDetachedHead : string := "DetachedHead".

(** ** The parts of Go's standard library the commands use *)

(** [strings.HasPrefix(s, prefix)]. *)
Definition strings_HasPrefix (s prefix : string) : bool := String.prefix prefix s.

(** [strings.IndexByte(s, c)]: the index of the first [c] in [s], or -1. *)
Fixpoint strings_IndexByte (s : string) (c : ascii) : Z :=
  match s with
  | EmptyString => -1
  | String a s' =>
      if Ascii.eqb a c then 0
      else let i := strings_IndexByte s' c in
           if i <? 0 then -1 else i + 1
  end.

(** The slices [s[:i]] and [s[i:]] for an index [i] in range. *)
Definition slice_to (s : string) (i : Z) : string :=
  String.substring 0 (Z.to_nat i) s.
Definition slice_from (s : string) (i : Z) : string :=
  String.substring (Z.to_nat i) (String.length s - Z.to_nat i) s.

(** [strings.Split(s, "\n")]: never empty, one more piece than newlines. *)
Fixpoint strings_Split_nl (s : string) : list string :=
  match s with
  | EmptyString => [EmptyString]
  | String a s' =>
      if Ascii.eqb a "010"%char then EmptyString :: strings_Split_nl s'
      else match strings_Split_nl s' with
           | piece :: rest => String a piece :: rest
           | [] => [String a EmptyString]
           end
  end.

Definition maxUint64 : Z := 18446744073709551615.

(** The value of a decimal digit, as [strconv.ParseUint] computes it for
    base 10: any other byte is a syntax error (a letter has a value of at
    least 10, which base 10 refuses; an underscore is only read in base 0). *)
Definition digit_val (c : ascii) : option Z :=
  let n := Z.of_N (N_of_ascii c) in
  if (48 <=? n) && (n <=? 57) then Some (n - 48) else None.

(** The loop of [strconv.ParseUint(s, 10, 64)]: [n] is the [uint64]
    accumulator, [cutoff] is [maxUint64/10 + 1]; the addition wraps. *)
Fixpoint ParseUint_loop (s : string) (n : Z) : Result Z :=
  match s with
  | EmptyString => inr n
  | String c s' =>
      match digit_val c with
      | None => inl ENumSyntax
      | Some d =>
          if maxUint64 / 10 + 1 <=? n then inl ENumRange
          else
            let n10 := n * 10 in
            let n1 := (n10 + d) mod 2 ^ 64 in
            if (n1 <? n10) || (maxUint64 <? n1) then inl ENumRange
            else ParseUint_loop s' n1
      end
  end.

Definition strconv_ParseUint (s : string) : Result Z :=
  match s with
  | EmptyString => inl ENumSyntax
  | _ => ParseUint_loop s 0
  end.

(** [strconv.ParseInt(s, 10, 64)]: an optional sign, then [ParseUint]; the
    magnitude is checked against [1 << 63]. A range error of [ParseUint] is
    a range error here too: every path with an error returns it. *)
Definition strconv_ParseInt (s : string) : Result Z :=
  match s with
  | EmptyString => inl ENumSyntax
  | String c s' =>
      let '(neg, digits) :=
        if Ascii.eqb c "+"%char then (false, s')
        else if Ascii.eqb c "-"%char then (true, s')
        else (false, s) in
      match strconv_ParseUint digits with
      | inl e => inl e
      | inr un =>
          let cutoff := 2 ^ 63 in
          if negb neg && (cutoff <=? un) then inl ENumRange
          else if neg && (cutoff <? un) then inl ENumRange
          else inr (if neg then - un else un)
      end
  end.

(** [strings.Join(elems, sep)] *)
Definition strings_Join (elems : list string) (sep : string) : string :=
  match elems with
  | [] => ""
  | e :: es => foldl (fun acc x => acc +:+ sep +:+ x) e es
  end.

(** ** [commands/add.go]: [parseLineRange] *)

Definition parseLineRange (raw : string) : Result (option Z * option Z) :=
  if String.eqb raw "" then inr (None, None)
  else
    let i := strings_IndexByte raw ","%char in
    if 0 <=? i then
      match strconv_ParseInt (slice_to raw i) with
      | inl _ => inl (ENew "invalid line range")
      | inr s =>
          match strconv_ParseInt (slice_from raw (i + 1)) with
          | inl _ => inl (ENew "invalid line range")
          | inr e =>
              if e <? s then inl (ENew "invalid line range: start must not exceed end")
              else inr (Some s, Some e)
          end
      end
    else
      match strconv_ParseInt raw with
      | inl _ => inl (ENew "invalid line number")
      | inr n => inr (Some n, Some n)
      end.

(** ** The store: tables and SQL statements

    The tables of the schema and the statements the [db.Queries] methods are
    generated from. A [:one] query returns the first row of the result, and
    [sql.ErrNoRows] when there is none; an [:exec] statement reports only
    failure. Foreign keys are enforced ([PRAGMA foreign_keys = ON]). *)
Module db.

(** [session (base_ref PRIMARY KEY, branch, created_at)] *)
Record Session : Type := {
  BaseRef : string;
  Branch : string;
  SessionCreatedAt : string
}.

(** [commits (sha PRIMARY KEY, message, position UNIQUE)] *)
Record Commit : Type := {
  Sha : string;
  Message : string;
  Position : Z
}.

(** [reviewers (name PRIMARY KEY, current_sha REFERENCES commits(sha))] *)
Record Reviewer : Type := {
  Name : string;
  CurrentSha : option string
}.

(** [comments (id PRIMARY KEY,
               parent_id REFERENCES comments(id) ON DELETE CASCADE,
               "commit" REFERENCES commits(sha), file, start_line,
               end_line, body, resolved_at, resolved_by, created_at,
               created_by)]. The field [CommitSHA] is Go's [Commit]. *)
Record Comment : Type := {
  ID : string;
  ParentID : option string;
  CommitSHA : string;
  File : option string;
  StartLine : option Z;
  EndLine : option Z;
  Body : string;
  ResolvedAt : option string;
  ResolvedBy : option string;
  CreatedAt : string;
  CreatedBy : string
}.

Record Store : Type := {
  session : list Session;
  commits : list Commit;
  reviewers : list Reviewer;
  comments : list Comment
}.

#[global] Instance Session_eq_dec : EqDecision Session.
Proof. solve_decision. Defined.
#[global] Instance Commit_eq_dec : EqDecision Commit.
Proof. solve_decision. Defined.
#[global] Instance Reviewer_eq_dec : EqDecision Reviewer.
Proof. solve_decision. Defined.
#[global] Instance Comment_eq_dec : EqDecision Comment.
Proof. solve_decision. Defined.

Definition empty_store : Store :=
  {| session := []; commits := []; reviewers := []; comments := [] |}.

Definition with_session (v : list Session) (st : Store) : Store :=
  {| session := v; commits := commits st; reviewers := reviewers st;
     comments := comments st |}.
Definition with_commits (v : list Commit) (st : Store) : Store :=
  {| session := session st; commits := v; reviewers := reviewers st;
     comments := comments st |}.
Definition with_reviewers (v : list Reviewer) (st : Store) : Store :=
  {| session := session st; commits := commits st; reviewers := v;
     comments := comments st |}.
Definition with_comments (v : list Comment) (st : Store) : Store :=
  {| session := session st; commits := commits st;
     reviewers := reviewers st; comments := v |}.

(** The statements, by the names the queries file gives them, and the two
    ends of a transaction. *)
Inductive Stmt : Type :=
| SInsertSession | SGetSession | SSessionExists
| SInsertCommit | SListCommits | SGetCommitByPosition
| SFindCommitBySHAPrefix
| SInsertReviewer | SGetReviewer | SListReviewers | SUpdateReviewerCurrent
| SInsertComment | SFindCommentByPrefix | SListAllComments
| SReparentChildren | SDeleteComment | SResolveComment | SUnresolveComment
| SBegin | SCommit.

(** The storage layer can fail on any statement for reasons of its own
    (I/O, a locked file): [io_fault stmt st] tells whether [stmt] fails
    when run on [st]. *)
Class Faults : Type := { io_fault : Stmt -> Store -> bool }.

(** ASCII case folding, as SQLite's [LIKE] does by default. *)
Definition fold_case (c : ascii) : ascii :=
  let n := N_of_ascii c in
  if ((65 <=? n) && (n <=? 90))%N then ascii_of_N (n + 32) else c.

(** SQLite's [s LIKE pat]: [%] matches any run of bytes, [_] any single
    one, another byte matches itself up to ASCII case. *)
Fixpoint like (pat s : string) : bool :=
  match pat with
  | EmptyString => match s with EmptyString => true | _ => false end
  | String p pat' =>
      if Ascii.eqb p "%"%char then
        (fix star (t : string) : bool :=
           like pat' t ||
           match t with
           | EmptyString => false
           | String _ t' => star t'
           end) s
      else
        match s with
        | EmptyString => false
        | String c s' =>
            (Ascii.eqb p "_"%char || Ascii.eqb (fold_case p) (fold_case c))
            && like pat' s'
        end
  end.

(** [col LIKE ?||'%'] *)
Definition like_prefix (param col : string) : bool := like (param +:+ "%") col.

Section Queries.
Context {F : Faults}.

(** A key or a unique value is taken when a row has it already. *)
Definition mem {A} `{EqDecision A} (x : A) (l : list A) : bool :=
  bool_decide (x ∈ l).

(** A statement that reads. *)
Definition query {A} (stmt : Stmt) (f : Store -> Result A) (st : Store) : Result A :=
  if io_fault stmt st then inl EStorage else f st.

Definition first_row {A} (rows : list A) : Result A :=
  match rows with
  | r :: _ => inr r
  | [] => inl ENoRows
  end.

(** [SELECT COUNT( * ) FROM session] *)
Definition SessionExists : Store -> Result Z :=
  query SSessionExists (fun st => inr (Z.of_nat (length (session st)))).

(** [SELECT ... FROM session LIMIT 1] *)
Definition GetSession : Store -> Result Session :=
  query SGetSession (fun st => first_row (session st)).

(** [INSERT INTO session (base_ref, branch, created_at) VALUES (?, ?, ?)] *)
Definition InsertSession (arg : Session) : Store -> Result Store :=
  query SInsertSession (fun st =>
    if mem (BaseRef arg) (BaseRef <$> session st)
    then inl (EConstraint "session")
    else inr (with_session (session st ++ [arg]) st)).

(** [INSERT INTO commits (sha, message, position) VALUES (?, ?, ?)] *)
Definition InsertCommit (arg : Commit) : Store -> Result Store :=
  query SInsertCommit (fun st =>
    if mem (Sha arg) (Sha <$> commits st)
       || mem (Position arg) (Position <$> commits st)
    then inl (EConstraint "commits")
    else inr (with_commits (commits st ++ [arg]) st)).

(** [ORDER BY position]: a stable insertion sort on [Position]. *)
Fixpoint insert_by_position (c : Commit) (l : list Commit) : list Commit :=
  match l with
  | [] => [c]
  | d :: l' =>
      if Position c <? Position d then c :: l
      else d :: insert_by_position c l'
  end.
Definition order_by_position (l : list Commit) : list Commit :=
  foldr insert_by_position [] l.

(** [SELECT sha, message, position FROM commits ORDER BY position] *)
Definition ListCommits : Store -> Result (list Commit) :=
  query SListCommits (fun st => inr (order_by_position (commits st))).

(** [SELECT ... FROM commits WHERE position = ?] *)
Definition GetCommitByPosition (pos : Z) : Store -> Result Commit :=
  query SGetCommitByPosition (fun st =>
    first_row (filter (fun c => Position c = pos) (commits st))).

(** [SELECT ... FROM commits WHERE sha LIKE ?||'%'] *)
Definition FindCommitBySHAPrefix (arg : option string) : Store -> Result Commit :=
  query SFindCommitBySHAPrefix (fun st =>
    match arg with
    | None => inl ENoRows
    | Some p => first_row (filter (fun c => like_prefix p (Sha c) = true) (commits st))
    end).

(** A reference to [commits(sha)]: NULL, or the key of a row. *)
Definition commit_ref_ok (st : Store) (ref : option string) : bool :=
  match ref with
  | None => true
  | Some s => mem s (Sha <$> commits st)
  end.

(** [INSERT INTO reviewers (name, current_sha) VALUES (?, ?)] *)
Definition InsertReviewer (arg : Reviewer) : Store -> Result Store :=
  query SInsertReviewer (fun st =>
    if mem (Name arg) (Name <$> reviewers st)
       || negb (commit_ref_ok st (CurrentSha arg))
    then inl (EConstraint "reviewers")
    else inr (with_reviewers (reviewers st ++ [arg]) st)).

(** [SELECT name, current_sha FROM reviewers WHERE name = ?] *)
Definition GetReviewer (name : string) : Store -> Result Reviewer :=
  query SGetReviewer (fun st =>
    first_row (filter (fun r => Name r = name) (reviewers st))).

(** [SELECT name, current_sha FROM reviewers] *)
Definition ListReviewers : Store -> Result (list Reviewer) :=
  query SListReviewers (fun st => inr (reviewers st)).

Definition set_current (name : string) (sha : option string) (r : Reviewer) : Reviewer :=
  if bool_decide (Name r = name)
  then {| Name := Name r; CurrentSha := sha |} else r.

(** [UPDATE reviewers SET current_sha = ? WHERE name = ?]: the foreign
    key is checked when a row is written. *)
Definition UpdateReviewerCurrent (sha : option string) (name : string)
  : Store -> Result Store :=
  query SUpdateReviewerCurrent (fun st =>
    if mem name (Name <$> reviewers st) && negb (commit_ref_ok st sha)
    then inl (EConstraint "reviewers")
    else inr (with_reviewers (set_current name sha <$> reviewers st) st)).

(** [INSERT INTO comments (...) VALUES (...)] *)
Definition InsertComment (arg : Comment) : Store -> Result Store :=
  query SInsertComment (fun st =>
    if mem (ID arg) (ID <$> comments st)
       || negb (commit_ref_ok st (Some (CommitSHA arg)))
       || negb (match ParentID arg with
                | None => true
                | Some p => mem p (ID <$> (comments st ++ [arg]))
                end)
    then inl (EConstraint "comments")
    else inr (with_comments (comments st ++ [arg]) st)).

(** [SELECT ... FROM comments WHERE id LIKE ?||'%'] *)
Definition FindCommentByPrefix (arg : option string) : Store -> Result Comment :=
  query SFindCommentByPrefix (fun st =>
    match arg with
    | None => inl ENoRows
    | Some p => first_row (filter (fun c => like_prefix p (ID c) = true) (comments st))
    end).

(** [SELECT ... FROM comments] *)
Definition ListAllComments : Store -> Result (list Comment) :=
  query SListAllComments (fun st => inr (comments st)).

Definition set_parent (v : option string) (c : Comment) : Comment :=
  {| ID := ID c; ParentID := v; CommitSHA := CommitSHA c; File := File c;
     StartLine := StartLine c; EndLine := EndLine c; Body := Body c;
     ResolvedAt := ResolvedAt c; ResolvedBy := ResolvedBy c;
     CreatedAt := CreatedAt c; CreatedBy := CreatedBy c |}.

Definition set_resolution (at_ by_ : option string) (c : Comment) : Comment :=
  {| ID := ID c; ParentID := ParentID c; CommitSHA := CommitSHA c;
     File := File c; StartLine := StartLine c; EndLine := EndLine c;
     Body := Body c; ResolvedAt := at_; ResolvedBy := by_;
     CreatedAt := CreatedAt c; CreatedBy := CreatedBy c |}.

(** [parent_id = ?]: never true for a NULL on either side. *)
Definition parent_is (old : option string) (c : Comment) : bool :=
  match old, ParentID c with
  | Some o, Some p => bool_decide (p = o)
  | _, _ => false
  end.

Definition reparent (new old : option string) (c : Comment) : Comment :=
  if parent_is old c then set_parent new c else c.

(** [UPDATE comments SET parent_id = ? WHERE parent_id = ?]: the first
    parameter is the new parent, the second the old one. *)
Definition ReparentChildren (new old : option string) : Store -> Result Store :=
  query SReparentChildren (fun st =>
    if existsb (parent_is old) (comments st)
       && negb (match new with
                | None => true
                | Some p => mem p (ID <$> comments st)
                end)
    then inl (EConstraint "comments")
    else inr (with_comments (reparent new old <$> comments st) st)).

(** [ON DELETE CASCADE] on [parent_id]: the rows that reference a deleted
    key are deleted, and so on from them. [dead] are the keys deleted in
    the last round; each round deletes a row at least, so [fuel] rounds
    are enough when [fuel] is the number of rows. *)
Definition refers_to (dead : list string) (c : Comment) : bool :=
  match ParentID c with
  | Some p => bool_decide (p ∈ dead)
  | None => false
  end.

Fixpoint cascade (fuel : nat) (dead : list string) (rows : list Comment)
  : list Comment :=
  match fuel with
  | O => rows
  | S fuel' =>
      match filter (fun c => refers_to dead c = true) rows with
      | [] => rows
      | victims =>
          cascade fuel' (ID <$> victims)
                  (filter (fun c => refers_to dead c = false) rows)
      end
  end.

Definition delete_rows (id : string) (rows : list Comment) : list Comment :=
  let rest := filter (fun c => ID c ≠ id) rows in
  if mem id (ID <$> rows)
  then cascade (length rest) [id] rest
  else rows.

(** [DELETE FROM comments WHERE id = ?] *)
Definition DeleteComment (id : string) : Store -> Result Store :=
  query SDeleteComment (fun st =>
    inr (with_comments (delete_rows id (comments st)) st)).

(** [UPDATE comments SET resolved_at = ?, resolved_by = ?
     WHERE id = ? AND parent_id IS NULL] *)
Definition ResolveComment (at_ by_ : option string) (id : string)
  : Store -> Result Store :=
  query SResolveComment (fun st =>
    inr (with_comments
           ((fun c => if bool_decide (ID c = id) && bool_decide (ParentID c = None)
                      then set_resolution at_ by_ c else c) <$> comments st) st)).

(** [UPDATE comments SET resolved_at = NULL, resolved_by = NULL
     WHERE id = ?] *)
Definition UnresolveComment (id : string) : Store -> Result Store :=
  query SUnresolveComment (fun st =>
    inr (with_comments
           ((fun c => if bool_decide (ID c = id)
                      then set_resolution None None c else c) <$> comments st) st)).
End Queries.
End db.

(** ** The command monad

    A command reads and writes the store, runs git and prints. [trace] is
    the list of the git invocations made so far, oldest first, each with its
    working directory; [output] is what was printed, oldest first. *)

Definition Invocation : Type := string * list string.

(** The arguments of a [Printf] or [Sprintf]; [ABold], [AGreen] and
    [AYellow] are strings that [Output] colours on a terminal. *)
Inductive Arg : Type :=
| AStr (s : string)
| AInt (n : Z)
| ABold (s : string)
| AGreen (s : string)
| AYellow (s : string)
| AErr (e : Error).

Inductive OutEvent : Type :=
| Printf (format : string) (args : list Arg)   (* out.Printf(format, args...) *)
| Info (format : string) (args : list Arg)     (* out.Info(fmt.Sprintf(...)) *)
| Warn (format : string) (args : list Arg)     (* out.Warn(fmt.Sprintf(...)) *)
| Ok (format : string) (args : list Arg).      (* out.Ok(fmt.Sprintf(...)) *)

Record Env : Type := {
  store : db.Store;
  trace : list Invocation;
  output : list OutEvent
}.

Definition with_store (st : db.Store) (env : Env) : Env :=
  {| store := st; trace := trace env; output := output env |}.
Definition with_trace (t : list Invocation) (env : Env) : Env :=
  {| store := store env; trace := t; output := output env |}.
Definition with_output (o : list OutEvent) (env : Env) : Env :=
  {| store := store env; trace := trace env; output := o |}.

Definition M (A : Type) : Type := Env -> Result A * Env.

Definition ret {A} (a : A) : M A := fun env => (inr a, env).
Definition fail {A} (e : Error) : M A := fun env => (inl e, env).
Definition bind {A B} (m : M A) (k : A -> M B) : M B :=
  fun env =>
    match m env with
    | (inl e, env') => (inl e, env')
    | (inr a, env') => k a env'
    end.

Notation "'let*' x := m 'in' k" := (bind m (fun x => k))
  (at level 10, x name, m at level 100, k at level 200).
Notation "m ;; k" := (bind m (fun _ => k))
  (at level 100, k at level 200, right associativity).

(** [if err != nil { return ergo.Wrap(err, msg) }] *)
Definition wrap {A} (msg : string) (m : M A) : M A :=
  fun env =>
    match m env with
    | (inl e, env') => (inl (EWrap e msg), env')
    | r => r
    end.

(** [if err != nil { return e }]: the cause is dropped. *)
Definition or_fail {A} (e : Error) (m : M A) : M A :=
  fun env =>
    match m env with
    | (inl _, env') => (inl e, env')
    | r => r
    end.

(** [v, _ := f()]: the error is ignored, the value is then [d]. *)
Definition or_default {A} (d : A) (m : M A) : M A :=
  fun env =>
    match m env with
    | (inl _, env') => (inr d, env')
    | r => r
    end.

(** [v, err := f()] with the error looked at later. *)
Definition attempt {A} (m : M A) : M (Result A) :=
  fun env => let '(r, env') := m env in (inr r, env').

Definition emit (ev : OutEvent) : M unit :=
  fun env => (inr tt, with_output (output env ++ [ev]) env).

(** A statement that reads, and one that writes. *)
Definition queryM {A} (q : db.Store -> Result A) : M A :=
  fun env => (q (store env), env).
Definition execM (q : db.Store -> Result db.Store) : M unit :=
  fun env =>
    match q (store env) with
    | inl e => (inl e, env)
    | inr st => (inr tt, with_store st env)
    end.

(** [for _, x := range xs { body }], stopping at the first error. *)
Fixpoint forM {A} (xs : list A) (body : A -> M unit) : M unit :=
  match xs with
  | [] => ret tt
  | x :: xs' => body x ;; forM xs' body
  end.

(** [for i, x := range xs { body }] *)
Fixpoint forM_from {A} (i : Z) (xs : list A) (body : Z -> A -> M unit) : M unit :=
  match xs with
  | [] => ret tt
  | x :: xs' => body i x ;; forM_from (i + 1) xs' body
  end.

(** Go's [int64] arithmetic wraps. *)
Definition wrap64 (z : Z) : Z := (z + 2 ^ 63) mod 2 ^ 64 - 2 ^ 63.

(** [xs[i]]: an index out of range panics. *)
Definition index {A} (xs : list A) (i : Z) : M A :=
  if i <? 0 then fail (EPanic "index out of range")
  else match xs !! Z.to_nat i with
       | Some x => ret x
       | None => fail (EPanic "index out of range")
       end.

(** ** [internal/repository]: [WithTx]

    The function runs on the transaction's view of the store; a failure
    rolls the store back, and so does a commit that fails. What the function
    did outside the store (git, output) stays. *)
Definition WithTx {F : db.Faults} (fn : M unit) : M unit :=
  fun env =>
    if db.io_fault db.SBegin (store env)
    then (inl (EWrap EStorage "failed to begin transaction"), env)
    else
      match fn env with
      | (inl e, env') => (inl e, with_store (store env) env')
      | (inr _, env') =>
          if db.io_fault db.SCommit (store env')
          then (inl EStorage, with_store (store env) env')
          else (inr tt, env')
      end.

(** ** [internal/git]: the process executor *)
Module git.

(** [git_exec history (dir, args)] is what [git args] run in [dir] does
    after the invocations of [history]: [None] when the process fails,
    otherwise its standard output, already trimmed by
    [strings.TrimSpace]. *)
Class Executor : Type := {
  git_exec : list Invocation -> Invocation -> option string
}.

Record Git : Type := {
  WorkDir : string;
  CommonDir : string;
  Reviewer : string
}.

Section Git.
Context {E : Executor}.

Definition ForWorktree (g : Git) (name path : string) : Git :=
  {| WorkDir := path; CommonDir := CommonDir g; Reviewer := name |}.

Definition Run (g : Git) (args : list string) : M string :=
  fun env =>
    let inv := (WorkDir g, args) in
    let env' := with_trace (trace env ++ [inv]) env in
    match git_exec (trace env) inv with
    | Some out => (inr out, env')
    | None => (inl (EWrap (EExec args) "git command failed"), env')
    end.

Definition RunSilent (g : Git) (args : list string) : M unit :=
  fun env =>
    let inv := (WorkDir g, args) in
    let env' := with_trace (trace env ++ [inv]) env in
    match git_exec (trace env) inv with
    | Some _ => (inr tt, env')
    | None => (inl (EWrap (EExec args) "git command failed"), env')
    end.

Definition CurrentBranch (g : Git) : M string :=
  Run g ["branch"; "--show-current"].

Definition RefExists (g : Git) (ref : string) : M bool :=
  let* r := attempt (RunSilent g ["rev-parse"; "--verify"; ref]) in
  ret (is_ok r).

Definition MergeBase (g : Git) (ref1 ref2 : string) : M string :=
  Run g ["merge-base"; ref1; ref2].

Definition RevList (g : Git) (rangeSpec : string) : M (list string) :=
  let* out := Run g ["rev-list"; "--reverse"; rangeSpec] in
  if String.eqb out "" then ret [] else ret (strings_Split_nl out).

Definition Oneline (g : Git) (ref : string) : M string :=
  Run g ["log"; "--oneline"; "-1"; ref].

Definition Subject (g : Git) (ref : string) : M string :=
  Run g ["log"; "-1"; "--format=%s"; ref].

Definition Checkout (g : Git) (ref : string) : M unit :=
  RunSilent g ["checkout"; ref; "--quiet"].

Definition CheckoutForce (g : Git) (ref : string) : M unit :=
  RunSilent g ["checkout"; "--force"; ref; "--quiet"].

Definition WorktreeAdd (g : Git) (path : string) : M unit :=
  RunSilent g ["worktree"; "add"; path; "--detach"].

Definition ReadTreeReset (g : Git) (ref : string) : M unit :=
  RunSilent g ["read-tree"; "-u"; "--reset"; ref].

Definition DiffStagedStat (g : Git) : M string :=
  Run g ["diff"; "--staged"; "--stat"].

(** [NotesAppend]: [notes append], and [notes add] when that fails. *)
Definition NotesAppend (g : Git) (sha message : string) : M unit :=
  let* appended := attempt (RunSilent g ["notes"; "append"; "-m"; message; sha]) in
  match appended with
  | inl _ => RunSilent g ["notes"; "add"; "-m"; message; sha]
  | inr _ => ret tt
  end.
End Git.
End git.

(** ** [internal/format.go] *)

Definition Pluralize (n : Z) (singular plural : string) : string :=
  if n =? 1 then singular else plural.

Definition ShortSHA (sha : string) : string :=
  if (7 <? String.length sha)%nat then slice_to sha 7 else sha.

Definition ShortID (id : string) : string :=
  if (8 <? String.length id)%nat then slice_to id 8 else id.

(** [strconv.FormatInt(n, 10)] *)
Definition strconv_FormatInt (n : Z) : string := pretty n.

Definition FormatLineRange (startLine endLine : option Z) : string :=
  match startLine with
  | None => ""
  | Some a =>
      match endLine with
      | Some b => if b =? a then strconv_FormatInt a
                  else strconv_FormatInt a +:+ "-" +:+ strconv_FormatInt b
      | None => strconv_FormatInt a
      end
  end.

(** [filepath.Join]: the elements joined by the separator, the empty ones
    skipped. The lexical cleaning of the result ([filepath.Clean]) is not
    applied: the paths are only handed to git. *)
Definition filepath_Join (elems : list string) : string :=
  match filter (fun e => e ≠ "") elems with
  | [] => ""
  | e :: es => foldl (fun acc x => acc +:+ "/" +:+ x) e es
  end.

(** ** The commands: the filters of [list]

    Format strings are kept as the source spells them. *)
Module commands.
Import db.

(** [buildIDMap]: a later row with the same key replaces an earlier one. *)
Definition buildIDMap (allComments : list Comment) : gmap string Comment :=
  foldl (fun m c => <[ID c := c]> m) ∅ allComments.

(** [findRoot]: the loop walks up the parent chain; it stops at a comment
    without parent, or whose parent is not in the map. [None]: the loop
    has not stopped within [fuel] steps. *)
Fixpoint findRoot_loop (fuel : nat) (idMap : gmap string Comment)
         (current : Comment) : option Comment :=
  match ParentID current with
  | None => Some current
  | Some p =>
      match idMap !! p with
      | None => Some current
      | Some parent =>
          match fuel with
          | O => None
          | S fuel' => findRoot_loop fuel' idMap parent
          end
      end
  end.

(** A walk that has not stopped after as many steps as the map has keys
    has seen a key twice, and then never stops. *)
Definition findRoot (idMap : gmap string Comment) (c : Comment) : option Comment :=
  findRoot_loop (size idMap) idMap c.

(** The first loop of [filterComments]: the SHA of the first commit with
    the prefix, [""] when there is none. *)
Fixpoint matchCommit (commits : list Commit) (commit : string) : string :=
  match commits with
  | [] => ""
  | cm :: rest =>
      if strings_HasPrefix (Sha cm) commit then Sha cm
      else matchCommit rest commit
  end.

(** The body of the second loop: does a root pass the filters? *)
Definition rootPasses (matchCommitSHA : string) (unresolved : bool)
           (creator file : string) (cm : Comment) : bool :=
  if negb (String.eqb matchCommitSHA "")
     && negb (String.eqb (CommitSHA cm) matchCommitSHA) then false
  else if unresolved && bool_decide (is_Some (ResolvedAt cm)) then false
  else if negb (String.eqb creator "")
          && negb (String.eqb (CreatedBy cm) creator) then false
  else if negb (String.eqb file "")
          && match File cm with
             | None => true
             | Some f => negb (String.eqb f file)
             end then false
  else true.

(** The second loop: the set [rootIDs]. *)
Definition collectRootIDs (matchCommitSHA : string) (unresolved : bool)
           (creator file : string) (allComments : list Comment) : gset string :=
  foldl (fun ids cm =>
           match ParentID cm with
           | Some _ => ids
           | None =>
               if rootPasses matchCommitSHA unresolved creator file cm
               then {[ID cm]} ∪ ids else ids
           end) ∅ allComments.

(** The third loop. [None]: [findRoot] has not returned for some
    comment. *)
Fixpoint selectThreads (rootIDs : gset string) (idMap : gmap string Comment)
         (allComments : list Comment) : option (list Comment) :=
  match allComments with
  | [] => Some []
  | cm :: rest =>
      match ParentID cm with
      | None =>
          rest' ← selectThreads rootIDs idMap rest;
          Some (if bool_decide (ID cm ∈ rootIDs) then cm :: rest' else rest')
      | Some _ =>
          root ← findRoot idMap cm;
          rest' ← selectThreads rootIDs idMap rest;
          Some (if bool_decide (ID root ∈ rootIDs) then cm :: rest' else rest')
      end
  end.

Definition filterComments (allComments : list Comment) (commits : list Commit)
           (idMap : gmap string Comment) (commit : string) (unresolved : bool)
           (creator file : string) : option (list Comment) :=
  let hasFilter :=
    negb (String.eqb commit "") || unresolved
    || negb (String.eqb creator "") || negb (String.eqb file "") in
  if negb hasFilter then Some allComments
  else
    let matchCommitSHA :=
      if negb (String.eqb commit "") then matchCommit commits commit else "" in
    if negb (String.eqb commit "") && String.eqb matchCommitSHA "" then Some []
    else
      let rootIDs := collectRootIDs matchCommitSHA unresolved creator file allComments in
      selectThreads rootIDs idMap allComments.

(** *** Threads: the children map and the descendants of a comment *)

(** [buildChildrenMap]: the children of each key, in table order. *)
Definition buildChildrenMap (allComments : list Comment) : gmap string (list Comment) :=
  foldl (fun m c =>
           match ParentID c with
           | Some key => <[key := default [] (m !! key) ++ [c]]> m
           | None => m
           end) ∅ allComments.

(** [sort.Slice(result, func(i, j) { return result[i].ID < result[j].ID })]:
    an insertion sort on the byte order of the keys. [sort.Slice] promises no
    order between rows with equal keys; the keys of a table are distinct. *)
Fixpoint insert_by_id (c : Comment) (l : list Comment) : list Comment :=
  match l with
  | [] => [c]
  | d :: l' =>
      if String.ltb (ID c) (ID d) then c :: l
      else d :: insert_by_id c l'
  end.
Definition sort_by_id (l : list Comment) : list Comment :=
  foldr insert_by_id [] l.

(** The loop of [descendants]: the head of the queue is taken off and its
    children are appended to the result and, by key, to the queue. [fuel]
    bounds the number of keys taken off the queue; [None]: the queue is not
    empty after that many. *)
Fixpoint descendants_loop (fuel : nat) (childrenMap : gmap string (list Comment))
         (queue : list string) (result : list Comment) : option (list Comment) :=
  match queue with
  | [] => Some result
  | current :: queue' =>
      match fuel with
      | O => None
      | S fuel' =>
          let '(result', queue'') :=
            foldl (fun '(res, q) c => (res ++ [c], q ++ [ID c]))
                  (result, queue') (default [] (childrenMap !! current)) in
          descendants_loop fuel' childrenMap queue'' result'
      end
  end.

(** [descendants]: breadth first from [id], then sorted by key. *)
Definition descendants (fuel : nat) (childrenMap : gmap string (list Comment))
           (id : string) : option (list Comment) :=
  sort_by_id <$> descendants_loop fuel childrenMap [id] [].

(** [authorSuffix] *)
Definition authorSuffix (author : string) : string :=
  if String.eqb author "" then "" else " @" +:+ author.

(** The second loop of [buildCommitNotes], over the top-level comments of
    the commit: the line of the comment, then one line for each of its
    descendants. *)
Fixpoint commitNotes_loop (fuel : nat) (childrenMap : gmap string (list Comment))
         (commitSHA : string) (topLevel : list Comment) (notes : list string)
  : option (list string) :=
  match topLevel with
  | [] => Some notes
  | c :: rest =>
      let authorTag := authorSuffix (CreatedBy c) in
      let notes :=
        match File c with
        | Some f =>
            let lr := FormatLineRange (StartLine c) (EndLine c) in
            let loc := if negb (String.eqb lr "") then f +:+ ":" +:+ lr else f in
            notes ++ [loc +:+ " -- " +:+ Body c +:+ authorTag]
        | None => notes ++ [Body c +:+ authorTag]
        end in
      ds ← descendants fuel childrenMap (ID c);
      let notes :=
        foldl (fun notes r =>
                 let rAuthorTag := authorSuffix (CreatedBy r) in
                 let commitTag :=
                   if negb (String.eqb (CommitSHA r) commitSHA)
                   then "(" +:+ ShortSHA (CommitSHA r) +:+ ") " else "" in
                 notes ++ ["  " +:+ commitTag +:+ Body r +:+ rAuthorTag])
              notes ds in
      commitNotes_loop fuel childrenMap commitSHA rest notes
  end.

(** [buildCommitNotes] *)
Definition buildCommitNotes (fuel : nat) (allComments : list Comment)
           (childrenMap : gmap string (list Comment)) (commitSHA : string)
  : option string :=
  let topLevel :=
    filter (fun c => CommitSHA c = commitSHA /\ ParentID c = None) allComments in
  notes ← commitNotes_loop fuel childrenMap commitSHA topLevel [];
  Some (strings_Join notes (String "010"%char "")).

(** *** The commands that change the session *)

(** The arguments of [add]: Go's [File], [Line], [ReplyTo], [Author] and
    [Message]. *)
Record AddCmd : Type := {
  AddFile : string;
  AddLine : string;
  AddReplyTo : string;
  AddAuthor : string;
  AddMessage : string
}.

(** The arguments of [start]: Go's [Base] and [Name]. *)
Record StartCmd : Type := {
  StartBase : string;
  StartName : string
}.

(** The arguments of [resolve]: Go's [ID] and [Name]. *)
Record ResolveCmd : Type := {
  ResolveID : string;
  ResolveName : string
}.

Section Commands.
Context {F : Faults} {E : git.Executor}.

(** [requireActive] *)
Definition requireActive : M unit :=
  let* count := wrap "failed to check session" (queryM SessionExists) in
  if count =? 0
  then fail (EWithCode (ENew "No review in progress. Start with: git review")
                       ErrCodeNoReview)
  else ret tt.

(** [findCommitPosition] *)
Fixpoint findCommitPosition (commits : list Commit) (sha : string) : Z :=
  match commits with
  | [] => -1
  | cm :: rest =>
      if String.eqb (Sha cm) sha then Position cm
      else findCommitPosition rest sha
  end.

(** [jumpTo] *)
Definition jumpTo (g : git.Git) (reviewerName : string) (target : Commit) : M unit :=
  let* parentRef :=
    (if Position target =? 0 then
       let* session := wrap "failed to get session" (queryM GetSession) in
       ret (BaseRef session)
     else
       let* parent := wrap "failed to get parent commit"
                        (queryM (GetCommitByPosition (wrap64 (Position target - 1)))) in
       ret (Sha parent)) in
  wrap "failed to checkout parent" (git.Checkout g parentRef) ;;
  wrap "failed to read-tree target" (git.ReadTreeReset g (Sha target)) ;;
  wrap "failed to update reviewer position"
       (execM (UpdateReviewerCurrent (Some (Sha target)) reviewerName)).

(** [NextCmd.Run] *)
Definition NextCmd_Run (g : git.Git) : M unit :=
  requireActive ;;
  let* reviewer := wrap "failed to get reviewer"
                     (queryM (GetReviewer (git.Reviewer g))) in
  let* commits := wrap "failed to list commits" (queryM ListCommits) in
  let total := Z.of_nat (length commits) in
  let* nextIdx :=
    match CurrentSha reviewer with
    | None => ret 0
    | Some sha =>
        let pos := findCommitPosition commits sha in
        if pos <? 0 then fail (ENew "current commit not found in commit list")
        else ret (wrap64 (pos + 1))
    end in
  if total <=? nextIdx then
    emit (Printf "\n" []) ;;
    emit (Ok "All commits reviewed." []) ;;
    emit (Printf "\n" []) ;;
    emit (Printf "  git review finish    Complete the review\n" []) ;;
    emit (Printf "  git review list      View all comments\n" [])
  else
    let* target := index commits nextIdx in
    jumpTo g (git.Reviewer g) target ;;
    let* oneline := or_default "" (git.Oneline g (Sha target)) in
    let* stat := or_default "" (git.DiffStagedStat g) in
    emit (Printf "\n" []) ;;
    emit (Printf "  %s [%d/%d] %s\n"
                 [ABold "â†’"; AInt (wrap64 (nextIdx + 1)); AInt total; AStr oneline]) ;;
    if String.eqb stat "" then ret tt
    else emit (Printf "\n%s\n" [AStr stat]).

(** [JumpCmd.Run]; [hash] is Go's [c.Hash]. *)
Definition JumpCmd_Run (g : git.Git) (hash : string) : M unit :=
  requireActive ;;
  let* target := or_fail (ENew "commit not found")
                   (queryM (FindCommitBySHAPrefix (Some hash))) in
  jumpTo g (git.Reviewer g) target ;;
  let* commits := wrap "failed to list commits" (queryM ListCommits) in
  let* oneline := or_default "" (git.Oneline g (Sha target)) in
  let* stat := or_default "" (git.DiffStagedStat g) in
  emit (Printf "\n" []) ;;
  emit (Printf "  %s [%d/%d] %s\n"
               [ABold "→"; AInt (wrap64 (Position target + 1));
                AInt (Z.of_nat (length commits)); AStr oneline]) ;;
  if String.eqb stat "" then ret tt
  else emit (Printf "\n%s\n" [AStr stat]).

(** [AddCmd.Run]; [now] is the formatted [time.Now()], [newID] the fresh
    [uuid.NewV7()]. *)
Definition AddCmd_Run (g : git.Git) (c : AddCmd) (now newID : string) : M unit :=
  requireActive ;;
  let author := if String.eqb (AddAuthor c) "" then git.Reviewer g else AddAuthor c in
  let* params :=
    (if negb (String.eqb (AddReplyTo c) "") then
       let* parent := or_fail (ENew "comment not found")
                        (queryM (FindCommentByPrefix (Some (AddReplyTo c)))) in
       ret {| ID := newID; ParentID := Some (ID parent);
              CommitSHA := CommitSHA parent; File := File parent;
              StartLine := StartLine parent; EndLine := EndLine parent;
              Body := AddMessage c; ResolvedAt := None; ResolvedBy := None;
              CreatedAt := now; CreatedBy := author |}
     else
       let* reviewer := wrap "failed to get reviewer"
                          (queryM (GetReviewer (git.Reviewer g))) in
       match CurrentSha reviewer with
       | None => fail (ENew "No commit selected. Run 'git review next' first.")
       | Some commitSHA =>
           match parseLineRange (AddLine c) with
           | inl e => fail e
           | inr (startLine, endLine) =>
               let file := if String.eqb (AddFile c) "" then None
                           else Some (AddFile c) in
               ret {| ID := newID; ParentID := None;
                      CommitSHA := commitSHA; File := file;
                      StartLine := startLine; EndLine := endLine;
                      Body := AddMessage c; ResolvedAt := None;
                      ResolvedBy := None;
                      CreatedAt := now; CreatedBy := author |}
           end
       end) in
  wrap "failed to save comment" (execM (InsertComment params)) ;;
  let idStr := ShortID newID in
  if negb (String.eqb (AddReplyTo c) "") then
    emit (Ok "[%s] %s" [AStr idStr; AStr (AddMessage c)])
  else if negb (String.eqb (AddFile c) "") then
    let lr := FormatLineRange (StartLine params) (EndLine params) in
    let loc := if String.eqb lr "" then AddFile c
               else AddFile c +:+ ":" +:+ lr in
    emit (Ok "[%s] %s %s" [AStr idStr; AStr loc; AStr (AddMessage c)])
  else
    emit (Ok "[%s] %s" [AStr idStr; AStr (AddMessage c)]).

(** [DeleteCmd.Run]; [id] is Go's [c.ID]. *)
Definition DeleteCmd_Run (g : git.Git) (id : string) : M unit :=
  requireActive ;;
  WithTx (
    let* target := or_fail (ENew "comment not found")
                     (queryM (FindCommentByPrefix (Some id))) in
    (match ParentID target with
     | Some _ =>
         wrap "failed to re-parent children"
              (execM (ReparentChildren (ParentID target) (Some (ID target))))
     | None => ret tt
     end) ;;
    wrap "failed to delete comment" (execM (DeleteComment (ID target)))) ;;
  emit (Ok "Comment deleted." []).

(** [ResolveCmd.Run] *)
Definition ResolveCmd_Run (g : git.Git) (c : ResolveCmd) (now : string) : M unit :=
  requireActive ;;
  let name := if String.eqb (ResolveName c) "" then git.Reviewer g
              else ResolveName c in
  let* comment := or_fail (ENew "comment not found")
                    (queryM (FindCommentByPrefix (Some (ResolveID c)))) in
  if bool_decide (is_Some (ParentID comment))
  then fail (ENew "only root comments can be resolved")
  else if bool_decide (is_Some (ResolvedAt comment))
  then fail (ENew "thread is already resolved")
  else
    wrap "failed to resolve comment"
         (execM (ResolveComment (Some now) (Some name) (ID comment))) ;;
    emit (Ok "Resolved [%s]" [AStr (ShortID (ID comment))]).

(** [UnresolveCmd.Run]; [id] is Go's [c.ID]. *)
Definition UnresolveCmd_Run (g : git.Git) (id : string) : M unit :=
  requireActive ;;
  let* comment := or_fail (ENew "comment not found")
                    (queryM (FindCommentByPrefix (Some id))) in
  if bool_decide (is_Some (ParentID comment))
  then fail (ENew "only root comments can be unresolved")
  else if negb (bool_decide (is_Some (ResolvedAt comment)))
  then fail (ENew "thread is not resolved")
  else
    wrap "failed to unresolve comment" (execM (UnresolveComment (ID comment))) ;;
    emit (Ok "Unresolved [%s]" [AStr (ShortID (ID comment))]).

(** The second loop of [showStatus]: the position of the calling
    reviewer, -1 when it has none. *)
Fixpoint currentPosition (reviewers : list Reviewer) (name : string)
         (commits : list Commit) : Z :=
  match reviewers with
  | [] => -1
  | r :: rest =>
      match CurrentSha r with
      | Some sha =>
          if String.eqb (Name r) name then findCommitPosition commits sha
          else currentPosition rest name commits
      | None => currentPosition rest name commits
      end
  end.

(** [showStatus] *)
Definition showStatus (g : git.Git) : M unit :=
  let* session := wrap "failed to get session" (queryM GetSession) in
  let* commits := wrap "failed to list commits" (queryM ListCommits) in
  let* loaded := attempt (queryM ListAllComments) in
  let* comments :=
    match loaded with
    | inl e => emit (Warn "failed to load comments: %v" [AErr e]) ;; ret []
    | inr cs => ret cs
    end in
  let* reviewers := wrap "failed to list reviewers" (queryM ListReviewers) in
  emit (Printf "\n" []) ;;
  emit (Printf "%s  %s\n" [ABold "Review Progress"; AStr (Branch session)]) ;;
  emit (Printf "\n" []) ;;
  (if 1 <? Z.of_nat (length reviewers) then
     forM reviewers (fun r =>
       let name := if String.eqb (Name r) "" then "(default)" else Name r in
       let pos :=
         match CurrentSha r with
         | Some sha =>
             let p := findCommitPosition commits sha in
             if 0 <=? p
             then strconv_FormatInt (wrap64 (p + 1)) +:+ "/"
                  +:+ strconv_FormatInt (Z.of_nat (length commits))
             else "not started"
         | None => "not started"
         end in
       emit (Printf "  Reviewer %s: %s\n" [AStr name; AStr pos])) ;;
     emit (Printf "\n" [])
   else ret tt) ;;
  let commentCount : gmap string Z :=
    foldl (fun m c => <[CommitSHA c := default 0 (m !! CommitSHA c) + 1]> m)
          ∅ comments in
  let currentPos := currentPosition reviewers (git.Reviewer g) commits in
  forM commits (fun cm =>
    let* oneline := or_default "" (git.Oneline g (Sha cm)) in
    let n := default 0 (commentCount !! Sha cm) in
    let badge :=
      if 0 <? n
      then " (" +:+ strconv_FormatInt n +:+ " "
           +:+ Pluralize n "comment" "comments" +:+ ")"
      else "" in
    let line := strconv_FormatInt (wrap64 (Position cm + 1)) +:+ ". "
                +:+ oneline +:+ badge in
    if Position cm <? currentPos
    then emit (Printf "  %s %s\n" [AGreen "✓"; AGreen line])
    else if Position cm =? currentPos
    then emit (Printf "  %s %s\n" [AYellow "→"; AYellow line])
    else emit (Printf "  ○ %s\n" [AStr line])) ;;
  emit (Printf "\n" []).

(** [StartCmd.joinExistingSession] *)
Definition joinExistingSession (g : git.Git) (c : StartCmd) : M unit :=
  wrap "failed to add reviewer"
       (execM (InsertReviewer {| Name := StartName c; CurrentSha := None |})) ;;
  let worktreePath :=
    filepath_Join [git.CommonDir g; "review"; "worktrees"; StartName c] in
  wrap "failed to create worktree" (git.WorktreeAdd g worktreePath) ;;
  let jumpGit := git.ForWorktree g (StartName c) worktreePath in
  let* firstCommit := wrap "failed to get first commit"
                        (queryM (GetCommitByPosition 0)) in
  wrap "failed to jump to first commit" (jumpTo jumpGit (StartName c) firstCommit) ;;
  let* commits := wrap "failed to list commits" (queryM ListCommits) in
  let* oneline := or_default "" (git.Oneline g (Sha firstCommit)) in
  emit (Printf "\n" []) ;;
  emit (Ok "══ Joined Review as %s: %d commit(s) ══"
           [AStr (StartName c); AInt (Z.of_nat (length commits))]) ;;
  emit (Printf "\n" []) ;;
  emit (Printf "  %s [1/%d] %s\n"
               [ABold "→"; AInt (Z.of_nat (length commits)); AStr oneline]) ;;
  emit (Printf "\n" []) ;;
  emit (Printf "  Worktree: %s\n" [AStr worktreePath]).

(** The base detection loop of [StartCmd.Run] over the conventional
    branch names; [""] when no base was found. *)
Fixpoint detectBase (g : git.Git) (refs : list string) : M string :=
  match refs with
  | [] => ret ""
  | ref :: rest =>
      let* found := git.RefExists g ref in
      if found : bool then
        let* merged := attempt (git.MergeBase g ref "HEAD") in
        match merged with
        | inl _ => detectBase g rest
        | inr base =>
            let* oneline := or_default "" (git.Oneline g base) in
            emit (Info "Base: %s (%s)" [AStr ref; AStr oneline]) ;;
            ret base
        end
      else detectBase g rest
  end.

(** The function [StartCmd.Run] hands to [WithTx]. *)
Definition insertSessionRows (g : git.Git) (base currentBranch now : string)
           (commits : list string) (reviewerName : string) : M unit :=
  wrap "failed to insert session"
       (execM (InsertSession {| BaseRef := base; Branch := currentBranch;
                                SessionCreatedAt := now |})) ;;
  forM_from 0 commits (fun i sha =>
    let* msg := or_default "" (git.Subject g sha) in
    wrap "failed to insert commit"
         (execM (InsertCommit {| Sha := sha; Message := msg; Position := i |}))) ;;
  wrap "failed to insert reviewer"
       (execM (InsertReviewer {| Name := reviewerName; CurrentSha := None |})).

(** [StartCmd.Run]; [now] is the formatted [time.Now()]. *)
Definition StartCmd_Run (g : git.Git) (c : StartCmd) (now : string) : M unit :=
  let* count := wrap "failed to check session" (queryM SessionExists) in
  if 0 <? count then
    if negb (String.eqb (StartName c) "") then joinExistingSession g c
    else if negb (String.eqb (StartBase c) "") then
      fail (EWithCode (ENew "Review already in progress. Finish or abort first.")
                      ErrCodeReviewActive)
    else showStatus g
  else
    let detached := EWithCode (ENew "Detached HEAD. Checkout a branch first.")
                              ErrCodeDetachedHead in
    let* branch := attempt (git.CurrentBranch g) in
    let* currentBranch :=
      match branch with
      | inl _ => fail detached
      | inr b => if String.eqb b "" then fail detached else ret b
      end in
    let* base :=
      (if negb (String.eqb (StartBase c) "") then
         or_fail (EWithCode (ENew "invalid ref") ErrCodeInvalidRef)
                 (git.Run g ["rev-parse"; StartBase c])
       else
         let* b := detectBase g ["main"; "master"; "develop"] in
         if String.eqb b "" then
           fail (EWithCode
                   (ENew "Cannot detect base branch. Specify: git review <base-ref>")
                   ErrCodeInvalidRef)
         else ret b) in
    let noCommits := EWithCode (ENew "No commits to review between base and HEAD.")
                               ErrCodeNoCommits in
    let* listed := attempt (git.RevList g (base +:+ "..HEAD")) in
    let* commits :=
      match listed with
      | inl _ | inr [] => fail noCommits
      | inr l => ret l
      end in
    let nCommits := Z.of_nat (length commits) in
    let reviewerName :=
      if String.eqb (StartName c) "" then git.Reviewer g else StartName c in
    wrap "failed to initialize review"
         (WithTx (insertSessionRows g base currentBranch now commits reviewerName)) ;;
    let* jumpGit :=
      (if negb (String.eqb (StartName c) "") then
         let worktreePath :=
           filepath_Join [git.CommonDir g; "review"; "worktrees"; StartName c] in
         wrap "failed to create worktree" (git.WorktreeAdd g worktreePath) ;;
         ret (git.ForWorktree g (StartName c) worktreePath)
       else ret g) in
    let* firstCommit := wrap "failed to get first commit"
                          (queryM (GetCommitByPosition 0)) in
    wrap "failed to jump to first commit" (jumpTo jumpGit reviewerName firstCommit) ;;
    let* first := index commits 0 in
    let* oneline := or_default "" (git.Oneline g first) in
    emit (Printf "\n" []) ;;
    emit (Ok "══ Review Started: %d commit(s) ══" [AInt nCommits]) ;;
    emit (Printf "\n" []) ;;
    emit (Printf "  %s [1/%d] %s\n" [ABold "→"; AInt nCommits; AStr oneline]) ;;
    emit (Printf "\n" []) ;;
    emit (Printf "  Staged changes are ready for review.\n" []) ;;
    emit (Printf "\n" []) ;;
    emit (Printf "    git review add 'message'                Add comment\n" []) ;;
    emit (Printf "    git review add -f file -l N 'message'   Add comment on file:line\n" []) ;;
    emit (Printf "    git review next                         Next commit\n" []).

(** [StatusCmd.Run] *)
Definition StatusCmd_Run (g : git.Git) : M unit :=
  requireActive ;;
  showStatus g.
End Commands.
End commands.

(** * Specifications

    The notions the properties below are stated with. They are written
    from the design's words, not from the code. *)

(** ** Decimal numerals *)

Definition in_int64 (z : Z) : Prop := - 2 ^ 63 <= z < 2 ^ 63.

(** The value of a run of decimal digits read after [acc]; [None] when a
    byte is not a digit. *)
Fixpoint digits_value (s : string) (acc : Z) : option Z :=
  match s with
  | EmptyString => Some acc
  | String c s' =>
      match digit_val c with
      | None => None
      | Some d => digits_value s' (acc * 10 + d)
      end
  end.

Definition unsigned_value (s : string) : option Z :=
  match s with
  | EmptyString => None
  | _ => digits_value s 0
  end.

(** Numeric text: an optional sign and one decimal digit at least. Its
    value is an integer of any size. *)
Definition numeral_value (s : string) : option Z :=
  match s with
  | EmptyString => None
  | String c s' =>
      if Ascii.eqb c "+"%char then unsigned_value s'
      else if Ascii.eqb c "-"%char then Z.opp <$> unsigned_value s'
      else unsigned_value s
  end.

(** [raw] is a range [a,b] of two numerals. *)
Definition numeric_range (raw : string) (s e : Z) : Prop :=
  exists a b, raw = a +:+ "," +:+ b /\
              numeral_value a = Some s /\ numeral_value b = Some e.

(** What the line-range parser accepts, and with which result. *)
Inductive accepts : string -> option Z -> option Z -> Prop :=
| accepts_none : accepts "" None None
| accepts_single raw n :
    numeral_value raw = Some n -> in_int64 n ->
    accepts raw (Some n) (Some n)
| accepts_range raw s e :
    numeric_range raw s e -> in_int64 s -> in_int64 e -> s <= e ->
    accepts raw (Some s) (Some e).

(** The inputs a parser may refuse when it refuses only "non-numeric text
    and a range whose start exceeds its end". *)
Definition refusable (raw : string) : Prop :=
  (raw <> "" /\ numeral_value raw = None /\ ~ exists s e, numeric_range raw s e)
  \/ (exists s e, numeric_range raw s e /\ e < s).

(** ** Threads

    A comment is a descendant of the comment with key [a] when its parent
    chain, followed inside the table, passes through [a]. *)
Inductive descendant (rows : list db.Comment) (a : string) : db.Comment -> Prop :=
| desc_child c :
    c ∈ rows -> db.ParentID c = Some a -> descendant rows a c
| desc_step p c :
    descendant rows a p -> c ∈ rows -> db.ParentID c = Some (db.ID p) ->
    descendant rows a c.

(** What re-parenting does to one row: a direct child of [tid] is handed to
    [p], any other row is left as it is. *)
Definition adopted_by (p tid : string) (c : db.Comment) : db.Comment :=
  if decide (db.ParentID c = Some tid) then db.set_parent (Some p) c else c.

(** What clearing the resolution of the thread [id] does to one row. *)
Definition reopened (id : string) (c : db.Comment) : db.Comment :=
  if decide (db.ID c = id) then db.set_resolution None None c else c.

(** [climbs m c n r]: from [c], the walk of [findRoot] over [m] stops at
    [r] after [n] steps. *)
Inductive climbs (m : gmap string db.Comment) : db.Comment -> nat -> db.Comment -> Prop :=
| climbs_root c :
    db.ParentID c = None -> climbs m c 0 c
| climbs_orphan c p :
    db.ParentID c = Some p -> m !! p = None -> climbs m c 0 c
| climbs_step c p c' n r :
    db.ParentID c = Some p -> m !! p = Some c' -> climbs m c' n r ->
    climbs m c (S n) r.

(** The commit a prefix selects in the ordered commit list: the first one
    whose SHA starts with it. *)
Definition selected_commit (commits : list db.Commit) (prefix : string) : option string :=
  db.Sha <$> head (filter (fun cm => String.prefix prefix (db.Sha cm) = true) commits).

(** A comment satisfies the filters when it satisfies each active one; an
    empty string or [false] makes a filter inactive. *)
Record satisfies_filters (commits : list db.Commit) (commit : string)
       (unresolved : bool) (creator file : string) (c : db.Comment) : Prop := {
  sat_commit : commit ≠ "" -> selected_commit commits commit = Some (db.CommitSHA c);
  sat_unresolved : unresolved = true -> db.ResolvedAt c = None;
  sat_creator : creator ≠ "" -> db.CreatedBy c = creator;
  sat_file : file ≠ "" -> db.File c = Some file
}.

(** Every comment is a root, or hangs below a root of the table. *)
Definition forest (rows : list db.Comment) : Prop :=
  forall c, c ∈ rows ->
    db.ParentID c = None \/
    exists r, r ∈ rows /\ db.ParentID r = None /\ descendant rows (db.ID r) c.

(** The storage layer does not fail for reasons of its own. *)
Definition no_faults {F : db.Faults} : Prop :=
  forall stmt st, db.io_fault stmt st = false.

(** The git invocations of a navigation and of a start, as the commands
    issue them. *)
Definition checkout_step (g : git.Git) (parentRef : string) : Invocation :=
  (git.WorkDir g, ["checkout"; parentRef; "--quiet"]).
Definition overlay_step (g : git.Git) (sha : string) : Invocation :=
  (git.WorkDir g, ["read-tree"; "-u"; "--reset"; sha]).
Definition oneline_step (g : git.Git) (sha : string) : Invocation :=
  (git.WorkDir g, ["log"; "--oneline"; "-1"; sha]).
Definition stat_step (g : git.Git) : Invocation :=
  (git.WorkDir g, ["diff"; "--staged"; "--stat"]).
Definition revlist_step (g : git.Git) (base : string) : Invocation :=
  (git.WorkDir g, ["rev-list"; "--reverse"; base +:+ "..HEAD"]).

(** The reviewer's working copy was taken to [sha]: checkout of the
    parent point, then overlay of the tree of [sha], both successful. *)
Definition transitioned {E : git.Executor} (history : list Invocation) (g : git.Git)
           (parentRef sha : string) : Prop :=
  is_Some (git.git_exec history (checkout_step g parentRef)) /\
  is_Some (git.git_exec (history ++ [checkout_step g parentRef]) (overlay_step g sha)).

(** A version-control step of the navigation: a checkout or an index
    overlay. *)
Definition vcs_step (inv : Invocation) : bool :=
  match inv.2 with
  | "checkout" :: _ | "read-tree" :: _ => true
  | _ => false
  end.

(** One of the version-control steps made between the histories [before]
    and [after] has failed. *)
Definition vcs_step_failed {E : git.Executor} (before after : list Invocation) : Prop :=
  exists pre inv post,
    after = before ++ pre ++ inv :: post /\
    vcs_step inv = true /\ git.git_exec (before ++ pre) inv = None.

(** The cursor of [name] is at [sha] in every row of that reviewer. *)
Definition cursor_at (st : db.Store) (name sha : string) : Prop :=
  forall rv, rv ∈ db.reviewers st -> db.Name rv = name -> db.CurrentSha rv = Some sha.

(** The positions of the table are 0, 1, 2, ... in row order. *)
Definition contiguous (commits : list db.Commit) : Prop :=
  db.Position <$> commits = Z.of_nat <$> seq 0 (length commits).



(** The commit rows of a session: one per enumerated SHA, in the order of
    the enumeration, numbered from [i]. *)
Fixpoint rows_from (i : Z) (shas msgs : list string) : list db.Commit :=
  match shas, msgs with
  | sha :: shas', msg :: msgs' =>
      {| db.Sha := sha; db.Message := msg; db.Position := i |}
        :: rows_from (i + 1) shas' msgs'
  | _, _ => []
  end.

(** The same session, commits and comments, and the same reviewers by
    name. *)
Definition same_rows (st st' : db.Store) : Prop :=
  db.session st' = db.session st /\ db.commits st' = db.commits st /\
  db.comments st' = db.comments st /\
  db.Name <$> db.reviewers st' = db.Name <$> db.reviewers st.

(** ** What a command preserves

    [preserves R m]: every run of [m] takes an environment to one related
    to it by [R]. The relations used are: the store is the same
    ([same_store]); the git history has only grown ([trace_grows]). *)

Definition preserves (R : relation Env) {A} (m : M A) : Prop :=
  forall env r env', m env = (r, env') -> R env env'.

Definition same_store : relation Env := fun env env' => store env' = store env.
Definition trace_grows : relation Env := fun env env' => trace env `prefix_of` trace env'.

Abbreviation keeps_store := (preserves same_store).
Abbreviation extends_trace := (preserves trace_grows).
Definition rows_kept : relation Env := fun env env' => same_rows (store env) (store env').
Abbreviation keeps_rows := (preserves rows_kept).

#[global] Instance same_store_refl : Reflexive same_store.
Proof. intros env. reflexivity. Qed.
#[global] Instance same_store_trans : Transitive same_store.
Proof. unfold same_store. intros e1 e2 e3 H1 H2. congruence. Qed.
#[global] Instance trace_grows_refl : Reflexive trace_grows.
Proof. intros env. unfold trace_grows. reflexivity. Qed.
#[global] Instance trace_grows_trans : Transitive trace_grows.
Proof. unfold trace_grows. intros e1 e2 e3 H1 H2. by etransitivity. Qed.
#[global] Instance rows_kept_refl : Reflexive rows_kept.
Proof. intros env. by repeat split. Qed.
#[global] Instance rows_kept_trans : Transitive rows_kept.
Proof.
  intros e1 e2 e3 (?&?&?&?) (?&?&?&?). repeat split; congruence.
Qed.

(** ** Concrete worlds and tables for the examples *)

(** A storage layer that never fails by itself, and one whose
    [DeleteComment] always does. *)
Definition sound_storage : db.Faults := {| db.io_fault := fun _ _ => false |}.
Definition failing_delete : db.Faults :=
  {| db.io_fault := fun stmt _ => match stmt with db.SDeleteComment => true | _ => false end |}.

(** A git that succeeds with an empty output, and one whose [checkout]
    fails. *)
Definition git_quiet : git.Executor := {| git.git_exec := fun _ _ => Some "" |}.
Definition git_no_checkout : git.Executor :=
  {| git.git_exec := fun _ inv =>
       match inv.2 with
       | "checkout" :: _ => None
       | _ => Some ""
       end |}.

Definition main_worktree : git.Git :=
  {| git.WorkDir := "."; git.CommonDir := "/repo/.git"; git.Reviewer := "" |}.

Definition mk_comment (id : string) (parent : option string) (sha body by_ : string)
  : db.Comment :=
  {| db.ID := id; db.ParentID := parent; db.CommitSHA := sha; db.File := None;
     db.StartLine := None; db.EndLine := None; db.Body := body;
     db.ResolvedAt := None; db.ResolvedBy := None;
     db.CreatedAt := "2024-01-01T00:00:00Z"; db.CreatedBy := by_ |}.

(** Three commits; a thread with a root, two replies and a grandchild, and
    a second root. *)
Definition sample_store : db.Store :=
  {| db.session := [{| db.BaseRef := "base0"; db.Branch := "feature";
                       db.SessionCreatedAt := "2024-01-01T00:00:00Z" |}];
     db.commits := [{| db.Sha := "aaa111"; db.Message := "one"; db.Position := 0 |};
                    {| db.Sha := "aab222"; db.Message := "two"; db.Position := 1 |};
                    {| db.Sha := "ccc333"; db.Message := "three"; db.Position := 2 |}];
     db.reviewers := [{| db.Name := ""; db.CurrentSha := Some "aaa111" |}];
     db.comments := [mk_comment "01-root" None "aaa111" "root" "alice";
                     mk_comment "02-reply" (Some "01-root") "aaa111" "reply 1" "bob";
                     mk_comment "03-reply" (Some "01-root") "aab222" "reply 2" "carol";
                     mk_comment "04-grand" (Some "02-reply") "aaa111" "grandchild" "bob";
                     mk_comment "05-other" None "aab222" "other root" "carol"] |}.

Definition sample_env : Env :=
  {| store := sample_store; trace := []; output := [] |}.

(** The same tables after carol has resolved the second root. *)
Definition resolved_root : db.Comment :=
  db.set_resolution (Some "2024-01-02T00:00:00Z") (Some "carol")
                    (mk_comment "05-other" None "aab222" "other root" "carol").

Definition resolved_env : Env :=
  {| store := db.with_comments
                [mk_comment "01-root" None "aaa111" "root" "alice";
                 mk_comment "02-reply" (Some "01-root") "aaa111" "reply 1" "bob";
                 mk_comment "03-reply" (Some "01-root") "aab222" "reply 2" "carol";
                 mk_comment "04-grand" (Some "02-reply") "aaa111" "grandchild" "bob";
                 resolved_root]
                sample_store;
     trace := []; output := [] |}.

(** A git on the branch [feature], two commits above [base0]. *)
Definition git_feature : git.Executor :=
  {| git.git_exec := fun _ inv =>
       match inv.2 with
       | "branch" :: _ => Some "feature"
       | "rev-parse" :: _ => Some "base0"
       | "rev-list" :: _ => Some ("aaa111" +:+ String "010"%char "aab222")
       | "log" :: _ => Some "subject"
       | _ => Some ""
       end |}.

Definition fresh_env : Env :=
  {| store := db.empty_store; trace := []; output := [] |}.

(** ** Threads in key order *)

(** [a] comes before [b] in the byte order of the keys. *)
Definition id_before (a b : db.Comment) : Prop := String.ltb (db.ID a) (db.ID b) = true.

(** ** The lines of a note *)

(** The line of a top-level comment: its place, when it has one, its text
    and its author. *)
Definition root_note (c : db.Comment) : string :=
  let author := if String.eqb (db.CreatedBy c) "" then "" else " @" +:+ db.CreatedBy c in
  match db.File c with
  | Some f =>
      let lr := FormatLineRange (db.StartLine c) (db.EndLine c) in
      (if String.eqb lr "" then f else f +:+ ":" +:+ lr)
        +:+ " -- " +:+ db.Body c +:+ author
  | None => db.Body c +:+ author
  end.

(** The line of a comment below it, in the note of the commit [sha]:
    indented, tagged with its own commit when that is another one. *)
Definition reply_note (sha : string) (r : db.Comment) : string :=
  let author := if String.eqb (db.CreatedBy r) "" then "" else " @" +:+ db.CreatedBy r in
  let tag := if String.eqb (db.CommitSHA r) sha then ""
             else "(" +:+ ShortSHA (db.CommitSHA r) +:+ ") " in
  "  " +:+ tag +:+ db.Body r +:+ author.

(** The lines of a thread: the root, then the comments below it. *)
Definition thread_note (sha : string) (r : db.Comment) (ds : list db.Comment)
  : list string :=
  root_note r :: (reply_note sha <$> ds).

(** [ds] is the thread below [r] in key order. *)
Definition thread_of (rows : list db.Comment) (r : db.Comment) (ds : list db.Comment)
  : Prop :=
  StronglySorted id_before ds /\ forall c, c ∈ ds <-> descendant rows (db.ID r) c.

(** ** The report of a navigation *)

Section Reports.
Context {F : db.Faults} {E : git.Executor}.

(** What [jump] does once it has taken the reviewer to its target. *)
Definition jump_report (g : git.Git) (target : db.Commit) : M unit :=
  let* commits := wrap "failed to list commits" (queryM db.ListCommits) in
  let* oneline := or_default "" (git.Oneline g (db.Sha target)) in
  let* stat := or_default "" (git.DiffStagedStat g) in
  emit (Printf "\n" []) ;;
  emit (Printf "  %s [%d/%d] %s\n"
               [ABold "→"; AInt (wrap64 (db.Position target + 1));
                AInt (Z.of_nat (length commits)); AStr oneline]) ;;
  if String.eqb stat "" then ret tt
  else emit (Printf "\n%s\n" [AStr stat]).

End Reports.

(** ** Resolving *)

(** What resolving the thread [id] at [at_] by [by_] does to one row: the
    root of the thread is marked, any other row is left as it is. *)
Definition resolved_as (id at_ by_ : string) (c : db.Comment) : db.Comment :=
  if decide (db.ID c = id /\ db.ParentID c = None)
  then db.set_resolution (Some at_) (Some by_) c else c.

(** A row that is not resolved names nobody as its resolver. *)
Definition open_rows_unsigned (rows : list db.Comment) : Prop :=
  forall c, c ∈ rows -> db.ResolvedAt c = None -> db.ResolvedBy c = None.

(** ** New comments *)

(** The row a reply to [parent] adds, and the row a top-level comment on
    the commit [sha] adds. *)
Definition reply_row (newID now author message : string) (parent : db.Comment)
  : db.Comment :=
  {| db.ID := newID; db.ParentID := Some (db.ID parent);
     db.CommitSHA := db.CommitSHA parent; db.File := db.File parent;
     db.StartLine := db.StartLine parent; db.EndLine := db.EndLine parent;
     db.Body := message; db.ResolvedAt := None; db.ResolvedBy := None;
     db.CreatedAt := now; db.CreatedBy := author |}.

Definition root_row (newID now author message sha file : string)
           (startLine endLine : option Z) : db.Comment :=
  {| db.ID := newID; db.ParentID := None; db.CommitSHA := sha;
     db.File := if String.eqb file "" then None else Some file;
     db.StartLine := startLine; db.EndLine := endLine;
     db.Body := message; db.ResolvedAt := None; db.ResolvedBy := None;
     db.CreatedAt := now; db.CreatedBy := author |}.

(** The author of a new comment: the name given, else the worktree's. *)
Definition author_of (g : git.Git) (c : commands.AddCmd) : string :=
  if String.eqb (commands.AddAuthor c) "" then git.Reviewer g else commands.AddAuthor c.

(** ** The shape of the comments table *)

(** Every parent reference is the key of a row. *)
Definition parents_exist (rows : list db.Comment) : Prop :=
  forall c p, c ∈ rows -> db.ParentID c = Some p -> p ∈ db.ID <$> rows.

(** Unique keys, and every comment in the thread of a root. *)
Definition well_formed (rows : list db.Comment) : Prop :=
  NoDup (db.ID <$> rows) /\ forest rows.

(** ** More worlds for the examples *)

Definition git_broken : git.Executor := {| git.git_exec := fun _ _ => None |}.

(** ** Commands that only report *)

(** [m] always succeeds, runs exactly the git invocations [l], prints, and
    does nothing else. *)
Definition reports_with (l : list Invocation) (m : M unit) : Prop :=
  forall env, exists out,
      m env = (inr tt, with_output out (with_trace (trace env ++ l) env)).

(** * Properties *)

Example parseLineRange_cases :
  parseLineRange "" = inr (None, None) /\
  parseLineRange "42" = inr (Some 42, Some 42) /\
  parseLineRange "10,35" = inr (Some 10, Some 35) /\
  parseLineRange "1,1" = inr (Some 1, Some 1) /\
  parseLineRange "abc" = inl (ENew "invalid line number") /\
  parseLineRange "abc,42" = inl (ENew "invalid line range") /\
  parseLineRange "42,abc" = inl (ENew "invalid line range") /\
  parseLineRange "10.5,20" = inl (ENew "invalid line range") /\
  parseLineRange "35,10" = inl (ENew "invalid line range: start must not exceed end") /\
  parseLineRange "-3,0" = inr (Some (-3), Some 0) /\
  parseLineRange "9223372036854775807" = inr (Some 9223372036854775807, Some 9223372036854775807) /\
  parseLineRange "9223372036854775808" = inl (ENew "invalid line number") /\
  parseLineRange "-9223372036854775808" = inr (Some (-9223372036854775808), Some (-9223372036854775808)).
Proof. repeat split; vm_compute; reflexivity. Qed.

(** ** Numerals and [strconv] *)

Lemma digit_val_range c d : digit_val c = Some d -> 0 <= d <= 9.
Proof.
  unfold digit_val. intros Hd.
  destruct (48 <=? Z.of_N (N_of_ascii c)) eqn:E1; simpl in Hd; [|discriminate].
  destruct (Z.of_N (N_of_ascii c) <=? 57) eqn:E2; simpl in Hd; [|discriminate].
  inversion Hd; subst. lia.
Qed.

Lemma digits_value_ge s : forall acc v,
  0 <= acc -> digits_value s acc = Some v -> acc <= v.
Proof.
  induction s as [|c s IH]; simpl; intros acc v Hacc Hv.
  - inversion Hv; lia.
  - destruct (digit_val c) as [d|] eqn:Hd; [|discriminate].
    apply digit_val_range in Hd.
    apply IH in Hv; lia.
Qed.

(** The loop of [ParseUint] computes the value of the digits when it fits
    64 bits, and fails otherwise. *)
Lemma ParseUint_loop_spec s : forall n,
  0 <= n <= maxUint64 ->
  match ParseUint_loop s n with
  | inr v => digits_value s n = Some v /\ 0 <= v <= maxUint64
  | inl _ => forall v, digits_value s n = Some v -> maxUint64 < v
  end.
Proof.
  unfold maxUint64.
  induction s as [|c s IH]; simpl; intros n Hn.
  - split; [reflexivity | lia].
  - destruct (digit_val c) as [d|] eqn:Hd; [|discriminate].
    pose proof (digit_val_range _ _ Hd) as Hdr.
    unfold maxUint64.
    change (18446744073709551615 / 10 + 1) with 1844674407370955162.
    destruct (1844674407370955162 <=? n) eqn:Hcut.
    + apply Z.leb_le in Hcut. cbv beta iota. intros v Hv.
      apply digits_value_ge in Hv; lia.
    + apply Z.leb_gt in Hcut. cbv beta iota zeta.
      change (2 ^ 64) with 18446744073709551616.
      destruct (Z_lt_ge_dec (n * 10 + d) 18446744073709551616) as [Hfit|Hover].
      * rewrite (Z.mod_small (n * 10 + d)) by lia.
        replace (n * 10 + d <? n * 10) with false by (symmetry; apply Z.ltb_ge; lia).
        replace (18446744073709551615 <? n * 10 + d) with false
          by (symmetry; apply Z.ltb_ge; lia).
        simpl. apply IH. lia.
      * assert (Hm : (n * 10 + d) mod 18446744073709551616
                     = n * 10 + d - 18446744073709551616).
        { symmetry. apply (Z.mod_unique _ _ 1); lia. }
        rewrite Hm.
        replace (n * 10 + d - 18446744073709551616 <? n * 10) with true
          by (symmetry; apply Z.ltb_lt; lia).
        simpl. intros v Hv. apply digits_value_ge in Hv; lia.
Qed.

Lemma ParseUint_spec s :
  match strconv_ParseUint s with
  | inr v => unsigned_value s = Some v /\ 0 <= v <= maxUint64
  | inl _ => forall v, unsigned_value s = Some v -> maxUint64 < v
  end.
Proof.
  destruct s as [|c s]; [simpl; discriminate|].
  unfold strconv_ParseUint, unsigned_value.
  apply ParseUint_loop_spec. unfold maxUint64; lia.
Qed.

Lemma unsigned_value_nonneg s v : unsigned_value s = Some v -> 0 <= v.
Proof.
  destruct s as [|c s]; [discriminate|]. unfold unsigned_value.
  intros Hv. apply digits_value_ge in Hv; lia.
Qed.

(** [ParseInt] accepts the numerals whose value is an [int64], and returns
    that value. *)
Lemma ParseInt_spec s :
  match strconv_ParseInt s with
  | inr z => numeral_value s = Some z /\ in_int64 z
  | inl _ => forall z, numeral_value s = Some z -> ~ in_int64 z
  end.
Proof.
  unfold in_int64. change (2 ^ 63) with 9223372036854775808.
  destruct s as [|c s]; [simpl; discriminate|].
  unfold strconv_ParseInt, numeral_value.
  change (2 ^ 63) with 9223372036854775808.
  destruct (Ascii.eqb c "+") eqn:Hplus; [|destruct (Ascii.eqb c "-") eqn:Hminus].
  - pose proof (ParseUint_spec s) as Hs.
    destruct (strconv_ParseUint s) as [e|un].
    + intros z Hz. apply Hs in Hz. unfold maxUint64 in Hz. lia.
    + destruct Hs as [Hv Hr]. cbn [negb andb].
      destruct (9223372036854775808 <=? un) eqn:Hc.
      * apply Z.leb_le in Hc. intros z Hz. assert (z = un) by congruence. lia.
      * apply Z.leb_gt in Hc. split; [assumption | lia].
  - pose proof (ParseUint_spec s) as Hs.
    destruct (strconv_ParseUint s) as [e|un].
    + intros z Hz. destruct (unsigned_value s) as [v|] eqn:Hv; [|discriminate].
      simpl in Hz. inversion Hz; subst.
      specialize (Hs v eq_refl). unfold maxUint64 in Hs. lia.
    + destruct Hs as [Hv Hr]. cbn [negb andb].
      destruct (9223372036854775808 <? un) eqn:Hc.
      * apply Z.ltb_lt in Hc. intros z Hz. rewrite Hv in Hz. simpl in Hz.
        inversion Hz; subst. lia.
      * apply Z.ltb_ge in Hc. rewrite Hv. simpl. split; [reflexivity | lia].
  - pose proof (ParseUint_spec (String c s)) as Hs.
    destruct (strconv_ParseUint (String c s)) as [e|un].
    + intros z Hz. apply Hs in Hz. unfold maxUint64 in Hz. lia.
    + destruct Hs as [Hv Hr]. cbn [negb andb].
      destruct (9223372036854775808 <=? un) eqn:Hc.
      * apply Z.leb_le in Hc. intros z Hz. assert (z = un) by congruence. lia.
      * apply Z.leb_gt in Hc. split; [assumption | lia].
Qed.

(** ** Cutting a string at its first comma *)

Lemma IndexByte_lower s c : -1 <= strings_IndexByte s c.
Proof.
  induction s as [|a s IH]; simpl; [lia|].
  destruct (Ascii.eqb a c); [lia|].
  destruct (strings_IndexByte s c <? 0) eqn:E; [lia|].
  apply Z.ltb_ge in E. lia.
Qed.

Lemma append_comma a b : a +:+ "," +:+ b = a +:+ String "," b.
Proof. reflexivity. Qed.

Lemma IndexByte_append a b c :
  strings_IndexByte a c = -1 ->
  strings_IndexByte (a +:+ String c b) c = Z.of_nat (String.length a).
Proof.
  induction a as [|x a IH]; simpl; intros Ha.
  - rewrite Ascii.eqb_refl. reflexivity.
  - destruct (Ascii.eqb x c); [discriminate|].
    destruct (strings_IndexByte a c <? 0) eqn:E.
    + apply Z.ltb_lt in E. pose proof (IndexByte_lower a c).
      rewrite IH by lia.
      destruct (Z.of_nat (String.length a) <? 0) eqn:E'; [apply Z.ltb_lt in E'|]; lia.
    + apply Z.ltb_ge in E. lia.
Qed.

Lemma slice_to_append a b c :
  slice_to (a +:+ String c b) (Z.of_nat (String.length a)) = a.
Proof.
  unfold slice_to. rewrite Nat2Z.id.
  induction a as [|x a IH]; simpl; [reflexivity | by rewrite IH].
Qed.

Lemma substring_all s : String.substring 0 (String.length s) s = s.
Proof. induction s as [|x s IH]; simpl; [reflexivity | by rewrite IH]. Qed.

Lemma slice_from_append a b c :
  slice_from (a +:+ String c b) (Z.of_nat (String.length a) + 1) = b.
Proof.
  unfold slice_from.
  replace (Z.to_nat (Z.of_nat (String.length a) + 1)) with (S (String.length a)) by lia.
  induction a as [|x a IH]; simpl.
  - rewrite Nat.sub_0_r. apply substring_all.
  - exact IH.
Qed.

(** A comma found at [i] cuts the string in the two slices the parser
    reads. *)
Lemma IndexByte_cut s c :
  0 <= strings_IndexByte s c ->
  s = slice_to s (strings_IndexByte s c)
      +:+ String c (slice_from s (strings_IndexByte s c + 1)).
Proof.
  induction s as [|x s IH]; simpl; [lia|].
  destruct (Ascii.eqb_spec x c) as [->|Hne].
  - intros _. unfold slice_to, slice_from. simpl.
    rewrite Nat.sub_0_r, substring_all. reflexivity.
  - destruct (strings_IndexByte s c <? 0) eqn:E; [lia|].
    apply Z.ltb_ge in E. intros _.
    specialize (IH E). unfold slice_to, slice_from in *.
    replace (Z.to_nat (strings_IndexByte s c + 1))
      with (S (Z.to_nat (strings_IndexByte s c))) by lia.
    replace (Z.to_nat (strings_IndexByte s c + 1 + 1))
      with (S (S (Z.to_nat (strings_IndexByte s c)))) by lia.
    replace (Z.to_nat (strings_IndexByte s c + 1))
      with (S (Z.to_nat (strings_IndexByte s c))) in IH by lia.
    simpl. etransitivity; [apply (f_equal (String x)), IH | reflexivity].
Qed.

Lemma digits_no_comma s : forall acc v,
  digits_value s acc = Some v -> strings_IndexByte s "," = -1.
Proof.
  induction s as [|x s IH]; simpl; intros acc v Hv; [reflexivity|].
  destruct (digit_val x) as [d|] eqn:Hd; [|discriminate].
  destruct (Ascii.eqb_spec x ",") as [->|Hne]; [discriminate|].
  rewrite (IH _ _ Hv). reflexivity.
Qed.

Lemma unsigned_no_comma s v :
  unsigned_value s = Some v -> strings_IndexByte s "," = -1.
Proof.
  destruct s as [|x s]; [discriminate|]. apply digits_no_comma.
Qed.

Lemma numeral_no_comma s v :
  numeral_value s = Some v -> strings_IndexByte s "," = -1.
Proof.
  destruct s as [|x s]; [discriminate|]. unfold numeral_value.
  destruct (Ascii.eqb_spec x "+") as [->|Hp].
  - intros Hv. apply unsigned_no_comma in Hv. simpl. by rewrite Hv.
  - destruct (Ascii.eqb_spec x "-") as [->|Hm].
    + destruct (unsigned_value s) as [u|] eqn:Hu; [|discriminate].
      intros _. apply unsigned_no_comma in Hu. simpl. by rewrite Hu.
    + apply unsigned_no_comma.
Qed.

Lemma numeral_nonempty s v : numeral_value s = Some v -> s <> "".
Proof. destruct s; [discriminate | congruence]. Qed.

Lemma no_comma_no_range raw s e :
  strings_IndexByte raw "," = -1 -> ~ numeric_range raw s e.
Proof.
  intros Hraw (a & b & -> & Ha & Hb).
  rewrite append_comma, IndexByte_append in Hraw by eauto using numeral_no_comma.
  lia.
Qed.

Lemma ParseInt_numeral s z :
  numeral_value s = Some z -> in_int64 z -> strconv_ParseInt s = inr z.
Proof.
  intros Hz Hr. pose proof (ParseInt_spec s) as Hs.
  destruct (strconv_ParseInt s) as [err|z'].
  - exfalso. exact (Hs z Hz Hr).
  - destruct Hs as [Hz' _]. congruence.
Qed.

(** ** The line-range parser *)

Lemma parseLineRange_accepts raw st en :
  parseLineRange raw = inr (st, en) <-> accepts raw st en.
Proof.
  split.
  - unfold parseLineRange.
    destruct (String.eqb_spec raw "") as [->|Hne].
    { intros [= <- <-]. constructor. }
    destruct (0 <=? strings_IndexByte raw ",") eqn:Hi.
    + apply Z.leb_le in Hi.
      pose proof (ParseInt_spec (slice_to raw (strings_IndexByte raw ","))) as Ha.
      destruct (strconv_ParseInt (slice_to raw (strings_IndexByte raw ","))) as [?|s];
        [discriminate|].
      pose proof (ParseInt_spec (slice_from raw (strings_IndexByte raw "," + 1))) as Hb.
      destruct (strconv_ParseInt (slice_from raw (strings_IndexByte raw "," + 1))) as [?|e];
        [discriminate|].
      destruct (e <? s) eqn:Hlt; [discriminate|]. apply Z.ltb_ge in Hlt.
      intros [= <- <-]. destruct Ha as [Ha ?], Hb as [Hb ?].
      apply accepts_range; try assumption.
      eexists _, _. split; [|split; eassumption].
      rewrite append_comma. by apply IndexByte_cut.
    + pose proof (ParseInt_spec raw) as Hn.
      destruct (strconv_ParseInt raw) as [?|n]; [discriminate|].
      intros [= <- <-]. destruct Hn. by apply accepts_single.
  - intros Hacc. destruct Hacc as [|raw n Hn Hr|raw s e (a & b & -> & Ha & Hb) Hs He Hle].
    + reflexivity.
    + unfold parseLineRange.
      destruct (String.eqb_spec raw "") as [->|_]; [discriminate|].
      rewrite (numeral_no_comma _ _ Hn). simpl.
      by rewrite (ParseInt_numeral _ _ Hn Hr).
    + unfold parseLineRange.
      destruct (String.eqb_spec (a +:+ "," +:+ b) "") as [Hempty|_].
      { destruct a; [|discriminate]. discriminate. }
      rewrite append_comma.
      rewrite IndexByte_append by eauto using numeral_no_comma.
      replace (0 <=? Z.of_nat (String.length a)) with true
        by (symmetry; apply Z.leb_le; lia).
      rewrite slice_to_append, slice_from_append.
      rewrite (ParseInt_numeral _ _ Ha Hs), (ParseInt_numeral _ _ Hb He).
      replace (e <? s) with false by (symmetry; apply Z.ltb_ge; lia).
      reflexivity.
Qed.

Lemma descendant_elem rows a c : descendant rows a c -> c ∈ rows.
Proof. by destruct 1. Qed.

Lemma descendant_mono rows rows' a c :
  rows ⊆ rows' -> descendant rows a c -> descendant rows' a c.
Proof.
  intros Hsub Hd. induction Hd as [c Hc Hp|p c _ IH Hc Hp].
  - apply desc_child; auto.
  - eapply desc_step; eauto.
Qed.

Lemma descendant_trans rows a p c :
  descendant rows a p -> descendant rows (db.ID p) c -> descendant rows a c.
Proof.
  intros Hap Hpc. induction Hpc as [c Hc Hp|q c _ IH Hc Hq].
  - eapply desc_step; eauto.
  - eapply desc_step; eauto.
Qed.

(** ** The cascade of a deletion *)
Section Cascade.
Import db.

Lemma refers_to_true dead c :
  refers_to dead c = true <-> exists a, a ∈ dead /\ ParentID c = Some a.
Proof.
  unfold refers_to. destruct (ParentID c) as [p|].
  - rewrite bool_decide_eq_true. split; [eauto | by intros (a & Ha & [= ->])].
  - split; [discriminate | by intros (a & _ & ?)].
Qed.

Lemma refers_to_false dead c :
  refers_to dead c = false <-> forall a, a ∈ dead -> ParentID c <> Some a.
Proof.
  rewrite <- not_true_iff_false, refers_to_true. split.
  - intros Hn a Ha Hp. apply Hn; eauto.
  - intros Hn (a & Ha & Hp). exact (Hn a Ha Hp).
Qed.

(** What a cascade with enough fuel leaves: a part of the table that
    no longer refers to a deleted row, and from which only descendants of
    the deleted keys are gone. *)
Lemma cascade_spec fuel : forall dead rows,
  (length rows <= fuel)%nat ->
  cascade fuel dead rows ⊆ rows /\
  (forall c, c ∈ cascade fuel dead rows ->
     refers_to dead c = false /\
     forall d, d ∈ rows -> d ∉ cascade fuel dead rows -> ParentID c <> Some (ID d)) /\
  (forall c, c ∈ rows -> c ∉ cascade fuel dead rows ->
     exists a, a ∈ dead /\ descendant rows a c).
Proof.
  induction fuel as [|fuel IH]; intros dead rows Hlen.
  - destruct rows; [|simpl in Hlen; lia]. simpl.
    split; [done|]. split; [intros c Hc; by apply elem_of_nil in Hc|].
    intros c Hc; by apply elem_of_nil in Hc.
  - simpl.
    destruct (filter (λ c, refers_to dead c = true) rows) as [|v victims] eqn:Hvict.
    + split; [done|]. split.
      * intros c Hc. split; [|intros d Hd Hnd; by destruct Hnd].
        destruct (refers_to dead c) eqn:Hr; [|done].
        assert (Hin : c ∈ filter (λ c, refers_to dead c = true) rows)
          by (apply list_elem_of_filter; done).
        rewrite Hvict in Hin. by apply elem_of_nil in Hin.
      * intros c Hc Hnc. by destruct Hnc.
    + set (rest := filter (λ c, refers_to dead c = false) rows).
      assert (Hv : v ∈ rows ∧ refers_to dead v = true).
      { assert (Hin : v ∈ filter (λ c, refers_to dead c = true) rows)
          by (rewrite Hvict; left).
        apply list_elem_of_filter in Hin. tauto. }
      assert (Hshort : (length rest < length rows)%nat).
      { unfold rest. clear -Hv. destruct Hv as [Hv Hr].
        induction rows as [|x rows IHr]; [by apply elem_of_nil in Hv|].
        rewrite filter_cons. apply elem_of_cons in Hv as [<-|Hv].
        - rewrite decide_False by congruence. simpl.
          pose proof (length_filter (λ c, refers_to dead c = false) rows). lia.
        - case_decide; simpl; specialize (IHr Hv); lia. }
      destruct (IH (ID <$> v :: victims) rest ltac:(lia)) as (Hsub & Hclosed & Hgone).
      assert (Hrest : rest ⊆ rows).
      { intros c Hc. apply list_elem_of_filter in Hc. tauto. }
      split; [intros c Hc; apply Hrest, Hsub, Hc|]. split.
      * intros c Hc. pose proof (Hsub _ Hc) as Hcr.
        apply list_elem_of_filter in Hcr as [Hcr Hcrows].
        destruct (Hclosed c Hc) as [Hnv Hnd]. split; [done|].
        intros d Hd Hnd'.
        destruct (refers_to dead d) eqn:Hrd.
        -- assert (Hdv : d ∈ v :: victims).
           { rewrite <- Hvict. apply list_elem_of_filter. done. }
           rewrite refers_to_false in Hnv. apply Hnv.
           apply list_elem_of_fmap. eauto.
        -- apply Hnd; [|done]. apply list_elem_of_filter. done.
      * intros c Hc Hnc.
        destruct (refers_to dead c) eqn:Hrc.
        -- apply refers_to_true in Hrc as (a & Ha & Hp).
           exists a. split; [done|]. by apply desc_child.
        -- assert (Hcrest : c ∈ rest) by (apply list_elem_of_filter; done).
           destruct (Hgone c Hcrest Hnc) as (a' & Ha' & Hd').
           apply list_elem_of_fmap in Ha' as (w & -> & Hw).
           rewrite <- Hvict in Hw. apply list_elem_of_filter in Hw as [Hrw Hw].
           apply refers_to_true in Hrw as (a & Ha & Hp).
           exists a. split; [done|].
           eapply descendant_trans; [by apply desc_child|].
           eapply descendant_mono; eauto.
Qed.
End Cascade.

(** ** Deleting rows of [comments] *)
Section DeleteRows.
Import db.

Lemma cascade_nothing fuel dead rows :
  (forall c, c ∈ rows -> refers_to dead c = false) ->
  cascade fuel dead rows = rows.
Proof.
  intros Hnone. destruct fuel as [|fuel]; [done|]. simpl.
  destruct (filter (λ c, refers_to dead c = true) rows) as [|v victims] eqn:Hv; [done|].
  assert (Hin : v ∈ filter (λ c, refers_to dead c = true) rows) by (rewrite Hv; left).
  apply list_elem_of_filter in Hin as [Hr Hin]. rewrite Hnone in Hr; done.
Qed.

Lemma filter_id_all (rows : list Comment) id :
  id ∉ ID <$> rows -> filter (λ c, ID c ≠ id) rows = rows.
Proof.
  induction rows as [|x rows IH]; [done|]. rewrite fmap_cons, not_elem_of_cons.
  intros [Hx Hrows]. rewrite filter_cons, decide_True by congruence.
  by rewrite IH.
Qed.

(** Deleting a key deletes its rows and their descendants, nothing else. *)
Lemma delete_rows_cascades rows id c :
  id ∈ ID <$> rows ->
  c ∈ delete_rows id rows <->
  c ∈ rows /\ ID c ≠ id /\ ~ descendant rows id c.
Proof.
  intros Hid. unfold delete_rows, mem. rewrite bool_decide_eq_true_2 by done.
  set (rest := filter (λ c, ID c ≠ id) rows).
  destruct (cascade_spec (length rest) [id] rest (le_n _)) as (Hsub & Hclosed & Hgone).
  assert (Hrest : forall x, x ∈ rest <-> ID x ≠ id /\ x ∈ rows)
    by (intros x; unfold rest; apply (list_elem_of_filter (λ c, ID c ≠ id))).
  assert (Hdesc : forall x, descendant rows id x -> x ∉ cascade (length rest) [id] rest).
  { intros x Hx. induction Hx as [x Hxin Hp|p x Hp IHp Hxin Hxp]; intros Hxf.
    - destruct (Hclosed x Hxf) as [Hr _]. rewrite refers_to_false in Hr.
      apply (Hr id); [left | done].
    - destruct (Hclosed x Hxf) as [Hr Hnd].
      destruct (decide (ID p = id)) as [Heq|Hne].
      + rewrite refers_to_false in Hr. apply (Hr id); [left | congruence].
      + apply (Hnd p); [|done|done]. apply Hrest. split; [done|].
        by apply descendant_elem in Hp. }
  split.
  - intros Hc. pose proof (Hsub _ Hc) as Hcr. apply Hrest in Hcr as [Hne Hin].
    repeat split; try done. intros Hd. by apply (Hdesc c).
  - intros (Hin & Hne & Hnd).
    destruct (decide (c ∈ cascade (length rest) [id] rest)) as [|Hnc]; [done|].
    exfalso. destruct (Hgone c) as (a & Ha & Hd); [by apply Hrest | done |].
    apply list_elem_of_singleton in Ha as ->. apply Hnd.
    eapply descendant_mono; [|exact Hd]. intros x Hx. by apply Hrest in Hx as [_ ?].
Qed.

(** A key that no row refers to goes alone. *)
Lemma delete_rows_childless rows id :
  (forall c, c ∈ rows -> ParentID c ≠ Some id) ->
  delete_rows id rows = filter (λ c, ID c ≠ id) rows.
Proof.
  intros Hnone. unfold delete_rows, mem. case_bool_decide as Hid.
  - apply cascade_nothing. intros c Hc. apply list_elem_of_filter in Hc as [_ Hc].
    apply refers_to_false. intros a Ha. apply list_elem_of_singleton in Ha as ->. auto.
  - by rewrite filter_id_all.
Qed.

Lemma ID_set_parent v c : ID (set_parent v c) = ID c.
Proof. done. Qed.

Lemma ID_reparent new old c : ID (reparent new old c) = ID c.
Proof. unfold reparent. by destruct (parent_is old c). Qed.

Lemma parent_is_true id c :
  parent_is (Some id) c = true <-> ParentID c = Some id.
Proof.
  unfold parent_is. destruct (ParentID c) as [p|]; [|done].
  rewrite bool_decide_eq_true. split; congruence.
Qed.

Lemma parent_is_false id c :
  parent_is (Some id) c = false <-> ParentID c ≠ Some id.
Proof. rewrite <- not_true_iff_false, parent_is_true. done. Qed.

(** After its children were given to [g], nothing refers to [id]. *)
Lemma reparent_childless (rows : list Comment) g id c :
  g ≠ id -> c ∈ reparent (Some g) (Some id) <$> rows -> ParentID c ≠ Some id.
Proof.
  intros Hg Hc. apply list_elem_of_fmap in Hc as (x & -> & Hx).
  unfold reparent. destruct (parent_is (Some id) x) eqn:Hp.
  - simpl. congruence.
  - by apply parent_is_false.
Qed.

Lemma NoDup_ID_eq (rows : list Comment) (c d : Comment) :
  NoDup (ID <$> rows) -> c ∈ rows -> d ∈ rows -> ID c = ID d -> c = d.
Proof.
  intros Hnd Hc Hd Heq.
  apply list_elem_of_lookup in Hc as [i Hi], Hd as [j Hj].
  assert (i = j) as ->.
  { eapply (NoDup_lookup _ i j (ID c) Hnd); rewrite list_lookup_fmap.
    - by rewrite Hi.
    - by rewrite Hj, Heq. }
  congruence.
Qed.

(** Deleting a reply keeps every other comment in the thread it was in. *)
Lemma reparent_keeps_thread (rows : list Comment) t g r c :
  NoDup (ID <$> rows) ->
  t ∈ rows -> ParentID t = Some g -> g ≠ ID t -> r ≠ ID t ->
  descendant rows r c ->
  let rows' := filter (λ x, ID x ≠ ID t)
                      (reparent (Some g) (Some (ID t)) <$> rows) in
  if decide (ID c = ID t)
  then g = r \/ exists q, descendant rows' r q /\ g = ID q
  else descendant rows' r (reparent (Some g) (Some (ID t)) c).
Proof.
  intros Hnd Ht Htp Hg Hr Hd rows'.
  assert (Hkeep : forall x, x ∈ rows -> ID x ≠ ID t ->
                            reparent (Some g) (Some (ID t)) x ∈ rows').
  { intros x Hx Hne. apply list_elem_of_filter. split.
    - by rewrite ID_reparent.
    - apply list_elem_of_fmap. eauto. }
  induction Hd as [c Hc Hp|p c Hpd IH Hc Hp].
  - destruct (decide (ID c = ID t)) as [Heq|Hne].
    + left. assert (c = t) as -> by eauto using NoDup_ID_eq. congruence.
    + apply desc_child; [by apply Hkeep|].
      unfold reparent. rewrite (proj2 (parent_is_false _ _)) by congruence. done.
  - destruct (decide (ID c = ID t)) as [Heq|Hne].
    + assert (c = t) as -> by eauto using NoDup_ID_eq.
      assert (g = ID p) as -> by congruence.
      rewrite decide_False in IH by done.
      right. eexists. split; [exact IH|]. by rewrite ID_reparent.
    + destruct (decide (ID p = ID t)) as [Hpt|Hpt].
      * assert (Hrc : ParentID (reparent (Some g) (Some (ID t)) c) = Some g).
        { unfold reparent. rewrite (proj2 (parent_is_true _ _)) by congruence. done. }
        destruct IH as [->|(q & Hq & ->)].
        -- apply desc_child; [by apply Hkeep | done].
        -- eapply desc_step; [exact Hq | by apply Hkeep | done].
      * eapply desc_step; [exact IH | by apply Hkeep |].
        rewrite ID_reparent.
        unfold reparent. rewrite (proj2 (parent_is_false _ _)) by congruence.
        done.
Qed.
End DeleteRows.

(** ** Running commands *)

Ltac unfold_monad :=
  unfold bind, wrap, or_fail, or_default, attempt, emit, queryM, execM, ret, fail in *.

Section RunLemmas.
Import db commands.
Context {F : Faults} {E : git.Executor}.

Lemma query_no_fault {A} stmt (f : Store -> Result A) st :
  io_fault stmt st = false -> query stmt f st = f st.
Proof. unfold query. by intros ->. Qed.

Lemma requireActive_store env r env' :
  requireActive env = (r, env') -> env' = env.
Proof.
  unfold requireActive. unfold_monad.
  destruct (SessionExists (store env)) as [e|n]; [congruence|].
  destruct (n =? 0); congruence.
Qed.

Lemma requireActive_ok env :
  no_faults -> session (store env) ≠ [] -> requireActive env = (inr tt, env).
Proof.
  intros Hnf Hs. unfold requireActive, SessionExists. unfold_monad.
  rewrite query_no_fault by apply Hnf.
  destruct (session (store env)) as [|s l]; [done|]. simpl length.
  replace (Z.of_nat (S (length l)) =? 0) with false; [done|].
  symmetry. apply Z.eqb_neq. lia.
Qed.

(** What [DeleteCmd.Run] leaves in the store, whatever fails: either
    nothing has changed, or the children were re-parented (for a reply)
    and the target deleted. *)
Lemma DeleteCmd_Run_cases g id env r env' :
  DeleteCmd_Run g id env = (r, env') ->
  (is_ok r = false /\ store env' = store env) \/
  (r = inr tt /\
   exists target,
     FindCommentByPrefix (Some id) (store env) = inr target /\
     store env' =
       with_comments
         (delete_rows (ID target)
            (match ParentID target with
             | Some _ => reparent (ParentID target) (Some (ID target))
                           <$> comments (store env)
             | None => comments (store env)
             end)) (store env)).
Proof.
  unfold DeleteCmd_Run. unfold bind at 1.
  destruct (requireActive env) as [[e|[]] env0] eqn:Hreq;
    apply requireActive_store in Hreq as ->.
  { intros [= <- <-]. by left. }
  unfold bind at 1. unfold WithTx.
  destruct (io_fault SBegin (store env)); [intros [= <- <-]; by left|].
  unfold bind at 1. unfold or_fail, queryM.
  destruct (FindCommentByPrefix (Some id) (store env)) as [e|target] eqn:Hfind.
  { intros [= <- <-]. by left. }
  unfold bind at 1.
  destruct (ParentID target) as [g'|] eqn:Hp.
  - unfold wrap at 1, execM at 1.
    destruct (ReparentChildren (Some g') (Some (ID target)) (store env))
      as [e|st1] eqn:Hre.
    { intros [= <- <-]. by left. }
    unfold wrap, execM. simpl store.
    destruct (DeleteComment (ID target) st1) as [e|st2] eqn:Hdel.
    { intros [= <- <-]. by left. }
    simpl store.
    destruct (io_fault SCommit st2); [intros [= <- <-]; by left|].
    unfold emit. intros [= <- <-]. right. split; [done|].
    exists target. split; [done|]. rewrite Hp. simpl.
    unfold ReparentChildren, query in Hre.
    destruct (io_fault SReparentChildren (store env)); [done|].
    destruct (_ && _) in Hre; [done|]. injection Hre as <-.
    unfold DeleteComment, query in Hdel.
    destruct (io_fault SDeleteComment _); [done|]. injection Hdel as <-.
    done.
  - unfold ret at 1. unfold wrap, execM.
    destruct (DeleteComment (ID target) (store env)) as [e|st2] eqn:Hdel.
    { intros [= <- <-]. by left. }
    simpl store.
    destruct (io_fault SCommit st2); [intros [= <- <-]; by left|].
    unfold emit. intros [= <- <-]. right. split; [done|].
    exists target. split; [done|]. rewrite Hp. simpl.
    unfold DeleteComment, query in Hdel.
    destruct (io_fault SDeleteComment _); [done|]. injection Hdel as <-.
    done.
Qed.
End RunLemmas.

Section DeleteLemmas.
Import db commands.
Context {F : Faults} {E : git.Executor}.

Lemma reparent_adopted p tid c : reparent (Some p) (Some tid) c = adopted_by p tid c.
Proof.
  unfold reparent, adopted_by. destruct (parent_is (Some tid) c) eqn:Hp.
  - apply parent_is_true in Hp. by rewrite decide_True.
  - apply parent_is_false in Hp. by rewrite decide_False.
Qed.

Lemma first_row_elem {A} (rows : list A) (r : A) : first_row rows = inr r -> r ∈ rows.
Proof. destruct rows; [done|]. intros [= ->]. left. Qed.

Lemma FindCommentByPrefix_elem id st c :
  FindCommentByPrefix (Some id) st = inr c -> c ∈ comments st.
Proof.
  unfold FindCommentByPrefix, query. destruct (io_fault _ _); [done|].
  intros Hc%first_row_elem. apply list_elem_of_filter in Hc. tauto.
Qed.

Lemma DeleteCmd_Run_ok g id env target :
  no_faults -> session (store env) ≠ [] ->
  FindCommentByPrefix (Some id) (store env) = inr target ->
  (forall p, ParentID target = Some p -> p ∈ ID <$> comments (store env)) ->
  exists env', DeleteCmd_Run g id env = (inr tt, env').
Proof.
  intros Hnf Hs Hfind Hfk. unfold DeleteCmd_Run. unfold bind at 1.
  rewrite requireActive_ok by done.
  unfold bind at 1. unfold WithTx. rewrite Hnf.
  unfold bind at 1. unfold or_fail, queryM. rewrite Hfind.
  unfold bind at 1. destruct (ParentID target) as [p|] eqn:Hp.
  - unfold wrap at 1, execM at 1. unfold ReparentChildren.
    rewrite query_no_fault by apply Hnf.
    unfold mem. rewrite (bool_decide_eq_true_2 _ (Hfk p eq_refl)).
    rewrite andb_false_r.
    unfold wrap, execM, DeleteComment. rewrite query_no_fault by apply Hnf.
    simpl store. rewrite Hnf. unfold emit. eauto.
  - unfold ret at 1. unfold wrap, execM, DeleteComment.
    rewrite query_no_fault by apply Hnf.
    simpl store. rewrite Hnf. unfold emit. eauto.
Qed.
End DeleteLemmas.

(** * The claims *)

(** C1. Deleting a comment. For a root (null parent), the comment and its
    whole descendant subtree go, and nothing else. For a reply (non-null
    parent [p]), each direct child is handed to [p], which is never null,
    only the reply itself is removed, the roots of the table are the same
    and every other comment stays in the thread it was in. Both steps are
    one transaction: whatever fails, the store is left as it was. *)
Theorem delete_cascades_or_reparents :
  (forall (F : db.Faults) g id env r env',
      commands.DeleteCmd_Run g id env = (r, env') ->
      is_ok r = false -> store env' = store env) /\
  (forall (F : db.Faults) g id env target,
      no_faults ->
      db.session (store env) ≠ [] ->
      db.FindCommentByPrefix (Some id) (store env) = inr target ->
      NoDup (db.ID <$> db.comments (store env)) ->
      (forall p, db.ParentID target = Some p ->
                 p ∈ db.ID <$> db.comments (store env) /\ p ≠ db.ID target) ->
      exists env',
        commands.DeleteCmd_Run g id env = (inr tt, env') /\
        db.session (store env') = db.session (store env) /\
        db.commits (store env') = db.commits (store env) /\
        db.reviewers (store env') = db.reviewers (store env) /\
        let rows := db.comments (store env) in
        let rows' := db.comments (store env') in
        match db.ParentID target with
        | None =>
            forall c, c ∈ rows' <->
                      c ∈ rows /\ db.ID c ≠ db.ID target /\
                      ~ descendant rows (db.ID target) c
        | Some p =>
            rows' = filter (fun c => db.ID c ≠ db.ID target)
                           (adopted_by p (db.ID target) <$> rows) /\
            (forall c, db.ParentID c = None -> (c ∈ rows' <-> c ∈ rows)) /\
            (forall r c, r ≠ db.ID target -> db.ID c ≠ db.ID target ->
                         descendant rows r c ->
                         descendant rows' r (adopted_by p (db.ID target) c))
        end).
Proof.
  split.
  - intros F g id env r env' Hrun Hr.
    apply DeleteCmd_Run_cases in Hrun as [[_ Hst]|[-> _]]; done.
  - intros F g id env target Hnf Hs Hfind Hnd Hfk.
    destruct (DeleteCmd_Run_ok g id env target Hnf Hs Hfind) as [env' Hrun].
    { intros p Hp. by apply Hfk. }
    exists env'. split; [done|].
    apply DeleteCmd_Run_cases in Hrun as [[Hr _]|[_ (t & Hfind' & Hst)]]; [done|].
    assert (t = target) as -> by congruence.
    rewrite Hst. do 3 (split; [done|]). simpl.
    pose proof (FindCommentByPrefix_elem _ _ _ Hfind) as Hin.
    destruct (db.ParentID target) as [p|] eqn:Hp.
    + destruct (Hfk p eq_refl) as [Hpin Hpne].
      assert (Hrows : db.delete_rows (db.ID target)
                        (db.reparent (Some p) (Some (db.ID target))
                           <$> db.comments (store env))
                      = filter (fun c => db.ID c ≠ db.ID target)
                          (adopted_by p (db.ID target) <$> db.comments (store env))).
      { rewrite delete_rows_childless.
        - f_equal. apply list_fmap_ext. intros _ c _. apply reparent_adopted.
        - intros c Hc. by eapply reparent_childless. }
      rewrite Hrows. split; [done|]. split.
      * intros c Hroot. rewrite list_elem_of_filter, list_elem_of_fmap. split.
        -- intros (_ & x & -> & Hx). unfold adopted_by in *.
           destruct (decide (db.ParentID x = Some (db.ID target))); [done | done].
        -- intros Hc. split.
           ++ intros Heq. assert (c = target) by eauto using NoDup_ID_eq. congruence.
           ++ exists c. split; [|done]. unfold adopted_by.
              rewrite decide_False; [done | congruence].
      * intros r c Hr Hc Hd.
        pose proof (reparent_keeps_thread _ _ _ _ _ Hnd Hin Hp Hpne Hr Hd) as Hk.
        simpl in Hk. rewrite decide_False in Hk by done.
        rewrite reparent_adopted in Hk.
        erewrite list_fmap_ext in Hk; [exact Hk|].
        intros _ x _. apply reparent_adopted.
    + intros c. apply delete_rows_cascades.
      apply list_elem_of_fmap. eauto.
Qed.

(** When the storage fails on the [DELETE], after the children were
    re-parented, the transaction is rolled back: the grandchild still
    hangs under the reply. *)
Example delete_rolls_back :
  commands.DeleteCmd_Run (F := failing_delete) main_worktree "02" sample_env
  = (inl (EWrap EStorage "failed to delete comment"), sample_env).
Proof. vm_compute. reflexivity. Qed.

Lemma delete_cascades_or_reparents_witness :
  (exists env',
      commands.DeleteCmd_Run (F := sound_storage)
        main_worktree "02" sample_env = (inr tt, env') /\
      db.comments (store env') =
        [mk_comment "01-root" None "aaa111" "root" "alice";
         mk_comment "03-reply" (Some "01-root") "aab222" "reply 2" "carol";
         mk_comment "04-grand" (Some "01-root") "aaa111" "grandchild" "bob";
         mk_comment "05-other" None "aab222" "other root" "carol"]) /\
  (exists env',
      commands.DeleteCmd_Run (F := sound_storage)
        main_worktree "01" sample_env = (inr tt, env') /\
      forall c, c ∈ db.comments (store env') ->
                ~ descendant (db.comments sample_store) "01-root" c).
Proof.
  split.
  - destruct (proj2 delete_cascades_or_reparents sound_storage
                main_worktree "02" sample_env
                (mk_comment "02-reply" (Some "01-root") "aaa111" "reply 1" "bob"))
      as (env' & Hrun & _ & _ & _ & Hrows & _).
    + intros stmt st. reflexivity.
    + discriminate.
    + reflexivity.
    + refine (bool_decide_unpack _ _). vm_compute. exact I.
    + intros p [= <-]. split; [|discriminate].
      refine (bool_decide_unpack _ _). vm_compute. exact I.
    + exists env'. split; [exact Hrun|]. rewrite Hrows. reflexivity.
  - destruct (proj2 delete_cascades_or_reparents sound_storage
                main_worktree "01" sample_env
                (mk_comment "01-root" None "aaa111" "root" "alice"))
      as (env' & Hrun & _ & _ & _ & Hrows).
    + intros stmt st. reflexivity.
    + discriminate.
    + reflexivity.
    + refine (bool_decide_unpack _ _). vm_compute. exact I.
    + intros p [=].
    + exists env'. split; [exact Hrun|]. intros c Hc.
      apply Hrows in Hc. tauto.
Defined.

Section FindRoot.
Import db commands.

Lemma climbs_fun m c n r n' r' :
  climbs m c n r -> climbs m c n' r' -> n = n' /\ r = r'.
Proof.
  intros Hc. revert n' r'.
  induction Hc as [c Hp|c p Hp Hm|c p c' n r Hp Hm _ IH]; intros n' r' Hc';
    inversion Hc'; subst; try done; try congruence.
  assert (p0 = p) as -> by congruence.
  assert (c'0 = c') as -> by congruence.
  destruct (IH _ _ H1) as [-> ->]. done.
Qed.

(** A walk that stops within [k] steps does not go through the key of a
    comment that needs [k] steps. *)
Lemma climbs_delete m p t k rt c n r :
  m !! p = Some t -> climbs m t k rt ->
  climbs m c n r -> (n <= k)%nat ->
  climbs (delete p m) c n r.
Proof.
  intros Hp Ht Hc. induction Hc as [c Hc|c q Hq Hm|c q c' n r Hq Hm Hc' IH]; intros Hn.
  - by apply climbs_root.
  - eapply climbs_orphan; [done|].
    destruct (decide (p = q)) as [->|Hne];
      [apply lookup_delete_eq | by rewrite lookup_delete_ne].
  - destruct (decide (p = q)) as [->|Hne].
    + assert (c' = t) as -> by congruence.
      destruct (climbs_fun _ _ _ _ _ _ Hc' Ht) as [-> _]. lia.
    + eapply climbs_step; [done | by rewrite lookup_delete_ne |].
      apply IH. lia.
Qed.

(** A walk that stops is no longer than the map is large. *)
Lemma climbs_bound n : forall m c r, climbs m c n r -> (n <= size m)%nat.
Proof.
  induction n as [|n IH]; intros m c r Hc; [lia|].
  inversion Hc as [| |c0 p c' n0 r0 Hp Hm Hc']; subst.
  pose proof (climbs_delete m p c' n r c' n r Hm Hc' Hc' (le_n _)) as Hd.
  apply IH in Hd. rewrite map_size_delete_Some in Hd by eauto.
  assert (size m ≠ 0%nat).
  { intros Hz. apply map_size_empty_inv in Hz. subst. by rewrite lookup_empty in Hm. }
  lia.
Qed.

Lemma findRoot_loop_climbs m c n r fuel :
  climbs m c n r -> (n <= fuel)%nat -> findRoot_loop fuel m c = Some r.
Proof.
  intros Hc. revert fuel.
  induction Hc as [c Hp|c p Hp Hm|c p c' n r Hp Hm _ IH]; intros fuel Hn.
  - destruct fuel; simpl; by rewrite Hp.
  - destruct fuel; simpl; by rewrite Hp, Hm.
  - destruct fuel as [|fuel]; [lia|]. simpl. rewrite Hp, Hm. apply IH. lia.
Qed.

Lemma findRoot_climbs m c n r : climbs m c n r -> findRoot m c = Some r.
Proof.
  intros Hc. eapply findRoot_loop_climbs; [done|]. by eapply climbs_bound.
Qed.

Lemma foldl_insert_lookup (rows : list Comment) : forall (m : gmap string Comment) i c,
  NoDup (ID <$> rows) ->
  (foldl (fun m c => <[ID c := c]> m) m rows) !! i = Some c <->
  (c ∈ rows /\ ID c = i) \/ ((i ∉ ID <$> rows) /\ m !! i = Some c).
Proof.
  induction rows as [|x rows IH]; intros m i c Hnd; simpl.
  - split; [intros Hm; right; split; [apply not_elem_of_nil | done]|].
    intros [[Hc _]|[_ Hm]]; [by apply elem_of_nil in Hc | done].
  - rewrite fmap_cons in Hnd. apply NoDup_cons in Hnd as [Hx Hnd].
    rewrite IH by done. rewrite not_elem_of_cons, elem_of_cons. split.
    + intros [[Hc Hi]|[Hi Hm]]; [left; auto|].
      apply lookup_insert_Some in Hm as [[<- <-]|[Hne Hm]]; [left; auto|].
      right. auto.
    + intros [[[->|Hc] Hi]|[[Hne Hi] Hm]].
      * right. split; [|subst i; apply lookup_insert_eq]. by subst i.
      * left. auto.
      * right. split; [done|]. by rewrite lookup_insert_ne.
Qed.

(** With unique keys the map of [buildIDMap] finds each row by its key. *)
Lemma buildIDMap_lookup (rows : list Comment) i c :
  NoDup (ID <$> rows) ->
  buildIDMap rows !! i = Some c <-> c ∈ rows /\ ID c = i.
Proof.
  intros Hnd. unfold buildIDMap. rewrite foldl_insert_lookup by done.
  rewrite lookup_empty. split; [|by left]. by intros [?|[_ ?]].
Qed.

(** In a table with unique keys, [findRoot] finds the root of the thread
    of each of its descendants. *)
Lemma findRoot_descendant (rows : list Comment) r c :
  NoDup (ID <$> rows) -> r ∈ rows -> ParentID r = None ->
  descendant rows (ID r) c ->
  findRoot (buildIDMap rows) c = Some r.
Proof.
  intros Hnd Hr Hroot Hd.
  assert (exists n, climbs (buildIDMap rows) c n r) as [n Hn];
    [|by eapply findRoot_climbs].
  induction Hd as [c Hc Hp|p c Hpd [n IH] Hc Hp].
  - exists 1%nat. eapply climbs_step; [done| |by apply climbs_root].
    by apply buildIDMap_lookup.
  - exists (S n). eapply climbs_step; [done| |exact IH].
    apply buildIDMap_lookup; [done|]. split; [|done]. by eapply descendant_elem.
Qed.

Lemma findRoot_root m c : ParentID c = None -> findRoot m c = Some c.
Proof. intros Hp. unfold findRoot. destruct (size m); simpl; by rewrite Hp. Qed.
End FindRoot.

(** ** The filters of [list] *)

Section Filters.
Import db commands.

Lemma prefix_nonempty p s : String.prefix p s = true -> p ≠ "" -> s ≠ "".
Proof. intros Hp Hne ->. destruct p; [done | discriminate]. Qed.

Lemma matchCommit_selected commits commit :
  matchCommit commits commit = default "" (selected_commit commits commit).
Proof.
  unfold selected_commit, strings_HasPrefix. induction commits as [|cm commits IH]; [done|].
  simpl. rewrite filter_cons. unfold strings_HasPrefix.
  destruct (String.prefix commit (Sha cm)) eqn:Hp.
  - by rewrite decide_True.
  - rewrite decide_False by congruence. exact IH.
Qed.

Lemma selected_commit_nonempty commits commit sha :
  commit ≠ "" -> selected_commit commits commit = Some sha -> sha ≠ "".
Proof.
  unfold selected_commit. intros Hne Hs.
  destruct (head _) as [cm|] eqn:Hh; [|done]. injection Hs as <-.
  apply head_Some_elem_of, list_elem_of_filter in Hh as [Hp _].
  by eapply prefix_nonempty.
Qed.

Lemma rootPasses_true m u cr f c :
  rootPasses m u cr f c = true <->
  (m = "" \/ CommitSHA c = m) /\ (u = false \/ ResolvedAt c = None) /\
  (cr = "" \/ CreatedBy c = cr) /\ (f = "" \/ File c = Some f).
Proof.
  unfold rootPasses.
  assert (Hfile : (negb (String.eqb f "")
                   && match File c with
                      | None => true
                      | Some fl => negb (String.eqb fl f)
                      end) = false <-> f = "" \/ File c = Some f).
  { destruct (String.eqb_spec f ""), (File c) as [fl|]; simpl;
      try destruct (String.eqb_spec fl f); simpl; intuition congruence. }
  assert (Hcr : (negb (String.eqb cr "") && negb (String.eqb (CreatedBy c) cr)) = false
                <-> cr = "" \/ CreatedBy c = cr).
  { destruct (String.eqb_spec cr ""), (String.eqb_spec (CreatedBy c) cr); simpl;
      intuition congruence. }
  assert (Hu : (u && bool_decide (is_Some (ResolvedAt c))) = false
               <-> u = false \/ ResolvedAt c = None).
  { destruct u, (ResolvedAt c); simpl;
      try (rewrite bool_decide_eq_true_2 by eauto);
      try (rewrite bool_decide_eq_false_2 by (by intros [? ?]));
      intuition congruence. }
  assert (Hm : (negb (String.eqb m "") && negb (String.eqb (CommitSHA c) m)) = false
               <-> m = "" \/ CommitSHA c = m).
  { destruct (String.eqb_spec m ""), (String.eqb_spec (CommitSHA c) m); simpl;
      intuition congruence. }
  rewrite <- Hfile, <- Hcr, <- Hu, <- Hm.
  destruct (negb (String.eqb m "") && _), (u && _),
    (negb (String.eqb cr "") && _), (negb (String.eqb f "") && _);
    intuition congruence.
Qed.

(** The test of the second loop is the conjunction of the active
    filters. *)
Lemma rootPasses_satisfies commits commit unresolved creator file c :
  (commit ≠ "" -> matchCommit commits commit ≠ "") ->
  rootPasses (if negb (String.eqb commit "") then matchCommit commits commit else "")
             unresolved creator file c = true
  <-> satisfies_filters commits commit unresolved creator file c.
Proof.
  intros Hmatch. rewrite rootPasses_true. rewrite matchCommit_selected in *.
  destruct (String.eqb_spec commit "") as [->|Hc]; simpl negb; cbv iota.
  - split.
    + intros (_ & Hu & Hcr & Hf). split; [done|..]; intros Hx.
      * destruct Hu; congruence.
      * destruct Hcr; congruence.
      * destruct Hf; congruence.
    + intros [_ Hu Hcr Hf]. split; [by left|].
      split; [destruct unresolved; auto|].
      split; [destruct (decide (creator = "")); auto|].
      destruct (decide (file = "")); auto.
  - specialize (Hmatch Hc). split.
    + intros (Hm & Hu & Hcr & Hf). split; intros Hx.
      * destruct Hm as [Hm|Hm]; [done|].
        destruct (selected_commit commits commit); simpl in *; congruence.
      * destruct Hu; congruence.
      * destruct Hcr; congruence.
      * destruct Hf; congruence.
    + intros [Hm Hu Hcr Hf]. split; [right; by rewrite (Hm Hc)|].
      split; [destruct unresolved; auto|].
      split; [destruct (decide (creator = "")); auto|].
      destruct (decide (file = "")); auto.
Qed.
End Filters.

Section FilterComments.
Import db commands.

Lemma collectRootIDs_elem m u cr f (rows : list Comment) : forall (ids : gset string) i,
  i ∈ foldl (fun ids cm =>
               match ParentID cm with
               | Some _ => ids
               | None => if rootPasses m u cr f cm then {[ID cm]} ∪ ids else ids
               end) ids rows
  <-> i ∈ ids \/ exists c, c ∈ rows /\ ID c = i /\ ParentID c = None
                           /\ rootPasses m u cr f c = true.
Proof.
  induction rows as [|x rows IH]; intros ids i; simpl.
  - split; [by left|]. intros [?|(c & Hc & _)]; [done | by apply elem_of_nil in Hc].
  - rewrite IH. split.
    + intros [Hi|(c & Hc & ?)].
      * destruct (ParentID x) eqn:Hp; [by left|].
        destruct (rootPasses m u cr f x) eqn:Hr; [|by left].
        apply elem_of_union in Hi as [Hi|Hi]; [|by left].
        apply elem_of_singleton in Hi as ->. right. exists x.
        split; [left|done].
      * right. exists c. split; [by right | done].
    + intros [Hi|(c & Hc & Hid & Hp & Hr)].
      * left. destruct (ParentID x); [done|].
        destruct (rootPasses m u cr f x); [|done].
        apply elem_of_union. by right.
      * apply elem_of_cons in Hc as [->|Hc].
        -- left. rewrite Hp, Hr. apply elem_of_union. left.
           by apply elem_of_singleton.
        -- right. eauto.
Qed.

(** With unique keys, the set [rootIDs] holds the key of a root exactly
    when that root passes the test. *)
Lemma collectRootIDs_root m u cr f (rows : list Comment) r :
  NoDup (ID <$> rows) -> r ∈ rows -> ParentID r = None ->
  ID r ∈ collectRootIDs m u cr f rows <-> rootPasses m u cr f r = true.
Proof.
  intros Hnd Hr Hroot. unfold collectRootIDs. rewrite collectRootIDs_elem. split.
  - intros [Hi|(c & Hc & Hid & _ & Hp)]; [by apply not_elem_of_empty in Hi|].
    assert (c = r) as -> by eauto using NoDup_ID_eq. done.
  - intros Hp. right. eauto.
Qed.

Lemma collectRootIDs_is_root m u cr f (rows : list Comment) i :
  i ∈ collectRootIDs m u cr f rows ->
  exists c, c ∈ rows /\ ID c = i /\ ParentID c = None.
Proof.
  unfold collectRootIDs. rewrite collectRootIDs_elem.
  intros [Hi|(c & Hc & Hid & Hp & _)]; [by apply not_elem_of_empty in Hi|]. eauto.
Qed.

(** The third loop keeps the comments whose root is in the set. *)
Lemma selectThreads_spec ids m (rows : list Comment) :
  (forall c, c ∈ rows -> is_Some (findRoot m c)) ->
  exists res,
    selectThreads ids m rows = Some res /\
    forall c, c ∈ res <->
              c ∈ rows /\ exists root, findRoot m c = Some root /\ ID root ∈ ids.
Proof.
  induction rows as [|x rows IH]; intros Hall.
  - exists []. split; [done|]. intros c. split; [intros Hc|intros [Hc _]];
      by apply elem_of_nil in Hc.
  - destruct IH as (res & Hres & Hspec).
    { intros c Hc. apply Hall. by right. }
    destruct (Hall x ltac:(left)) as [root Hroot].
    assert (Hsel : selectThreads ids m (x :: rows)
                   = Some (if bool_decide (ID root ∈ ids) then x :: res else res)).
    { simpl. destruct (ParentID x) eqn:Hp.
      - rewrite Hroot. simpl. by rewrite Hres.
      - rewrite Hres. simpl. rewrite findRoot_root in Hroot by done.
        by injection Hroot as <-. }
    eexists. split; [exact Hsel|]. intros c.
    case_bool_decide as Hin.
    + rewrite !elem_of_cons, Hspec. split.
      * intros [->|[Hc Hr]]; [eauto|]. eauto.
      * intros [[->|Hc] Hr]; [by left | right; eauto].
    + rewrite elem_of_cons, Hspec. split.
      * intros [Hc Hr]. eauto.
      * intros [[->|Hc] (root' & Hr & Hi)]; [|eauto].
        exfalso. apply Hin. congruence.
Qed.

Lemma forest_findRoot (rows : list Comment) c :
  NoDup (ID <$> rows) -> forest rows -> c ∈ rows ->
  exists r, findRoot (buildIDMap rows) c = Some r /\ r ∈ rows /\ ParentID r = None
            /\ (c = r \/ descendant rows (ID r) c).
Proof.
  intros Hnd Hf Hc. destruct (Hf c Hc) as [Hroot|(r & Hr & Hroot & Hd)].
  - exists c. split; [by apply findRoot_root|]. auto.
  - exists r. split; [by apply findRoot_descendant|]. auto.
Qed.
End FilterComments.

(** C2. The filters of [list] work on roots. In a table with unique keys
    that is a forest, [filterComments] returns a result, and in it: a root
    is included exactly when it satisfies every active filter (the commit
    filter meaning: the root is on the commit the prefix selects in the
    ordered commit list); every descendant of an included root is
    included, whatever its own commit, creator, file or resolution; nothing
    else is included; and without an active filter the result is the whole
    table. *)
Theorem filter_selects_threads_of_passing_roots
        (rows : list db.Comment) (commits : list db.Commit)
        (commit : string) (unresolved : bool) (creator file : string) :
  NoDup (db.ID <$> rows) ->
  forest rows ->
  exists res,
    commands.filterComments rows commits (commands.buildIDMap rows)
                            commit unresolved creator file = Some res /\
    (commit = "" -> unresolved = false -> creator = "" -> file = "" -> res = rows) /\
    (forall r, db.ParentID r = None ->
       (r ∈ res <->
        r ∈ rows /\ satisfies_filters commits commit unresolved creator file r)) /\
    (forall r c, r ∈ res -> db.ParentID r = None ->
       descendant rows (db.ID r) c -> c ∈ res) /\
    (forall c, c ∈ res ->
       exists r, r ∈ res /\ db.ParentID r = None /\
                 (c = r \/ descendant rows (db.ID r) c)).
Proof.
  intros Hnd Hforest. unfold commands.filterComments.
  destruct (negb (negb (String.eqb commit "") || unresolved
                  || negb (String.eqb creator "") || negb (String.eqb file ""))) eqn:Hnf.
  - assert (commit = "" /\ unresolved = false /\ creator = "" /\ file = "")
      as (-> & -> & -> & ->).
    { destruct (String.eqb_spec commit ""), unresolved,
        (String.eqb_spec creator ""), (String.eqb_spec file ""); done. }
    exists rows. split; [done|]. split; [done|]. split; [|split].
    + intros r Hr. split; [|tauto]. intros Hin. split; [done|]. by split.
    + intros r c _ _ Hd. by eapply descendant_elem.
    + intros c Hc. destruct (Hforest c Hc) as [Hroot|(r & Hr & Hroot & Hd)]; eauto.
  - assert (Hactive : ~ (commit = "" /\ unresolved = false /\ creator = "" /\ file = "")).
    { intros (-> & -> & -> & ->). done. }
    destruct (negb (String.eqb commit "")
              && String.eqb (if negb (String.eqb commit "")
                             then commands.matchCommit commits commit else "") "") eqn:Hnone.
    + apply andb_true_iff in Hnone as [Hc Hm].
      destruct (String.eqb_spec commit "") as [|Hcne]; [done|]. simpl in Hm.
      apply String.eqb_eq in Hm.
      exists []. split; [done|]. split; [tauto|]. split; [|split].
      * intros r Hr. split; [intros Hin; by apply elem_of_nil in Hin|].
        intros [_ [Hsel _ _ _]]. specialize (Hsel Hcne).
        rewrite matchCommit_selected, Hsel in Hm. simpl in Hm.
        exfalso. exact (selected_commit_nonempty commits commit _ Hcne Hsel Hm).
      * intros r c Hin. by apply elem_of_nil in Hin.
      * intros c Hin. by apply elem_of_nil in Hin.
    + assert (Hmatch : commit ≠ "" -> commands.matchCommit commits commit ≠ "").
      { intros Hc Hm. destruct (String.eqb_spec commit ""); [done|].
        simpl in Hnone. rewrite Hm in Hnone. done. }
      set (sha := if negb (String.eqb commit "")
                  then commands.matchCommit commits commit else "") in *.
      set (ids := commands.collectRootIDs sha unresolved creator file rows).
      destruct (selectThreads_spec ids (commands.buildIDMap rows) rows)
        as (res & Hres & Hspec).
      { intros c Hc. destruct (forest_findRoot rows c Hnd Hforest Hc) as (r & -> & _).
        eauto. }
      assert (Hroot_in : forall r, r ∈ rows -> db.ParentID r = None ->
                (r ∈ res <-> db.ID r ∈ ids)).
      { intros r Hr Hroot. rewrite Hspec, (findRoot_root _ _ Hroot). split.
        - intros (_ & root & [= <-] & Hi). done.
        - intros Hi. eauto. }
      exists res. split; [done|]. split; [tauto|]. split; [|split].
      * intros r Hroot. split.
        -- intros Hin. assert (Hr : r ∈ rows) by (apply Hspec in Hin; tauto).
           split; [done|]. apply (rootPasses_satisfies _ _ _ _ _ _ Hmatch).
           apply (collectRootIDs_root _ _ _ _ rows r Hnd Hr Hroot).
           by apply Hroot_in.
        -- intros [Hr Hsat]. apply Hroot_in; [done..|].
           apply (collectRootIDs_root _ _ _ _ rows r Hnd Hr Hroot).
           by apply (rootPasses_satisfies _ _ _ _ _ _ Hmatch).
      * intros r c Hin Hroot Hd.
        assert (Hr : r ∈ rows) by (apply Hspec in Hin; tauto).
        apply Hspec. split; [by eapply descendant_elem|].
        exists r. split; [by apply findRoot_descendant|]. by apply Hroot_in.
      * intros c Hin. apply Hspec in Hin as (Hc & root & Hfind & Hi).
        destruct (forest_findRoot rows c Hnd Hforest Hc) as (r & Hfr & Hr & Hroot & Hcr).
        assert (root = r) as -> by congruence.
        exists r. split; [by apply Hroot_in|]. done.
Qed.

Lemma sample_rows_nodup : NoDup (db.ID <$> db.comments sample_store).
Proof. refine (bool_decide_unpack _ _). vm_compute. exact I. Qed.

Lemma sample_rows_forest : forest (db.comments sample_store).
Proof.
  assert (Hroot : mk_comment "01-root" None "aaa111" "root" "alice"
                  ∈ db.comments sample_store) by left.
  assert (H2 : descendant (db.comments sample_store) "01-root"
                 (mk_comment "02-reply" (Some "01-root") "aaa111" "reply 1" "bob")).
  { apply desc_child; [|done]. right; left. }
  intros c Hc. simpl in Hc.
  repeat (apply elem_of_cons in Hc as [->|Hc]); [by left| | | |by left|by apply elem_of_nil in Hc].
  - right. eexists. split; [exact Hroot|]. split; [done|]. exact H2.
  - right. eexists. split; [exact Hroot|]. split; [done|].
    apply desc_child; [|done]. do 2 right; left.
  - right. eexists. split; [exact Hroot|]. split; [done|].
    eapply desc_step; [exact H2| |done]. do 3 right; left.
Qed.

Lemma filter_selects_threads_of_passing_roots_witness :
  exists res,
    commands.filterComments (db.comments sample_store) (db.commits sample_store)
      (commands.buildIDMap (db.comments sample_store)) "" false "alice" "" = Some res /\
    mk_comment "03-reply" (Some "01-root") "aab222" "reply 2" "carol" ∈ res.
Proof.
  destruct (filter_selects_threads_of_passing_roots
              (db.comments sample_store) (db.commits sample_store)
              "" false "alice" "" sample_rows_nodup sample_rows_forest)
    as (res & Hres & _ & Hroot & Hdesc & _).
  exists res. split; [exact Hres|].
  apply (Hdesc (mk_comment "01-root" None "aaa111" "root" "alice")).
  - apply Hroot; [reflexivity|]. split; [left|].
    split; [intros Hne; by destruct Hne | discriminate | reflexivity
           | intros Hne; by destruct Hne].
  - reflexivity.
  - apply desc_child; [|reflexivity]. do 2 right; left.
Defined.

Lemma matchCommit_first pre cm post commit :
  (forall x, x ∈ pre -> strings_HasPrefix (db.Sha x) commit = false) ->
  strings_HasPrefix (db.Sha cm) commit = true ->
  commands.matchCommit (pre ++ cm :: post) commit = db.Sha cm.
Proof.
  intros Hpre Hcm. induction pre as [|x pre IH]; simpl.
  - by rewrite Hcm.
  - rewrite (Hpre x) by left. apply IH. intros y Hy. apply Hpre. by right.
Qed.

Lemma matchCommit_none commits commit :
  (forall x, x ∈ commits -> strings_HasPrefix (db.Sha x) commit = false) ->
  commands.matchCommit commits commit = "".
Proof.
  intros Hall. induction commits as [|x commits IH]; simpl; [done|].
  rewrite (Hall x) by left. apply IH. intros y Hy. apply Hall. by right.
Qed.

(** C10. The commit filter of [list] takes the first commit of the list
    whose SHA has the prefix: the commits before it do not have the prefix,
    the commits after it are not looked at, even when they have it too, and
    no ambiguity is reported. When no commit has the prefix the result is
    empty, and no error is raised. In the sample table the prefix [aa] is
    that of two commits, and the threads of the first one are returned. *)
Theorem commit_filter_takes_first_match :
  (forall rows pre cm post idMap commit unresolved creator file,
      commit ≠ "" ->
      (forall x, x ∈ pre -> strings_HasPrefix (db.Sha x) commit = false) ->
      strings_HasPrefix (db.Sha cm) commit = true ->
      commands.filterComments rows (pre ++ cm :: post) idMap
                              commit unresolved creator file
      = commands.filterComments rows [cm] idMap commit unresolved creator file) /\
  (forall rows commits idMap commit unresolved creator file,
      commit ≠ "" ->
      (forall x, x ∈ commits -> strings_HasPrefix (db.Sha x) commit = false) ->
      commands.filterComments rows commits idMap commit unresolved creator file
      = Some []) /\
  commands.filterComments (db.comments sample_store) (db.commits sample_store)
    (commands.buildIDMap (db.comments sample_store)) "aa" false "" ""
  = Some [mk_comment "01-root" None "aaa111" "root" "alice";
          mk_comment "02-reply" (Some "01-root") "aaa111" "reply 1" "bob";
          mk_comment "03-reply" (Some "01-root") "aab222" "reply 2" "carol";
          mk_comment "04-grand" (Some "02-reply") "aaa111" "grandchild" "bob"].
Proof.
  split; [|split].
  - intros rows pre cm post idMap commit u cr f Hc Hpre Hcm.
    unfold commands.filterComments.
    rewrite (matchCommit_first pre cm post commit Hpre Hcm).
    simpl commands.matchCommit. rewrite Hcm. done.
  - intros rows commits idMap commit u cr f Hc Hall.
    unfold commands.filterComments. rewrite (matchCommit_none _ _ Hall).
    destruct (String.eqb_spec commit ""); [done|]. done.
  - vm_compute. reflexivity.
Qed.

Lemma commit_filter_takes_first_match_witness :
  commands.filterComments (db.comments sample_store) (db.commits sample_store)
    (commands.buildIDMap (db.comments sample_store)) "aa" true "bob" "x.go"
  = commands.filterComments (db.comments sample_store)
      [{| db.Sha := "aaa111"; db.Message := "one"; db.Position := 0 |}]
      (commands.buildIDMap (db.comments sample_store)) "aa" true "bob" "x.go" /\
  commands.filterComments (db.comments sample_store) (db.commits sample_store)
    (commands.buildIDMap (db.comments sample_store)) "zzz" false "" "" = Some [].
Proof.
  split.
  - apply (proj1 commit_filter_takes_first_match (db.comments sample_store) []
             {| db.Sha := "aaa111"; db.Message := "one"; db.Position := 0 |}
             [{| db.Sha := "aab222"; db.Message := "two"; db.Position := 1 |};
              {| db.Sha := "ccc333"; db.Message := "three"; db.Position := 2 |}]).
    + discriminate.
    + intros x Hx. by apply elem_of_nil in Hx.
    + reflexivity.
  - apply (proj1 (proj2 commit_filter_takes_first_match)).
    + discriminate.
    + intros x Hx. simpl in Hx.
      repeat (apply elem_of_cons in Hx as [->|Hx]); try reflexivity.
      by apply elem_of_nil in Hx.
Defined.

Section Preserves.
Context (R : relation Env) `{!Reflexive R} `{!Transitive R}.

Lemma keeps_ret {A} (a : A) : preserves R (ret a).
Proof. intros env r env' [= <- <-]. done. Qed.

Lemma keeps_fail {A} e : preserves R (@fail A e).
Proof. intros env r env' [= <- <-]. done. Qed.

Lemma keeps_bind {A B} (m : M A) (k : A -> M B) :
  preserves R m -> (forall a, preserves R (k a)) -> preserves R (bind m k).
Proof.
  intros Hm Hk env r env'. unfold bind.
  destruct (m env) as [[e|a] env1] eqn:Hrun.
  - intros [= <- <-]. by eapply Hm.
  - intros Hrun'. etransitivity; [by eapply Hm | by eapply Hk].
Qed.

Lemma keeps_wrap {A} msg (m : M A) : preserves R m -> preserves R (wrap msg m).
Proof.
  intros Hm env r env'. unfold wrap.
  destruct (m env) as [[e|a] env1] eqn:Hrun; intros [= <- <-]; by eapply Hm.
Qed.

Lemma keeps_or_fail {A} e (m : M A) : preserves R m -> preserves R (or_fail e m).
Proof.
  intros Hm env r env'. unfold or_fail.
  destruct (m env) as [[e'|a] env1] eqn:Hrun; intros [= <- <-]; by eapply Hm.
Qed.

Lemma keeps_or_default {A} d (m : M A) : preserves R m -> preserves R (or_default d m).
Proof.
  intros Hm env r env'. unfold or_default.
  destruct (m env) as [[e'|a] env1] eqn:Hrun; intros [= <- <-]; by eapply Hm.
Qed.

Lemma keeps_attempt {A} (m : M A) : preserves R m -> preserves R (attempt m).
Proof.
  intros Hm env r env'. unfold attempt.
  destruct (m env) as [r1 env1] eqn:Hrun; intros [= <- <-]; by eapply Hm.
Qed.

Lemma keeps_queryM {A} (q : db.Store -> Result A) : preserves R (queryM q).
Proof. intros env r env' [= <- <-]. done. Qed.

Lemma keeps_index {A} (xs : list A) i : preserves R (index xs i).
Proof.
  unfold index. destruct (i <? 0); [apply keeps_fail|].
  destruct (xs !! Z.to_nat i); [apply keeps_ret | apply keeps_fail].
Qed.

Lemma keeps_forM {A} (xs : list A) (body : A -> M unit) :
  (forall x, preserves R (body x)) -> preserves R (forM xs body).
Proof.
  intros Hb. induction xs as [|x xs IH]; simpl; [apply keeps_ret|].
  apply keeps_bind; auto.
Qed.

Lemma keeps_forM_from {A} (xs : list A) (body : Z -> A -> M unit) i :
  (forall j x, preserves R (body j x)) -> preserves R (forM_from i xs body).
Proof.
  intros Hb. revert i. induction xs as [|x xs IH]; intros i; simpl; [apply keeps_ret|].
  apply keeps_bind; auto.
Qed.

Lemma keeps_if {A} (b : bool) (m1 m2 : M A) :
  preserves R m1 -> preserves R m2 -> preserves R (if b then m1 else m2).
Proof. by destruct b. Qed.
End Preserves.

Section PreservesBase.
Context {F : db.Faults} {E : git.Executor}.

Lemma store_emit ev : keeps_store (emit ev).
Proof. intros env r env' [= <- <-]. done. Qed.

Lemma store_Run g args : keeps_store (git.Run g args).
Proof.
  intros env r env'. unfold git.Run.
  destruct (git.git_exec _ _); intros [= <- <-]; done.
Qed.

Lemma store_RunSilent g args : keeps_store (git.RunSilent g args).
Proof.
  intros env r env'. unfold git.RunSilent.
  destruct (git.git_exec _ _); intros [= <- <-]; done.
Qed.

Lemma trace_emit ev : extends_trace (emit ev).
Proof. intros env r env' [= <- <-]. unfold trace_grows. done. Qed.

Lemma trace_execM q : extends_trace (execM q).
Proof.
  intros env r env'. unfold execM, trace_grows.
  destruct (q (store env)); intros [= <- <-]; done.
Qed.

Lemma trace_Run g args : extends_trace (git.Run g args).
Proof.
  intros env r env'. unfold git.Run, trace_grows.
  destruct (git.git_exec _ _); intros [= <- <-]; by apply prefix_app_r.
Qed.

Lemma trace_RunSilent g args : extends_trace (git.RunSilent g args).
Proof.
  intros env r env'. unfold git.RunSilent, trace_grows.
  destruct (git.git_exec _ _); intros [= <- <-]; by apply prefix_app_r.
Qed.

Lemma trace_WithTx (fn : M unit) : extends_trace fn -> extends_trace (WithTx fn).
Proof.
  intros Hfn env r env'. unfold WithTx.
  destruct (db.io_fault db.SBegin _); [intros [= <- <-]; reflexivity|].
  destruct (fn env) as [[e|[]] env1] eqn:Hrun;
    [intros [= <- <-]; by apply Hfn in Hrun|].
  destruct (db.io_fault db.SCommit _); intros [= <- <-]; by apply Hfn in Hrun.
Qed.
End PreservesBase.

Ltac keeps :=
  repeat first
    [ apply keeps_ret; apply _ | apply keeps_fail; apply _
    | apply keeps_queryM; apply _ | apply keeps_index; apply _
    | apply store_emit | apply store_Run | apply store_RunSilent
    | apply trace_emit | apply trace_execM | apply trace_Run | apply trace_RunSilent
    | apply trace_WithTx
    | apply keeps_wrap | apply keeps_or_fail | apply keeps_or_default
    | apply keeps_attempt
    | apply keeps_forM; [apply _ .. | intros]
    | apply keeps_forM_from; [apply _ .. | intros]
    | apply keeps_bind; [apply _ | | intros]
    | apply keeps_if
    | progress unfold git.Checkout, git.CheckoutForce, git.ReadTreeReset, git.Oneline,
        git.DiffStagedStat, git.Subject, git.CurrentBranch, git.MergeBase,
        git.WorktreeAdd, git.RefExists, git.RevList
    | match goal with |- preserves _ (match ?x with _ => _ end) => destruct x end ].

Section Navigation.
Import db commands.
Context {F : Faults} {E : git.Executor}.

Lemma keeps_requireActive : keeps_store requireActive.
Proof. unfold requireActive. keeps. Qed.

(** [jumpTo] either fails and leaves the store as it was, or has made the
    two git steps with success and then written the cursor. *)
Lemma jumpTo_cases g name target env r env' :
  jumpTo g name target env = (r, env') ->
  (is_ok r = false /\ store env' = store env) \/
  (r = inr tt /\
   exists parentRef,
     transitioned (trace env) g parentRef (Sha target) /\
     trace env' = trace env ++ [checkout_step g parentRef; overlay_step g (Sha target)] /\
     UpdateReviewerCurrent (Some (Sha target)) name (store env) = inr (store env')).
Proof.
  unfold jumpTo. unfold bind at 1.
  set (parent := if Position target =? 0 then _ else _).
  assert (Hparent : forall r1 env1, parent env = (r1, env1) -> env1 = env).
  { unfold parent. intros r1 env1. destruct (Position target =? 0); unfold_monad.
    - destruct (GetSession (store env)); congruence.
    - destruct (GetCommitByPosition _ (store env)); congruence. }
  destruct (parent env) as [[e|parentRef] env1] eqn:Hp;
    pose proof (Hparent _ _ eq_refl) as Heq; subst env1; clear Hparent.
  { intros [= <- <-]. by left. }
  unfold bind at 1. unfold wrap at 1, git.Checkout, git.RunSilent.
  fold (checkout_step g parentRef).
  destruct (git.git_exec (trace env) (checkout_step g parentRef)) as [o1|] eqn:Hck;
    cbv beta iota zeta; [|intros [= <- <-]; by left].
  unfold bind at 1. unfold wrap at 1, git.ReadTreeReset, git.RunSilent.
  fold (overlay_step g (Sha target)). simpl trace.
  destruct (git.git_exec _ (overlay_step g (Sha target))) as [o2|] eqn:Hrt;
    cbv beta iota zeta; [|intros [= <- <-]; by left].
  unfold wrap, execM. simpl store.
  destruct (UpdateReviewerCurrent (Some (Sha target)) name (store env)) as [e|st] eqn:Hup;
    cbv beta iota zeta.
  { intros [= <- <-]. by left. }
  intros [= <- <-]. right. split; [done|]. exists parentRef.
  split; [split; eauto|]. split; [|done]. simpl. by rewrite <- app_assoc.
Qed.
End Navigation.

Section NavigationCommands.
Import db commands.
Context {F : Faults} {E : git.Executor}.

(** What the report after a navigation does: two git queries whose
    failure is ignored, and some printing. *)
Lemma report_after_jump g sha (k : string -> string -> M unit) env :
  (forall a b env0, exists out, k a b env0 = (inr tt, with_output out env0)) ->
  exists out,
    (let* oneline := or_default "" (git.Oneline g sha) in
     let* stat := or_default "" (git.DiffStagedStat g) in
     k oneline stat) env
    = (inr tt, with_output out
                 (with_trace (trace env ++ [oneline_step g sha; stat_step g]) env)).
Proof.
  intros Hk. unfold bind, or_default, git.Oneline, git.DiffStagedStat, git.Run.
  fold (oneline_step g sha). fold (stat_step g).
  destruct (git.git_exec (trace env) (oneline_step g sha)) as [o|]; simpl;
    destruct (git.git_exec _ (stat_step g)) as [s|]; simpl;
    match goal with |- context [k ?a ?b ?e] => destruct (Hk a b e) as [out ->] end;
    exists out; unfold with_output, with_trace; simpl; by rewrite <- app_assoc.
Qed.

Lemma print_position_total a b c (x y : string) env0 :
  exists out,
    (emit (Printf "\n" []) ;;
     emit (Printf "  %s [%d/%d] %s\n" [ABold a; AInt b; AInt c; AStr x]) ;;
     if String.eqb y "" then ret tt else emit (Printf "\n%s\n" [AStr y])) env0
    = (inr tt, with_output out env0).
Proof.
  unfold bind, emit, ret. destruct (String.eqb y ""); simpl; eexists; reflexivity.
Qed.

(** [next] fails and leaves the store as it was, or reports completion
    and moves nothing, or has transitioned the working copy to its target
    and then written the cursor. *)
Lemma NextCmd_Run_cases g env r env' :
  NextCmd_Run g env = (r, env') ->
  (is_ok r = false /\ store env' = store env) \/
  (r = inr tt /\ store env' = store env /\ trace env' = trace env /\
   Ok "All commits reviewed." [] ∈ output env') \/
  (r = inr tt /\
   exists target parentRef,
     transitioned (trace env) g parentRef (Sha target) /\
     UpdateReviewerCurrent (Some (Sha target)) (git.Reviewer g) (store env)
     = inr (store env') /\
     trace env' = trace env ++ [checkout_step g parentRef; overlay_step g (Sha target);
                                oneline_step g (Sha target); stat_step g]).
Proof.
  unfold NextCmd_Run. unfold bind at 1.
  destruct (requireActive env) as [[e|[]] env0] eqn:Hreq;
    apply requireActive_store in Hreq as ->.
  { intros [= <- <-]. by left. }
  unfold bind at 1. unfold wrap at 1, queryM at 1.
  destruct (GetReviewer (git.Reviewer g) (store env)) as [e|reviewer].
  { intros [= <- <-]. by left. }
  unfold bind at 1. unfold wrap at 1, queryM at 1.
  destruct (ListCommits (store env)) as [e|commits].
  { intros [= <- <-]. by left. }
  unfold bind at 1.
  set (next := match CurrentSha reviewer with Some _ => _ | None => _ end).
  assert (Hnext : (exists e, next env = (inl e, env)) \/ (exists i, next env = (inr i, env))).
  { unfold next. destruct (CurrentSha reviewer) as [sha|]; [|right; by eexists].
    destruct (findCommitPosition commits sha <? 0); [left | right]; by eexists. }
  destruct Hnext as [[e ->]|[nextIdx ->]].
  { intros [= <- <-]. by left. }
  destruct (Z.of_nat (length commits) <=? nextIdx).
  - unfold bind, emit. simpl. intros [= <- <-]. right; left.
    repeat split; try done. simpl. rewrite !elem_of_app, !elem_of_cons. tauto.
  - unfold bind at 1.
    destruct (index commits nextIdx env) as [[e|target] env0] eqn:Hidx.
    { apply (keeps_index same_store) in Hidx. intros [= <- <-]. by left. }
    assert (env0 = env) as ->.
    { unfold index in Hidx. destruct (nextIdx <? 0); [by injection Hidx|].
      destruct (commits !! Z.to_nat nextIdx); by injection Hidx. }
    unfold bind at 1.
    destruct (jumpTo g (git.Reviewer g) target env) as [[e|[]] env1] eqn:Hjump.
    { apply jumpTo_cases in Hjump as [[_ Hst]|[? _]]; [|done].
      intros [= <- <-]. by left. }
    apply jumpTo_cases in Hjump as [[? _]|[_ (parentRef & Htr & Htrace & Hup)]]; [done|].
    destruct (report_after_jump g (Sha target)
                (fun oneline stat =>
                   emit (Printf "\n" []) ;;
                   emit (Printf "  %s [%d/%d] %s\n"
                                [ABold "â†’"; AInt (wrap64 (nextIdx + 1));
                                 AInt (Z.of_nat (length commits)); AStr oneline]) ;;
                   if String.eqb stat "" then ret tt
                   else emit (Printf "\n%s\n" [AStr stat])) env1) as [out ->].
    { intros a b env0. apply print_position_total. }
    intros [= <- <-]. right; right. split; [done|].
    exists target, parentRef. split; [done|]. split; [done|].
    simpl. rewrite Htrace, <- app_assoc. done.
Qed.

(** [jump] always has a target; it can still fail after the cursor was
    written, when the commits cannot be listed for the report. *)
Lemma JumpCmd_Run_cases g hash env r env' :
  JumpCmd_Run g hash env = (r, env') ->
  (is_ok r = false /\ store env' = store env) \/
  (exists target parentRef rest,
     transitioned (trace env) g parentRef (Sha target) /\
     UpdateReviewerCurrent (Some (Sha target)) (git.Reviewer g) (store env)
     = inr (store env') /\
     trace env' = trace env ++ [checkout_step g parentRef; overlay_step g (Sha target)]
                            ++ rest /\
     (rest = [] \/ rest = [oneline_step g (Sha target); stat_step g])).
Proof.
  unfold JumpCmd_Run. unfold bind at 1.
  destruct (requireActive env) as [[e|[]] env0] eqn:Hreq;
    apply requireActive_store in Hreq as ->.
  { intros [= <- <-]. by left. }
  unfold bind at 1. unfold or_fail at 1, queryM at 1.
  destruct (FindCommitBySHAPrefix (Some hash) (store env)) as [e|target].
  { intros [= <- <-]. by left. }
  unfold bind at 1.
  destruct (jumpTo g (git.Reviewer g) target env) as [[e|[]] env1] eqn:Hjump.
  { apply jumpTo_cases in Hjump as [[_ Hst]|[? _]]; [|done].
    intros [= <- <-]. by left. }
  apply jumpTo_cases in Hjump as [[? _]|[_ (parentRef & Htr & Htrace & Hup)]]; [done|].
  unfold bind at 1. unfold wrap at 1, queryM at 1.
  destruct (ListCommits (store env1)) as [e|commits].
  { intros [= <- <-]. right. exists target, parentRef, [].
    rewrite app_nil_r. auto. }
  destruct (report_after_jump g (Sha target)
              (fun oneline stat =>
                 emit (Printf "\n" []) ;;
                 emit (Printf "  %s [%d/%d] %s\n"
                              [ABold "→"; AInt (wrap64 (Position target + 1));
                               AInt (Z.of_nat (length commits)); AStr oneline]) ;;
                 if String.eqb stat "" then ret tt
                 else emit (Printf "\n%s\n" [AStr stat])) env1) as [out ->].
  { intros a b env0. apply print_position_total. }
  intros [= <- <-]. right.
  exists target, parentRef, [oneline_step g (Sha target); stat_step g].
  split; [done|]. split; [done|]. split; [|by right].
  simpl. rewrite Htrace, <- app_assoc. done.
Qed.
End NavigationCommands.

Section CursorLemmas.
Import db commands.
Context {F : Faults} {E : git.Executor}.

Lemma UpdateReviewerCurrent_cursor sha name st st' :
  UpdateReviewerCurrent (Some sha) name st = inr st' -> cursor_at st' name sha.
Proof.
  unfold UpdateReviewerCurrent, query. destruct (io_fault _ _); [done|].
  destruct (_ && _); [done|]. intros [= <-] rv Hrv Hname. simpl in Hrv.
  apply list_elem_of_fmap in Hrv as (x & -> & Hx). unfold set_current in *.
  case_bool_decide; [done|]. done.
Qed.

Lemma no_failed_step_after_transition history g parentRef sha rest after :
  transitioned history g parentRef sha ->
  after = history ++ [checkout_step g parentRef; overlay_step g sha] ++ rest ->
  (rest = [] \/ rest = [oneline_step g sha; stat_step g]) ->
  ~ vcs_step_failed history after.
Proof.
  intros [[o1 Hck] [o2 Hov]] -> Hrest (pre & inv & post & Heq & Hvcs & Hfail).
  apply app_inv_head in Heq.
  destruct pre as [|a pre]; simpl in Heq.
  { injection Heq as <- _. rewrite app_nil_r in Hfail. congruence. }
  injection Heq as <- Heq.
  destruct pre as [|b pre]; simpl in Heq.
  { injection Heq as <- _. congruence. }
  injection Heq as <- Heq.
  destruct Hrest as [->| ->]; [by destruct pre|].
  destruct pre as [|c pre]; simpl in Heq; [injection Heq as <- _; done|].
  injection Heq as <- Heq.
  destruct pre as [|d pre]; simpl in Heq; [injection Heq as <- _; done|].
  injection Heq as <- Heq. by destruct pre.
Qed.

Lemma no_failed_step_without_step history : ~ vcs_step_failed history history.
Proof.
  intros (pre & inv & post & Heq & _).
  apply (f_equal length) in Heq. rewrite !length_app in Heq. simpl in Heq. lia.
Qed.
End CursorLemmas.

(** C3. A navigation ([next], [jump], and [jumpTo] under them) writes the
    reviewer's cursor only after both version-control steps have succeeded:
    when the store has changed, the parent point was checked out and the
    tree of the target was laid over the index, in this order and both with
    success, and the store is the old one with the cursor at the target.
    When one of the two steps fails, the navigation returns an error and
    the store, the cursor with it, is unchanged. *)
Theorem cursor_written_after_both_steps (F : db.Faults) (E : git.Executor) (g : git.Git) :
  (forall name target env r env',
      commands.jumpTo g name target env = (r, env') ->
      (store env' ≠ store env ->
       exists parentRef,
         transitioned (trace env) g parentRef (db.Sha target) /\
         db.UpdateReviewerCurrent (Some (db.Sha target)) name (store env)
         = inr (store env') /\
         cursor_at (store env') name (db.Sha target)) /\
      (vcs_step_failed (trace env) (trace env') ->
       is_ok r = false /\ store env' = store env)) /\
  (forall env r env',
      commands.NextCmd_Run g env = (r, env') ->
      (store env' ≠ store env ->
       exists target parentRef,
         transitioned (trace env) g parentRef (db.Sha target) /\
         db.UpdateReviewerCurrent (Some (db.Sha target)) (git.Reviewer g) (store env)
         = inr (store env') /\
         cursor_at (store env') (git.Reviewer g) (db.Sha target)) /\
      (vcs_step_failed (trace env) (trace env') ->
       is_ok r = false /\ store env' = store env)) /\
  (forall hash env r env',
      commands.JumpCmd_Run g hash env = (r, env') ->
      (store env' ≠ store env ->
       exists target parentRef,
         transitioned (trace env) g parentRef (db.Sha target) /\
         db.UpdateReviewerCurrent (Some (db.Sha target)) (git.Reviewer g) (store env)
         = inr (store env') /\
         cursor_at (store env') (git.Reviewer g) (db.Sha target)) /\
      (vcs_step_failed (trace env) (trace env') ->
       is_ok r = false /\ store env' = store env)).
Proof.
  split; [|split].
  - intros name target env r env' Hrun.
    apply jumpTo_cases in Hrun as [[Hr Hst]|[-> (parentRef & Htr & Htrace & Hup)]].
    + split; [done|]. auto.
    + split.
      * intros _. exists parentRef. eauto using UpdateReviewerCurrent_cursor.
      * intros Hfail. exfalso.
        eapply (no_failed_step_after_transition _ _ _ _ []); eauto.
  - intros env r env' Hrun.
    apply NextCmd_Run_cases in Hrun
      as [[Hr Hst]|[(-> & Hst & Htrace & _)|[-> (target & parentRef & Htr & Hup & Htrace)]]].
    + split; [done|]. auto.
    + split; [done|]. rewrite Htrace. intros Hfail.
      by apply no_failed_step_without_step in Hfail.
    + split.
      * intros _. exists target, parentRef. eauto using UpdateReviewerCurrent_cursor.
      * intros Hfail. exfalso.
        by eapply (no_failed_step_after_transition
                     _ _ _ _ [oneline_step g (db.Sha target); stat_step g] _ Htr);
          [exact Htrace | right | exact Hfail].
  - intros hash env r env' Hrun.
    apply JumpCmd_Run_cases in Hrun
      as [[Hr Hst]|(target & parentRef & rest & Htr & Hup & Htrace & Hrest)].
    + split; [done|]. auto.
    + split.
      * intros _. exists target, parentRef. eauto using UpdateReviewerCurrent_cursor.
      * intros Hfail. exfalso.
        exact (no_failed_step_after_transition _ _ _ _ rest _ Htr Htrace Hrest Hfail).
Qed.

(** C5. Resolving a comment with a parent always fails; resolving a root
    that is resolved already always fails; unresolving a root that is not
    resolved always fails, with an ordinary error and nothing changed; a
    successful unresolve sets resolved-at and resolved-by back to null.
    In an active session the errors are the ones named here. And
    unresolving a resolved root, in an active session and with a store
    that takes the update, succeeds: the row of the root is still there,
    with resolved-at and resolved-by null, and no other row has changed. *)
Theorem resolve_needs_open_root (F : db.Faults) (g : git.Git) :
  (forall c now env comment,
      db.FindCommentByPrefix (Some (commands.ResolveID c)) (store env) = inr comment ->
      db.ParentID comment ≠ None ->
      exists e, commands.ResolveCmd_Run g c now env = (inl e, env) /\
                (commands.requireActive env = (inr tt, env) ->
                 e = ENew "only root comments can be resolved")) /\
  (forall c now env comment,
      db.FindCommentByPrefix (Some (commands.ResolveID c)) (store env) = inr comment ->
      db.ParentID comment = None ->
      db.ResolvedAt comment ≠ None ->
      exists e, commands.ResolveCmd_Run g c now env = (inl e, env) /\
                (commands.requireActive env = (inr tt, env) ->
                 e = ENew "thread is already resolved")) /\
  (forall id env comment,
      db.FindCommentByPrefix (Some id) (store env) = inr comment ->
      db.ParentID comment = None ->
      db.ResolvedAt comment = None ->
      exists e, commands.UnresolveCmd_Run g id env = (inl e, env) /\
                (commands.requireActive env = (inr tt, env) ->
                 e = ENew "thread is not resolved")) /\
  (forall id env env',
      commands.UnresolveCmd_Run g id env = (inr tt, env') ->
      exists comment,
        db.FindCommentByPrefix (Some id) (store env) = inr comment /\
        db.ParentID comment = None /\
        db.comments (store env')
        = reopened (db.ID comment) <$> db.comments (store env) /\
        forall c', c' ∈ db.comments (store env') -> db.ID c' = db.ID comment ->
                   db.ResolvedAt c' = None /\ db.ResolvedBy c' = None) /\
  (forall id env comment,
      commands.requireActive env = (inr tt, env) ->
      db.io_fault db.SUnresolveComment (store env) = false ->
      db.FindCommentByPrefix (Some id) (store env) = inr comment ->
      db.ParentID comment = None ->
      db.ResolvedAt comment ≠ None ->
      exists env',
        commands.UnresolveCmd_Run g id env = (inr tt, env') /\
        db.comments (store env')
        = reopened (db.ID comment) <$> db.comments (store env) /\
        (exists c', c' ∈ db.comments (store env') /\ db.ID c' = db.ID comment) /\
        (forall c', c' ∈ db.comments (store env') -> db.ID c' = db.ID comment ->
                    db.ResolvedAt c' = None /\ db.ResolvedBy c' = None) /\
        (forall c', c' ∈ db.comments (store env) -> db.ID c' ≠ db.ID comment ->
                    c' ∈ db.comments (store env'))).
Proof.
  split; [|split; [|split; [|split]]].
  - intros c now env comment Hfind Hp. unfold commands.ResolveCmd_Run. unfold bind at 1.
    destruct (commands.requireActive env) as [[e|[]] env0] eqn:Hreq;
      apply requireActive_store in Hreq as ->.
    { eexists. split; [done|]. congruence. }
    unfold bind, or_fail, queryM. rewrite Hfind.
    rewrite bool_decide_eq_true_2 by (by destruct (db.ParentID comment); eauto).
    eexists. split; done.
  - intros c now env comment Hfind Hp Hres. unfold commands.ResolveCmd_Run. unfold bind at 1.
    destruct (commands.requireActive env) as [[e|[]] env0] eqn:Hreq;
      apply requireActive_store in Hreq as ->.
    { eexists. split; [done|]. congruence. }
    unfold bind, or_fail, queryM. rewrite Hfind, Hp.
    rewrite bool_decide_eq_false_2 by (by intros [? ?]).
    rewrite bool_decide_eq_true_2 by (by destruct (db.ResolvedAt comment); eauto).
    eexists. split; done.
  - intros id env comment Hfind Hp Hres. unfold commands.UnresolveCmd_Run. unfold bind at 1.
    destruct (commands.requireActive env) as [[e|[]] env0] eqn:Hreq;
      apply requireActive_store in Hreq as ->.
    { eexists. split; [done|]. congruence. }
    unfold bind, or_fail, queryM. rewrite Hfind, Hp, Hres.
    rewrite !bool_decide_eq_false_2 by (by intros [? ?]). simpl.
    eexists. split; done.
  - intros id env env'. unfold commands.UnresolveCmd_Run. unfold bind at 1.
    destruct (commands.requireActive env) as [[e|[]] env0] eqn:Hreq;
      apply requireActive_store in Hreq as ->; [done|].
    unfold bind at 1. unfold or_fail, queryM.
    destruct (db.FindCommentByPrefix (Some id) (store env)) as [e|comment] eqn:Hfind;
      [done|].
    case_bool_decide as Hp; [done|].
    case_bool_decide as Hres; simpl; [|done].
    unfold bind, wrap, execM, emit, db.UnresolveComment, db.query.
    destruct (db.io_fault _ _); [done|]. simpl. intros [= <-]. simpl.
    assert (Hrows : (λ c, if bool_decide (db.ID c = db.ID comment)
                          then db.set_resolution None None c else c)
                      <$> db.comments (store env)
                    = reopened (db.ID comment) <$> db.comments (store env)).
    { apply list_fmap_ext. intros _ c _. unfold reopened.
      case_bool_decide; [by rewrite decide_True | by rewrite decide_False]. }
    exists comment. split; [done|].
    split; [by destruct (db.ParentID comment); [destruct Hp; eauto|]|].
    rewrite Hrows. split; [done|].
    intros c' Hc' Hid. apply list_elem_of_fmap in Hc' as (x & -> & Hx).
    unfold reopened in *. destruct (decide (db.ID x = db.ID comment)); [done|done].
  - intros id env comment Hreq Hio Hfind Hp Hres.
    unfold commands.UnresolveCmd_Run. unfold bind at 1. rewrite Hreq.
    unfold bind at 1. unfold or_fail, queryM. rewrite Hfind, Hp.
    rewrite bool_decide_eq_false_2 by (by intros [? ?]).
    rewrite bool_decide_eq_true_2 by (by destruct (db.ResolvedAt comment); eauto).
    change (negb true) with false. cbv iota.
    unfold bind, wrap, execM, emit, db.UnresolveComment, db.query. rewrite Hio.
    eexists. split; [reflexivity|]. simpl.
    assert (Hrows : (λ c, if bool_decide (db.ID c = db.ID comment)
                          then db.set_resolution None None c else c)
                      <$> db.comments (store env)
                    = reopened (db.ID comment) <$> db.comments (store env)).
    { apply list_fmap_ext. intros _ c _. unfold reopened.
      case_bool_decide; [by rewrite decide_True | by rewrite decide_False]. }
    rewrite Hrows. split; [done|].
    apply FindCommentByPrefix_elem in Hfind.
    split; [|split].
    + exists (reopened (db.ID comment) comment). split.
      * apply list_elem_of_fmap. eauto.
      * unfold reopened. by destruct (decide _).
    + intros c' Hc' Hid. apply list_elem_of_fmap in Hc' as (x & -> & Hx).
      unfold reopened in *. destruct (decide (db.ID x = db.ID comment)); [done|done].
    + intros c' Hc' Hid. apply list_elem_of_fmap. exists c'. split; [|done].
      unfold reopened. by rewrite decide_False.
Qed.

(** C6. A reply whose parent id or prefix matches no comment fails with
    "comment not found". A reply that succeeds has added one comment, whose
    commit, file, start line and end line are those of the parent found,
    and the reviewers table, the cursor of the replying reviewer in it, has
    no part in it: with any other reviewers table the same comment is
    added. And a reply to a parent that is found does succeed, in an active
    session, with an identifier that is new, the commit of the parent in
    the commit table and a store that takes the insertion: the table is
    then the old one followed by the reply, which carries the key of the
    parent and the parent's commit, file, start line and end line. *)
Theorem reply_inherits_from_parent
        (F : db.Faults) (g : git.Git) (c : commands.AddCmd) (now newID : string) :
  commands.AddReplyTo c ≠ "" ->
  (forall env,
      (forall x, x ∈ db.comments (store env) ->
                 db.like_prefix (commands.AddReplyTo c) (db.ID x) = false) ->
      commands.requireActive env = (inr tt, env) ->
      commands.AddCmd_Run g c now newID env = (inl (ENew "comment not found"), env)) /\
  (forall env env',
      commands.AddCmd_Run g c now newID env = (inr tt, env') ->
      exists parent,
        db.FindCommentByPrefix (Some (commands.AddReplyTo c)) (store env) = inr parent /\
        db.comments (store env')
        = db.comments (store env)
          ++ [{| db.ID := newID; db.ParentID := Some (db.ID parent);
                 db.CommitSHA := db.CommitSHA parent; db.File := db.File parent;
                 db.StartLine := db.StartLine parent; db.EndLine := db.EndLine parent;
                 db.Body := commands.AddMessage c;
                 db.ResolvedAt := None; db.ResolvedBy := None;
                 db.CreatedAt := now;
                 db.CreatedBy := if String.eqb (commands.AddAuthor c) ""
                                 then git.Reviewer g else commands.AddAuthor c |}]) /\
  (forall env rv,
      no_faults ->
      db.comments (store (commands.AddCmd_Run g c now newID
                            (with_store (db.with_reviewers rv (store env)) env)).2)
      = db.comments (store (commands.AddCmd_Run g c now newID env).2)) /\
  (forall env parent,
      commands.requireActive env = (inr tt, env) ->
      db.io_fault db.SInsertComment (store env) = false ->
      db.FindCommentByPrefix (Some (commands.AddReplyTo c)) (store env) = inr parent ->
      newID ∉ db.ID <$> db.comments (store env) ->
      db.CommitSHA parent ∈ db.Sha <$> db.commits (store env) ->
      exists env',
        commands.AddCmd_Run g c now newID env = (inr tt, env') /\
        db.comments (store env')
        = db.comments (store env)
          ++ [{| db.ID := newID; db.ParentID := Some (db.ID parent);
                 db.CommitSHA := db.CommitSHA parent; db.File := db.File parent;
                 db.StartLine := db.StartLine parent; db.EndLine := db.EndLine parent;
                 db.Body := commands.AddMessage c;
                 db.ResolvedAt := None; db.ResolvedBy := None;
                 db.CreatedAt := now;
                 db.CreatedBy := if String.eqb (commands.AddAuthor c) ""
                                 then git.Reviewer g else commands.AddAuthor c |}] /\
        db.session (store env') = db.session (store env) /\
        db.commits (store env') = db.commits (store env) /\
        db.reviewers (store env') = db.reviewers (store env)).
Proof.
  intros Hreply.
  assert (Hmode : negb (String.eqb (commands.AddReplyTo c) "") = true).
  { by destruct (String.eqb_spec (commands.AddReplyTo c) ""). }
  split; [|split; [|split]].
  - intros env Hnone Hreq. unfold commands.AddCmd_Run. unfold bind at 1. rewrite Hreq.
    rewrite Hmode. unfold bind, or_fail, queryM.
    assert (Hfind : exists e, db.FindCommentByPrefix (Some (commands.AddReplyTo c))
                                (store env) = inl e).
    { unfold db.FindCommentByPrefix, db.query. destruct (db.io_fault _ _); [eauto|].
      destruct (filter _ _) as [|x l] eqn:Hf; [simpl; eauto|].
      assert (Hx : x ∈ filter (λ c0, db.like_prefix (commands.AddReplyTo c) (db.ID c0) = true)
                            (db.comments (store env))) by (rewrite Hf; left).
      apply list_elem_of_filter in Hx as [Hx Hin]. rewrite Hnone in Hx; done. }
    destruct Hfind as [e ->]. done.
  - intros env env'. unfold commands.AddCmd_Run. unfold bind at 1.
    destruct (commands.requireActive env) as [[e|[]] env0] eqn:Hreq;
      apply requireActive_store in Hreq as ->; [done|].
    rewrite Hmode. unfold bind at 1. unfold bind at 1. unfold or_fail, queryM.
    destruct (db.FindCommentByPrefix _ (store env)) as [e|parent] eqn:Hfind; [done|].
    unfold ret at 1. unfold bind at 1. unfold wrap, execM, db.InsertComment, db.query.
    destruct (db.io_fault _ _); [done|].
    destruct (_ || _); [done|].
    unfold emit. intros [= <-]. exists parent. done.
  - intros env rv Hnf. unfold commands.AddCmd_Run, commands.requireActive.
    rewrite Hmode.
    unfold bind, wrap, or_fail, queryM, execM, ret, fail, emit.
    unfold db.SessionExists, db.FindCommentByPrefix, db.InsertComment.
    rewrite !query_no_fault by apply Hnf. simpl store. simpl db.session.
    destruct (Z.of_nat (length (db.session (store env))) =? 0); [done|].
    rewrite !query_no_fault by apply Hnf. simpl db.comments.
    destruct (db.first_row _) as [e|parent]; [done|].
    rewrite !query_no_fault by apply Hnf.
    unfold db.commit_ref_ok. simpl db.commits. simpl db.comments.
    destruct (_ || _); done.
  - intros env parent Hreq Hio Hfind Hfresh Hsha.
    unfold commands.AddCmd_Run. unfold bind at 1. rewrite Hreq. rewrite Hmode.
    unfold bind at 1. unfold bind at 1. unfold or_fail, queryM. rewrite Hfind.
    unfold ret at 1. unfold bind at 1. unfold wrap, execM, db.InsertComment, db.query.
    rewrite Hio. unfold db.commit_ref_ok, db.mem.
    simpl db.ID. simpl db.CommitSHA. simpl db.ParentID.
    rewrite (bool_decide_eq_false_2 _ Hfresh), (bool_decide_eq_true_2 _ Hsha).
    rewrite bool_decide_eq_true_2.
    2: { rewrite fmap_app. apply elem_of_app. left. apply list_elem_of_fmap.
         exists parent. split; [done|]. by eapply FindCommentByPrefix_elem. }
    simpl. unfold emit. eexists. split; [reflexivity|]. done.
Qed.

Section CommitList.
Import db commands.
Context {F : Faults} {E : git.Executor}.

Lemma wrap64_small z : - 2 ^ 63 <= z < 2 ^ 63 -> wrap64 z = z.
Proof. intros Hz. unfold wrap64. rewrite Z.mod_small; lia. Qed.

Lemma positions_from_lookup k (commits : list Commit) i cm :
  Position <$> commits = Z.of_nat <$> seq k (length commits) ->
  commits !! i = Some cm -> Position cm = Z.of_nat (k + i).
Proof.
  intros Hpos Hi.
  assert (Hl : (Position <$> commits) !! i = Some (Position cm))
    by (by rewrite list_lookup_fmap, Hi).
  rewrite Hpos, list_lookup_fmap in Hl.
  destruct (seq k (length commits) !! i) as [j|] eqn:Hj; [|done].
  apply lookup_seq in Hj as [-> _]. by injection Hl as <-.
Qed.

Lemma contiguous_lookup (commits : list Commit) i cm :
  contiguous commits -> commits !! i = Some cm -> Position cm = Z.of_nat i.
Proof. intros Hc Hi. by rewrite (positions_from_lookup 0 commits i cm Hc Hi). Qed.

(** A table whose positions already ascend is listed as it is. *)
Lemma order_by_position_sorted (commits : list Commit) : forall k,
  Position <$> commits = Z.of_nat <$> seq k (length commits) ->
  order_by_position commits = commits.
Proof.
  induction commits as [|c commits IH]; intros k Hpos; [done|].
  simpl in Hpos. injection Hpos as Hc Hrest.
  unfold order_by_position in *. simpl. rewrite (IH (S k)) by done.
  destruct commits as [|d commits]; [done|]. simpl.
  simpl in Hrest. injection Hrest as Hd _.
  replace (Position c <? Position d) with true; [done|].
  symmetry. apply Z.ltb_lt. lia.
Qed.

Lemma findCommitPosition_elem (commits : list Commit) cur :
  NoDup (Sha <$> commits) -> cur ∈ commits ->
  findCommitPosition commits (Sha cur) = Position cur.
Proof.
  induction commits as [|c commits IH]; intros Hnd Hcur; [by apply elem_of_nil in Hcur|].
  rewrite fmap_cons in Hnd. apply NoDup_cons in Hnd as [Hc Hnd]. simpl.
  apply elem_of_cons in Hcur as [->|Hcur].
  - by rewrite String.eqb_refl.
  - destruct (String.eqb_spec (Sha c) (Sha cur)) as [Heq|_]; [|by apply IH].
    exfalso. apply Hc. rewrite Heq. apply list_elem_of_fmap. eauto.
Qed.

Lemma contiguous_elem_position (commits : list Commit) cm :
  contiguous commits -> cm ∈ commits ->
  0 <= Position cm < Z.of_nat (length commits).
Proof.
  intros Hc Hcm. apply list_elem_of_lookup in Hcm as [i Hi].
  rewrite (contiguous_lookup _ _ _ Hc Hi).
  apply lookup_lt_Some in Hi. lia.
Qed.

Lemma GetReviewer_ok name st rv :
  no_faults -> GetReviewer name st = inr rv ->
  first_row (filter (fun r => Name r = name) (reviewers st)) = inr rv.
Proof. intros Hnf. unfold GetReviewer. by rewrite query_no_fault by apply Hnf. Qed.
End CommitList.

(** C4. In an active session, with the positions contiguous from 0, [next]
    targets the position [p] that is 0 when the reviewer has no cursor and
    the position of the cursor plus one otherwise. When [p] is beyond the
    last position, [next] reports completion and returns success; the
    store, the cursor in it, and the working copy (no git command is
    issued) are as they were. Otherwise [next] navigates, by [jumpTo], to
    the commit at position [p], and then only reports. *)
Theorem next_targets_following_position
        (F : db.Faults) (E : git.Executor) (g : git.Git) (env : Env)
        (reviewer : db.Reviewer) (p : Z) :
  no_faults ->
  db.session (store env) ≠ [] ->
  db.GetReviewer (git.Reviewer g) (store env) = inr reviewer ->
  contiguous (db.commits (store env)) ->
  NoDup (db.Sha <$> db.commits (store env)) ->
  Z.of_nat (length (db.commits (store env))) < 2 ^ 63 ->
  match db.CurrentSha reviewer with
  | None => p = 0
  | Some sha => exists cur, cur ∈ db.commits (store env) /\ db.Sha cur = sha /\
                            p = db.Position cur + 1
  end ->
  (Z.of_nat (length (db.commits (store env))) <= p ->
   exists env',
     commands.NextCmd_Run g env = (inr tt, env') /\
     store env' = store env /\ trace env' = trace env /\
     Ok "All commits reviewed." [] ∈ output env') /\
  (p < Z.of_nat (length (db.commits (store env))) ->
   exists target k,
     db.commits (store env) !! Z.to_nat p = Some target /\
     db.Position target = p /\
     commands.NextCmd_Run g env
     = (commands.jumpTo g (git.Reviewer g) target ;; k) env /\
     forall env0, exists env1, k env0 = (inr tt, env1) /\ store env1 = store env0).
Proof.
  intros Hnf Hs Hrev Hcont Hnd Hlen Hp.
  assert (Hp0 : 0 <= p).
  { destruct (db.CurrentSha reviewer); [|lia].
    destruct Hp as (cur & Hcur & _ & ->).
    pose proof (contiguous_elem_position _ _ Hcont Hcur). lia. }
  assert (Hstart : forall k : Z -> M unit,
             commands.NextCmd_Run g env
             = (if Z.of_nat (length (db.commits (store env))) <=? p
                then emit (Printf "\n" []) ;;
                     emit (Ok "All commits reviewed." []) ;;
                     emit (Printf "\n" []) ;;
                     emit (Printf "  git review finish    Complete the review\n" []) ;;
                     emit (Printf "  git review list      View all comments\n" [])
                else
                  let* target := index (db.commits (store env)) p in
                  commands.jumpTo g (git.Reviewer g) target ;;
                  let* oneline := or_default "" (git.Oneline g (db.Sha target)) in
                  let* stat := or_default "" (git.DiffStagedStat g) in
                  emit (Printf "\n" []) ;;
                  emit (Printf "  %s [%d/%d] %s\n"
                               [ABold "â†’"; AInt (wrap64 (p + 1));
                                AInt (Z.of_nat (length (db.commits (store env))));
                                AStr oneline]) ;;
                  if String.eqb stat "" then ret tt
                  else emit (Printf "\n%s\n" [AStr stat])) env).
  { intros _. unfold commands.NextCmd_Run. unfold bind at 1.
    rewrite requireActive_ok by done.
    unfold bind at 1. unfold wrap at 1, queryM at 1. rewrite Hrev.
    unfold bind at 1. unfold wrap at 1, queryM at 1, db.ListCommits.
    rewrite query_no_fault by apply Hnf.
    rewrite (order_by_position_sorted _ 0 Hcont).
    unfold bind at 1.
    destruct (db.CurrentSha reviewer) as [sha|].
    - destruct Hp as (cur & Hcur & <- & ->).
      rewrite (findCommitPosition_elem _ _ Hnd Hcur).
      pose proof (contiguous_elem_position _ _ Hcont Hcur) as Hr.
      replace (db.Position cur <? 0) with false by (symmetry; apply Z.ltb_ge; lia).
      unfold ret at 1. rewrite wrap64_small by lia. done.
    - subst p. done. }
  split.
  - intros Hdone. rewrite (Hstart (fun _ => ret tt)).
    replace (Z.of_nat (length (db.commits (store env))) <=? p) with true
      by (symmetry; apply Z.leb_le; lia).
    unfold bind, emit. simpl. eexists. split; [done|]. repeat split.
    simpl. rewrite !elem_of_app, !elem_of_cons. tauto.
  - intros Hmore.
    destruct (lookup_lt_is_Some_2 (db.commits (store env)) (Z.to_nat p)) as [target Ht];
      [lia|].
    exists target. eexists. split; [done|]. split.
    { rewrite (contiguous_lookup _ _ _ Hcont Ht). lia. }
    split.
    + rewrite (Hstart (fun _ => ret tt)).
      replace (Z.of_nat (length (db.commits (store env))) <=? p) with false
        by (symmetry; apply Z.leb_gt; lia).
      unfold bind at 1. unfold index.
      replace (p <? 0) with false by (symmetry; apply Z.ltb_ge; lia).
      rewrite Ht. unfold ret at 1. reflexivity.
    + intros env0. cbv beta.
      destruct (report_after_jump g (db.Sha target)
                  (fun oneline stat =>
                     emit (Printf "\n" []) ;;
                     emit (Printf "  %s [%d/%d] %s\n"
                                  [ABold "â†’"; AInt (wrap64 (p + 1));
                                   AInt (Z.of_nat (length (db.commits (store env))));
                                   AStr oneline]) ;;
                     if String.eqb stat "" then ret tt
                     else emit (Printf "\n%s\n" [AStr stat])) env0) as [out ->].
      { intros a b env1. apply print_position_total. }
      eexists. split; done.
Qed.

Section ParentPoint.
Import db commands.
Context {F : Faults} {E : git.Executor}.


End ParentPoint.



Section Start.
Import db commands.
Context {F : Faults} {E : git.Executor}.

Lemma rows_from_sha i shas msgs :
  length msgs = length shas -> Sha <$> rows_from i shas msgs = shas.
Proof.
  revert i msgs. induction shas as [|sha shas IH]; intros i [|msg msgs] Hlen;
    simpl in *; try done. f_equal. apply IH. lia.
Qed.

Lemma rows_from_position i shas msgs :
  length msgs = length shas ->
  Position <$> rows_from i shas msgs
  = (fun k => i + Z.of_nat k) <$> seq 0 (length shas).
Proof.
  revert i msgs. induction shas as [|sha shas IH]; intros i [|msg msgs] Hlen;
    simpl in *; try done. f_equal; [f_equal; lia|].
  rewrite IH by lia. rewrite <- (fmap_S_seq 0), <- list_fmap_compose.
  apply list_fmap_ext. intros _ k _. simpl. lia.
Qed.

Lemma same_rows_refl st : same_rows st st.
Proof. by repeat split. Qed.

Lemma same_rows_trans st1 st2 st3 :
  same_rows st1 st2 -> same_rows st2 st3 -> same_rows st1 st3.
Proof. intros (?&?&?&?) (?&?&?&?). repeat split; congruence. Qed.

Lemma keeps_store_rows {A} (m : M A) : keeps_store m -> keeps_rows m.
Proof.
  intros Hm env r env' Hrun. unfold rows_kept.
  pose proof (Hm _ _ _ Hrun) as Hst. unfold same_store in Hst. rewrite Hst.
  apply same_rows_refl.
Qed.

Lemma UpdateReviewerCurrent_rows sha name st st' :
  UpdateReviewerCurrent sha name st = inr st' -> same_rows st st'.
Proof.
  unfold UpdateReviewerCurrent, query. destruct (io_fault _ _); [done|].
  destruct (_ && _); [done|]. intros [= <-]. repeat split; simpl.
  rewrite <- list_fmap_compose. apply list_fmap_ext. intros _ rv _. simpl.
  unfold set_current. by case_bool_decide.
Qed.

Lemma keeps_rows_jumpTo g name target : keeps_rows (jumpTo g name target).
Proof.
  intros env r env' Hrun. unfold rows_kept.
  apply jumpTo_cases in Hrun as [[_ ->]|[_ (parentRef & _ & _ & Hup)]].
  - apply same_rows_refl.
  - by eapply UpdateReviewerCurrent_rows.
Qed.

Lemma keeps_detectBase g refs : keeps_store (detectBase g refs).
Proof.
  induction refs as [|ref refs IH]; simpl; [apply keeps_ret; apply _|].
  apply keeps_bind; [apply _|keeps|]. intros found. destruct found; [|done].
  apply keeps_bind; [apply _|keeps|]. intros merged. destruct merged; [done|]. keeps.
Qed.

(** The loop over the enumerated commits inserts one row for each, in
    order, numbered from [i]. *)
Lemma insert_commits_rows g shas : forall i env env',
  forM_from i shas (fun i sha =>
    let* msg := or_default "" (git.Subject g sha) in
    wrap "failed to insert commit"
         (execM (InsertCommit {| Sha := sha; Message := msg; Position := i |})))
    env = (inr tt, env') ->
  exists msgs,
    length msgs = length shas /\
    store env' = with_commits (commits (store env) ++ rows_from i shas msgs) (store env).
Proof.
  induction shas as [|sha shas IH]; intros i env env'; simpl.
  - intros [= <-]. exists []. split; [done|]. rewrite app_nil_r. by destruct (store env).
  - unfold bind at 1. unfold bind at 1.
    destruct (or_default "" (git.Subject g sha) env) as [[e|msg] env1] eqn:Hsub; [done|].
    assert (Hst1 : store env1 = store env).
    { assert (Hk : keeps_store (or_default "" (git.Subject g sha)))
        by (apply keeps_or_default; unfold git.Subject; apply store_Run).
      exact (Hk _ _ _ Hsub). }
    unfold wrap at 1, execM at 1, InsertCommit, query. rewrite Hst1.
    destruct (io_fault _ _); [done|]. destruct (_ || _); [done|].
    intros Hrest. apply IH in Hrest as (msgs & Hlen & Hst).
    exists (msg :: msgs). split; [simpl; lia|].
    rewrite Hst. simpl. by rewrite <- app_assoc.
Qed.

(** The transaction of [start] inserts the session row, every commit
    row and the reviewer row, or nothing. *)
Lemma start_transaction_cases g base branch now shas name env r env' :
  WithTx (insertSessionRows g base branch now shas name) env = (r, env') ->
  (is_ok r = false /\ store env' = store env) \/
  (r = inr tt /\
   exists msgs,
     length msgs = length shas /\
     session (store env')
     = session (store env)
       ++ [{| BaseRef := base; Branch := branch; SessionCreatedAt := now |}] /\
     commits (store env') = commits (store env) ++ rows_from 0 shas msgs /\
     reviewers (store env')
     = reviewers (store env) ++ [{| Name := name; CurrentSha := None |}] /\
     comments (store env') = comments (store env)).
Proof.
  unfold WithTx. destruct (io_fault SBegin (store env)); [intros [= <- <-]; by left|].
  destruct (insertSessionRows g base branch now shas name env) as [[e|[]] env1] eqn:Hrun;
    [intros [= <- <-]; by left|].
  destruct (io_fault SCommit (store env1)); intros [= <- <-]; [by left|].
  right. split; [done|]. revert Hrun. unfold insertSessionRows.
  unfold bind at 1. unfold wrap at 1, execM at 1, InsertSession, query.
  destruct (io_fault _ _); [done|]. destruct (mem _ _); [done|].
  unfold bind at 1.
  match goal with
  | |- context [forM_from 0 shas ?body ?e] =>
      destruct (forM_from 0 shas body e) as [[err|[]] env2] eqn:Hloop; [done|]
  end.
  apply insert_commits_rows in Hloop as (msgs & Hlen & Hst2).
  unfold wrap, execM, InsertReviewer, query. rewrite Hst2.
  destruct (io_fault _ _); [done|]. destruct (_ || _); [done|].
  intros [= <-]. exists msgs. simpl. done.
Qed.

(** The loop does insert, when the store takes every statement and the
    SHAs and the positions are new to the table. *)
Lemma insert_commits_total g shas : forall i env,
  no_faults ->
  NoDup shas ->
  (forall sha, sha ∈ shas -> sha ∉ Sha <$> commits (store env)) ->
  (forall k, (k < length shas)%nat ->
             i + Z.of_nat k ∉ Position <$> commits (store env)) ->
  exists env',
    forM_from i shas (fun i sha =>
      let* msg := or_default "" (git.Subject g sha) in
      wrap "failed to insert commit"
           (execM (InsertCommit {| Sha := sha; Message := msg; Position := i |})))
      env = (inr tt, env').
Proof.
  induction shas as [|sha shas IH]; intros i env Hnf Hnd Hsha Hpos; simpl.
  - by exists env.
  - apply NoDup_cons in Hnd as [Hfresh Hnd].
    unfold bind at 1. unfold bind at 1.
    destruct (or_default "" (git.Subject g sha) env) as [[e|msg] env1] eqn:Hsub.
    { exfalso. revert Hsub. unfold or_default.
      by destruct (git.Subject g sha env) as [[?|?] ?]. }
    assert (Hst1 : store env1 = store env).
    { assert (Hk : keeps_store (or_default "" (git.Subject g sha)))
        by (apply keeps_or_default; unfold git.Subject; apply store_Run).
      exact (Hk _ _ _ Hsub). }
    unfold wrap at 1, execM at 1, InsertCommit. rewrite query_no_fault by apply Hnf.
    rewrite Hst1. unfold mem. simpl Sha. simpl Position.
    rewrite bool_decide_eq_false_2 by (apply Hsha; left).
    rewrite bool_decide_eq_false_2.
    2: { specialize (Hpos 0%nat). rewrite Z.add_0_r in Hpos. apply Hpos. simpl. lia. }
    simpl orb. cbv iota.
    apply IH; [done|done| |]; simpl.
    + intros sha' Hin. rewrite fmap_app. intros [Hold|Hnew]%elem_of_app.
      * by apply (Hsha sha'); [right|].
      * apply list_elem_of_singleton in Hnew. simpl in Hnew. by subst sha'.
    + intros k Hk. rewrite fmap_app. intros [Hold|Hnew]%elem_of_app.
      * apply (Hpos (S k)); [simpl; lia|].
        by replace (i + Z.of_nat (S k)) with (i + 1 + Z.of_nat k) by lia.
      * apply list_elem_of_singleton in Hnew. simpl in Hnew. lia.
Qed.

(** The transaction of [start] does commit, when the store takes every
    statement and the keys of the new rows are new to their tables. *)
Lemma start_transaction_total g base branch now shas name env :
  no_faults ->
  base ∉ BaseRef <$> session (store env) ->
  NoDup shas ->
  (forall sha, sha ∈ shas -> sha ∉ Sha <$> commits (store env)) ->
  (forall k, (k < length shas)%nat -> Z.of_nat k ∉ Position <$> commits (store env)) ->
  name ∉ Name <$> reviewers (store env) ->
  exists env',
    WithTx (insertSessionRows g base branch now shas name) env = (inr tt, env').
Proof.
  intros Hnf Hbase Hnd Hsha Hpos Hname. unfold WithTx. rewrite Hnf.
  unfold insertSessionRows. unfold bind at 1.
  unfold wrap at 1, execM at 1, InsertSession. rewrite query_no_fault by apply Hnf.
  unfold mem at 1. simpl BaseRef. rewrite (bool_decide_eq_false_2 _ Hbase).
  unfold bind at 1.
  match goal with
  | |- context [forM_from 0 shas ?body ?e] =>
      destruct (insert_commits_total g shas 0 e Hnf Hnd) as [env2 Hloop];
      [exact Hsha | exact Hpos |]
  end.
  rewrite Hloop. apply insert_commits_rows in Hloop as (msgs & Hlen & Hst2).
  unfold wrap, execM, InsertReviewer. rewrite query_no_fault by apply Hnf.
  rewrite Hst2. unfold mem. simpl.
  rewrite (bool_decide_eq_false_2 _ Hname). simpl.
  rewrite Hnf. eauto.
Qed.
End Start.

Section StartRun.
Import db commands.
Context {F : Faults} {E : git.Executor}.

Lemma trace_detectBase g refs : extends_trace (detectBase g refs).
Proof.
  induction refs as [|ref refs IH]; simpl; [apply keeps_ret; apply _|].
  apply keeps_bind; [apply _|keeps|]. intros found. destruct found; [|done].
  apply keeps_bind; [apply _|keeps|]. intros merged. destruct merged; [done|]. keeps.
Qed.

Lemma trace_jumpTo g name target : extends_trace (jumpTo g name target).
Proof. unfold jumpTo. keeps. Qed.

(** One step of a command: it fails there, or goes on. *)
Lemma bind_step {A B} (m : M A) (k : A -> M B) env r env' :
  bind m k env = (r, env') ->
  (exists e, m env = (inl e, env') /\ r = inl e) \/
  (exists a env1, m env = (inr a, env1) /\ k a env1 = (r, env')).
Proof.
  unfold bind. destruct (m env) as [[e|a] env1].
  - intros [= <- <-]. left. eauto.
  - intros Hk. right. eauto.
Qed.

Lemma RevList_listed g base env l env1 :
  attempt (git.RevList g (base +:+ "..HEAD")) env = (inr (inr l), env1) ->
  l ≠ [] ->
  exists out,
    git.git_exec (trace env) (revlist_step g base) = Some out /\
    out ≠ "" /\ l = strings_Split_nl out /\
    trace env1 = trace env ++ [revlist_step g base] /\ store env1 = store env.
Proof.
  unfold attempt, git.RevList, bind, git.Run. fold (revlist_step g base).
  destruct (git.git_exec (trace env) (revlist_step g base)) as [out|]; [|done].
  destruct (String.eqb_spec out "") as [->|Hne]; unfold ret.
  - intros [= <- <-]. done.
  - intros [= <- <-] _. exists out. done.
Qed.

(** What comes after the transaction of [start]: a worktree, the
    navigation to the first commit and the report. *)
Lemma after_transaction_rows g (c : StartCmd) reviewerName (commits : list string)
      (nCommits : Z) :
  keeps_rows
    (let* jumpGit :=
       (if negb (String.eqb (StartName c) "") then
          let worktreePath :=
            filepath_Join [git.CommonDir g; "review"; "worktrees"; StartName c] in
          wrap "failed to create worktree" (git.WorktreeAdd g worktreePath) ;;
          ret (git.ForWorktree g (StartName c) worktreePath)
        else ret g) in
     let* firstCommit := wrap "failed to get first commit"
                           (queryM (GetCommitByPosition 0)) in
     wrap "failed to jump to first commit" (jumpTo jumpGit reviewerName firstCommit) ;;
     let* first := index commits 0 in
     let* oneline := or_default "" (git.Oneline g first) in
     emit (Printf "\n" []) ;;
     emit (Ok "══ Review Started: %d commit(s) ══" [AInt nCommits]) ;;
     emit (Printf "\n" []) ;;
     emit (Printf "  %s [1/%d] %s\n" [ABold "→"; AInt nCommits; AStr oneline]) ;;
     emit (Printf "\n" []) ;;
     emit (Printf "  Staged changes are ready for review.\n" []) ;;
     emit (Printf "\n" []) ;;
     emit (Printf "    git review add 'message'                Add comment\n" []) ;;
     emit (Printf "    git review add -f file -l N 'message'   Add comment on file:line\n" []) ;;
     emit (Printf "    git review next                         Next commit\n" [])).
Proof.
  repeat first
    [ apply keeps_rows_jumpTo
    | apply keeps_store_rows;
      first [apply store_emit | apply store_Run | apply store_RunSilent]
    | apply keeps_ret; apply _ | apply keeps_queryM; apply _
    | apply keeps_index; apply _
    | apply keeps_wrap | apply keeps_or_default
    | apply keeps_bind; [apply _ | | intros]
    | apply keeps_if
    | progress unfold git.WorktreeAdd, git.Oneline ].
Qed.

Lemma after_transaction_trace g (c : StartCmd) reviewerName (commits : list string)
      (nCommits : Z) :
  extends_trace
    (let* jumpGit :=
       (if negb (String.eqb (StartName c) "") then
          let worktreePath :=
            filepath_Join [git.CommonDir g; "review"; "worktrees"; StartName c] in
          wrap "failed to create worktree" (git.WorktreeAdd g worktreePath) ;;
          ret (git.ForWorktree g (StartName c) worktreePath)
        else ret g) in
     let* firstCommit := wrap "failed to get first commit"
                           (queryM (GetCommitByPosition 0)) in
     wrap "failed to jump to first commit" (jumpTo jumpGit reviewerName firstCommit) ;;
     let* first := index commits 0 in
     let* oneline := or_default "" (git.Oneline g first) in
     emit (Printf "\n" []) ;;
     emit (Ok "══ Review Started: %d commit(s) ══" [AInt nCommits]) ;;
     emit (Printf "\n" []) ;;
     emit (Printf "  %s [1/%d] %s\n" [ABold "→"; AInt nCommits; AStr oneline]) ;;
     emit (Printf "\n" []) ;;
     emit (Printf "  Staged changes are ready for review.\n" []) ;;
     emit (Printf "\n" []) ;;
     emit (Printf "    git review add 'message'                Add comment\n" []) ;;
     emit (Printf "    git review add -f file -l N 'message'   Add comment on file:line\n" []) ;;
     emit (Printf "    git review next                         Next commit\n" [])).
Proof.
  repeat first
    [ apply trace_jumpTo | keeps ].
Qed.

Lemma Split_nl_nonempty s : strings_Split_nl s ≠ [].
Proof.
  destruct s as [|a s]; simpl; [done|].
  destruct (Ascii.eqb a "010"); [done|]. by destruct (strings_Split_nl s).
Qed.

(** [start] with a base given, on a branch, with commits above the base:
    whatever the navigation that follows does, the rows are in the store. *)
Lemma StartCmd_Run_inserts g (c : StartCmd) now env branch base out :
  let name := if String.eqb (StartName c) "" then git.Reviewer g else StartName c in
  let branch_step := (git.WorkDir g, ["branch"; "--show-current"]) in
  let revparse_step := (git.WorkDir g, ["rev-parse"; StartBase c]) in
  no_faults ->
  session (store env) = [] ->
  StartBase c ≠ "" ->
  git.git_exec (trace env) branch_step = Some branch ->
  branch ≠ "" ->
  git.git_exec (trace env ++ [branch_step]) revparse_step = Some base ->
  git.git_exec (trace env ++ [branch_step; revparse_step]) (revlist_step g base)
  = Some out ->
  out ≠ "" ->
  NoDup (strings_Split_nl out) ->
  (forall sha, sha ∈ strings_Split_nl out -> sha ∉ Sha <$> commits (store env)) ->
  (forall k, (k < length (strings_Split_nl out))%nat ->
             Z.of_nat k ∉ Position <$> commits (store env)) ->
  name ∉ Name <$> reviewers (store env) ->
  exists r env' msgs,
    StartCmd_Run g c now env = (r, env') /\
    length msgs = length (strings_Split_nl out) /\
    session (store env')
    = [{| BaseRef := base; Branch := branch; SessionCreatedAt := now |}] /\
    commits (store env')
    = commits (store env) ++ rows_from 0 (strings_Split_nl out) msgs /\
    Name <$> reviewers (store env') = (Name <$> reviewers (store env)) ++ [name] /\
    comments (store env') = comments (store env).
Proof.
  intros name branch_step revparse_step Hnf Hs Hbase Hb Hbne Hrp Hrl Hout Hnd Hsha Hpos
         Hname.
  set (env1 := with_trace (trace env ++ [branch_step]) env).
  set (env2 := with_trace (trace env1 ++ [revparse_step]) env1).
  set (env3 := with_trace (trace env2 ++ [revlist_step g base]) env2).
  assert (H1 : wrap "failed to check session" (queryM SessionExists) env = (inr 0, env)).
  { unfold wrap, queryM, SessionExists. rewrite query_no_fault by apply Hnf.
    by rewrite Hs. }
  assert (H2 : attempt (git.CurrentBranch g) env = (inr (inr branch), env1)).
  { unfold attempt, git.CurrentBranch, git.Run. fold branch_step. by rewrite Hb. }
  assert (H3 : or_fail (EWithCode (ENew "invalid ref") ErrCodeInvalidRef)
                       (git.Run g ["rev-parse"; StartBase c]) env1 = (inr base, env2)).
  { unfold or_fail, git.Run. fold revparse_step. simpl trace. by rewrite Hrp. }
  assert (H4 : attempt (git.RevList g (base +:+ "..HEAD")) env2
               = (inr (inr (strings_Split_nl out)), env3)).
  { assert (Hrl' : git.git_exec (trace env2) (revlist_step g base) = Some out).
    { rewrite <- Hrl. f_equal. simpl. by rewrite <- app_assoc. }
    unfold attempt, git.RevList, bind, git.Run. fold (revlist_step g base).
    rewrite Hrl'. by destruct (String.eqb_spec out "") as [|_]. }
  destruct (start_transaction_total g base branch now (strings_Split_nl out) name env3)
    as [env4 Htx]; try done.
  { simpl. rewrite Hs. apply not_elem_of_nil. }
  pose proof (start_transaction_cases _ _ _ _ _ _ _ _ _ Htx)
    as [[Hf _]|[_ (msgs & Hlen & Hsession & Hcommits & Hreviewers & Hcomments)]];
    [done|].
  simpl store in Hsession, Hcommits, Hreviewers, Hcomments.
  destruct (StartCmd_Run g c now env) as [r env'] eqn:Hrun.
  exists r, env', msgs. split; [done|]. split; [done|].
  unfold StartCmd_Run in Hrun.
  apply bind_step in Hrun as [(e & Hm & _)|(count & env0 & Hm & Hrun)]; [congruence|].
  assert (count = 0 /\ env0 = env) as [-> ->] by (split; congruence). clear Hm.
  change (0 <? 0) with false in Hrun. cbv iota in Hrun.
  apply bind_step in Hrun as [(e & Hm & _)|(br & env0 & Hm & Hrun)]; [congruence|].
  assert (br = inr branch /\ env0 = env1) as [-> ->] by (split; congruence). clear Hm.
  apply bind_step in Hrun as [(e & Hm & _)|(cb & env0 & Hm & Hrun)].
  { revert Hm. destruct (String.eqb_spec branch "") as [|_]; [done|]. done. }
  assert (cb = branch /\ env0 = env1) as [-> ->].
  { revert Hm. destruct (String.eqb_spec branch "") as [|_]; [done|].
    unfold ret. by intros [= -> ->]. }
  clear Hm.
  apply bind_step in Hrun as [(e & Hm & _)|(b & env0 & Hm & Hrun)].
  { revert Hm. destruct (String.eqb_spec (StartBase c) "") as [|_]; [done|].
    change (negb false) with true. cbv iota. congruence. }
  assert (b = base /\ env0 = env2) as [-> ->].
  { revert Hm. destruct (String.eqb_spec (StartBase c) "") as [|_]; [done|].
    change (negb false) with true. cbv iota. intros Hm. split; congruence. }
  clear Hm.
  apply bind_step in Hrun as [(e & Hm & _)|(listed & env0 & Hm & Hrun)]; [congruence|].
  assert (listed = inr (strings_Split_nl out) /\ env0 = env3) as [-> ->]
    by (split; congruence).
  clear Hm.
  apply bind_step in Hrun as [(e & Hm & _)|(shas & env0 & Hm & Hrun)].
  { revert Hm. pose proof (Split_nl_nonempty out) as Hne.
    by destruct (strings_Split_nl out). }
  assert (shas = strings_Split_nl out /\ env0 = env3) as [-> ->].
  { revert Hm. pose proof (Split_nl_nonempty out) as Hne.
    destruct (strings_Split_nl out); [done|]. unfold ret. by intros [= <- <-]. }
  clear Hm.
  apply bind_step in Hrun as [(e & Hm & _)|([] & env0 & Hm & Hrun)].
  { revert Hm. unfold wrap. fold name. by rewrite Htx. }
  assert (env0 = env4) as ->.
  { revert Hm. unfold wrap. fold name. rewrite Htx. by intros [= <-]. }
  clear Hm.
  pose proof (after_transaction_rows _ _ _ _ _ _ _ _ Hrun) as (Hr1 & Hr2 & Hr3 & Hr4).
  split; [by rewrite Hr1, Hsession, Hs|].
  split; [by rewrite Hr2, Hcommits|].
  split; [by rewrite Hr4, Hreviewers, fmap_app|].
  by rewrite Hr3, Hcomments.
Qed.
End StartRun.

(** C8. A session created by [start]. When there was no session, [start]
    either leaves the store as it was, or has inserted, together: the
    session row; one commit row for each SHA that
    [git rev-list --reverse base..HEAD] has listed during this run, in the
    order of the listing (oldest first), with the positions 0, 1, 2, ...
    without gap or duplicate; and the row of the initiating reviewer.
    The rows are inserted by one transaction that inserts all of them or
    none. And the rows are inserted indeed: with a store that takes every
    statement and keys that are new to their tables, the transaction commits
    with the rows described; and [start] with a base given, on a branch,
    where git resolves the base and lists distinct commits above it, ends
    with the session row, the commit rows at the positions 0, 1, 2, ... and
    the reviewer row in the store, whatever the navigation that follows the
    transaction does. *)
Theorem start_inserts_contiguous_positions
        (F : db.Faults) (E : git.Executor) (g : git.Git) (c : commands.StartCmd)
        (now : string) :
  (forall base branch shas name env r env',
      WithTx (commands.insertSessionRows g base branch now shas name) env = (r, env') ->
      (is_ok r = false /\ store env' = store env) \/
      (r = inr tt /\
       exists msgs,
         length msgs = length shas /\
         db.session (store env')
         = db.session (store env)
           ++ [{| db.BaseRef := base; db.Branch := branch;
                  db.SessionCreatedAt := now |}] /\
         db.commits (store env') = db.commits (store env) ++ rows_from 0 shas msgs /\
         db.reviewers (store env')
         = db.reviewers (store env) ++ [{| db.Name := name; db.CurrentSha := None |}] /\
         db.comments (store env') = db.comments (store env))) /\
  (forall env r env',
      db.session (store env) = [] ->
      commands.StartCmd_Run g c now env = (r, env') ->
      store env' = store env \/
      exists base branch shas msgs history out,
        trace env `prefix_of` history /\
        (history ++ [revlist_step g base]) `prefix_of` trace env' /\
        git.git_exec history (revlist_step g base) = Some out /\
        out ≠ "" /\ shas = strings_Split_nl out /\
        length msgs = length shas /\
        db.session (store env')
        = [{| db.BaseRef := base; db.Branch := branch; db.SessionCreatedAt := now |}] /\
        db.commits (store env') = db.commits (store env) ++ rows_from 0 shas msgs /\
        db.Sha <$> rows_from 0 shas msgs = shas /\
        db.Position <$> rows_from 0 shas msgs = Z.of_nat <$> seq 0 (length shas) /\
        NoDup (db.Position <$> rows_from 0 shas msgs) /\
        db.Name <$> db.reviewers (store env')
        = (db.Name <$> db.reviewers (store env))
          ++ [if String.eqb (commands.StartName c) "" then git.Reviewer g
              else commands.StartName c] /\
        db.comments (store env') = db.comments (store env)) /\
  (forall base branch shas name env,
      no_faults ->
      base ∉ db.BaseRef <$> db.session (store env) ->
      NoDup shas ->
      (forall sha, sha ∈ shas -> sha ∉ db.Sha <$> db.commits (store env)) ->
      (forall k, (k < length shas)%nat ->
                 Z.of_nat k ∉ db.Position <$> db.commits (store env)) ->
      name ∉ db.Name <$> db.reviewers (store env) ->
      exists env' msgs,
        WithTx (commands.insertSessionRows g base branch now shas name) env
        = (inr tt, env') /\
        length msgs = length shas /\
        db.session (store env')
        = db.session (store env)
          ++ [{| db.BaseRef := base; db.Branch := branch;
                 db.SessionCreatedAt := now |}] /\
        db.commits (store env') = db.commits (store env) ++ rows_from 0 shas msgs /\
        db.reviewers (store env')
        = db.reviewers (store env) ++ [{| db.Name := name; db.CurrentSha := None |}] /\
        db.comments (store env') = db.comments (store env)) /\
  (forall env branch base out,
      no_faults ->
      db.session (store env) = [] ->
      commands.StartBase c ≠ "" ->
      git.git_exec (trace env) (git.WorkDir g, ["branch"; "--show-current"])
      = Some branch ->
      branch ≠ "" ->
      git.git_exec (trace env ++ [(git.WorkDir g, ["branch"; "--show-current"])])
                   (git.WorkDir g, ["rev-parse"; commands.StartBase c])
      = Some base ->
      git.git_exec (trace env ++ [(git.WorkDir g, ["branch"; "--show-current"]);
                                  (git.WorkDir g, ["rev-parse"; commands.StartBase c])])
                   (revlist_step g base)
      = Some out ->
      out ≠ "" ->
      NoDup (strings_Split_nl out) ->
      (forall sha, sha ∈ strings_Split_nl out ->
                   sha ∉ db.Sha <$> db.commits (store env)) ->
      (forall k, (k < length (strings_Split_nl out))%nat ->
                 Z.of_nat k ∉ db.Position <$> db.commits (store env)) ->
      (if String.eqb (commands.StartName c) "" then git.Reviewer g
       else commands.StartName c) ∉ db.Name <$> db.reviewers (store env) ->
      exists r env' msgs,
        commands.StartCmd_Run g c now env = (r, env') /\
        length msgs = length (strings_Split_nl out) /\
        db.session (store env')
        = [{| db.BaseRef := base; db.Branch := branch; db.SessionCreatedAt := now |}] /\
        db.commits (store env')
        = db.commits (store env) ++ rows_from 0 (strings_Split_nl out) msgs /\
        db.Name <$> db.reviewers (store env')
        = (db.Name <$> db.reviewers (store env))
          ++ [if String.eqb (commands.StartName c) "" then git.Reviewer g
              else commands.StartName c] /\
        db.comments (store env') = db.comments (store env)).
Proof.
  split; [intros; by eapply start_transaction_cases|].
  split; [|split].
  2: { intros base branch shas name env Hnf Hbase Hnd Hsha Hpos Hname.
       destruct (start_transaction_total g base branch now shas name env)
         as [env' Htx]; try done.
       pose proof (start_transaction_cases _ _ _ _ _ _ _ _ _ Htx)
         as [[Hf _]|[_ (msgs & Hrows)]]; [done|].
       by exists env', msgs. }
  2: { intros env branch base out. apply StartCmd_Run_inserts. }
  intros env r env' Hsess Hrun. unfold commands.StartCmd_Run in Hrun.
  apply bind_step in Hrun as [(e & Hcount & _)|(count & env0 & Hcount & Hrun)].
  { left. revert Hcount. apply (keeps_wrap same_store), keeps_queryM. apply _. }
  assert (env0 = env /\ count = 0) as [-> ->].
  { revert Hcount. unfold wrap, queryM, db.SessionExists, db.query.
    destruct (db.io_fault _ _); [done|]. rewrite Hsess. by intros [= <- <-]. }
  clear Hcount. change (0 <? 0) with false in Hrun. cbv iota in Hrun.
  apply bind_step in Hrun as [(e & Hm & _)|(branch & env1 & Hm1 & Hrun)].
  { left. revert Hm. assert (Hk : keeps_store (attempt (git.CurrentBranch g))) by keeps.
    apply Hk. }
  apply bind_step in Hrun as [(e & Hm & _)|(currentBranch & env2 & Hm2 & Hrun)].
  { left. assert (Hk : keeps_store (attempt (git.CurrentBranch g))) by keeps.
    apply Hk in Hm1. unfold same_store in Hm1. rewrite <- Hm1.
    revert Hm. destruct branch as [?|b]; [|destruct (String.eqb b "")];
      unfold fail, ret; intros Heq; by simplify_eq. }
  assert (env2 = env1) as ->.
  { revert Hm2. destruct branch as [?|b]; [|destruct (String.eqb b "")];
      unfold fail, ret; intros Heq; by simplify_eq. }
  clear Hm2.
  match type of Hrun with
  | bind ?m _ _ = _ =>
      assert (Hbase_store : keeps_store m)
        by (repeat first [apply keeps_detectBase | keeps]);
      assert (Hbase_trace : extends_trace m)
        by (repeat first [apply trace_detectBase | keeps])
  end.
  assert (Hbranch_store : keeps_store (attempt (git.CurrentBranch g))) by keeps.
  assert (Hbranch_trace : extends_trace (attempt (git.CurrentBranch g))) by keeps.
  apply Hbranch_store in Hm1 as Hs1. apply Hbranch_trace in Hm1 as Ht1.
  unfold same_store, trace_grows in *.
  apply bind_step in Hrun as [(e & Hm & _)|(base & env3 & Hm3 & Hrun)].
  { left. apply Hbase_store in Hm. congruence. }
  apply Hbase_store in Hm3 as Hs3. apply Hbase_trace in Hm3 as Ht3.
  clear Hbase_store Hbase_trace Hm3.
  apply bind_step in Hrun as [(e & Hm & _)|(listed & env4 & Hm4 & Hrun)].
  { left. assert (Hk : keeps_store (attempt (git.RevList g (base +:+ "..HEAD")))) by keeps.
    apply Hk in Hm. unfold same_store in Hm. congruence. }
  apply bind_step in Hrun as [(e & Hm & _)|(shas & env5 & Hm5 & Hrun)].
  { left. assert (Hk : keeps_store (attempt (git.RevList g (base +:+ "..HEAD")))) by keeps.
    apply Hk in Hm4. unfold same_store in Hm4.
    revert Hm. destruct listed as [?|[|? ?]]; unfold fail, ret; intros Heq;
      simplify_eq; congruence. }
  assert (listed = inr shas /\ shas ≠ [] /\ env5 = env4) as (-> & Hne & ->).
  { revert Hm5. destruct listed as [?|[|? ?]]; unfold fail, ret; intros Heq;
      by simplify_eq. }
  clear Hm5.
  apply RevList_listed in Hm4 as (out & Hexec & Hout & Hshas & Ht4 & Hs4); [|done].
  apply bind_step in Hrun as [(e & Hm & _)|([] & env6 & Hm6 & Hrun)].
  { left. revert Hm. unfold wrap.
    destruct (WithTx _ env4) as [[e'|[]] env6] eqn:Htx; intros [= <- <-].
    apply start_transaction_cases in Htx as [[_ Hst]|[? _]]; [|done]. congruence. }
  assert (Htx : exists r6,
             WithTx (commands.insertSessionRows g base currentBranch now shas
                       (if String.eqb (commands.StartName c) "" then git.Reviewer g
                        else commands.StartName c)) env4 = (r6, env6) /\ is_ok r6 = true).
  { revert Hm6. unfold wrap. destruct (WithTx _ env4) as [[e'|[]] env6'] eqn:Htx;
      intros [= <-]. eauto. }
  destruct Htx as (r6 & Htx & Hok). clear Hm6.
  assert (Ht6 : trace env4 `prefix_of` trace env6).
  { assert (Hk : extends_trace
                   (WithTx (commands.insertSessionRows g base currentBranch now shas
                              (if String.eqb (commands.StartName c) "" then git.Reviewer g
                               else commands.StartName c))))
      by (unfold commands.insertSessionRows; keeps).
    exact (Hk _ _ _ Htx). }
  apply start_transaction_cases in Htx
    as [[Hfail _]|[_ (msgs & Hlen & Hsession & Hcommits & Hreviewers & Hcomments)]];
    [congruence|].
  pose proof (after_transaction_rows _ _ _ _ _ _ _ _ Hrun) as (Hr1 & Hr2 & Hr3 & Hr4).
  pose proof (after_transaction_trace _ _ _ _ _ _ _ _ Hrun) as Ht7.
  unfold trace_grows in Ht7.
  right. exists base, currentBranch, shas, msgs, (trace env3), out.
  split; [by etransitivity|].
  split; [rewrite <- Ht4; by etransitivity|].
  split; [done|]. split; [done|]. split; [done|]. split; [done|].
  assert (Hst4 : store env4 = store env) by congruence.
  rewrite Hst4 in *.
  split; [by rewrite Hr1, Hsession, Hsess|].
  split; [by rewrite Hr2, Hcommits|].
  split; [by apply rows_from_sha|].
  assert (Hpos : db.Position <$> rows_from 0 shas msgs = Z.of_nat <$> seq 0 (length shas)).
  { rewrite rows_from_position by done. apply list_fmap_ext. intros _ k _. lia. }
  split; [done|].
  split; [rewrite Hpos; apply NoDup_fmap_2; [apply _ | apply NoDup_seq]|].
  split; [by rewrite Hr4, Hreviewers, fmap_app|].
  by rewrite Hr3, Hcomments.
Qed.

(** C9, as stated, fails: the numeral 9223372036854775808 is numeric text,
    it is no range, and the parser refuses it. *)
Lemma parser_refuses_some_numeric_text :
  ~ (forall raw, is_ok (parseLineRange raw) = false -> refusable raw).
Proof.
  intros Hclaim.
  destruct (Hclaim "9223372036854775808" eq_refl)
    as [(_ & Hnone & _)|(s & e & Hrange & _)].
  - vm_compute in Hnone. discriminate Hnone.
  - revert Hrange. by apply no_comma_no_range.
Qed.

(** C9, amended. The line-range parser accepts the empty text (no line),
    a numeral [N] in the signed 64-bit range, which yields start = end = N,
    and a range [S,E] of two such numerals with S not above E; zero and
    negative numbers included, so that a non-reply comment is created with
    the lines -3 to 0. It refuses everything else: text that is not
    numeric, numerals outside the signed 64-bit range, and ranges whose
    start exceeds the end. *)
Theorem parser_accepts_int64_ranges :
  (forall raw st en, parseLineRange raw = inr (st, en) <-> accepts raw st en) /\
  (forall raw n, numeral_value raw = Some n -> in_int64 n ->
                 parseLineRange raw = inr (Some n, Some n)) /\
  (forall raw n, numeral_value raw = Some n -> ~ in_int64 n ->
                 is_ok (parseLineRange raw) = false) /\
  parseLineRange "0" = inr (Some 0, Some 0) /\
  parseLineRange "-3,0" = inr (Some (-3), Some 0) /\
  exists env',
    commands.AddCmd_Run (F := sound_storage) main_worktree
      {| commands.AddFile := "app.js"; commands.AddLine := "-3,0";
         commands.AddReplyTo := ""; commands.AddAuthor := "";
         commands.AddMessage := "odd lines" |}
      "2024-01-02T00:00:00Z" "06-new" sample_env = (inr tt, env') /\
    last (db.comments (store env'))
    = Some {| db.ID := "06-new"; db.ParentID := None; db.CommitSHA := "aaa111";
              db.File := Some "app.js"; db.StartLine := Some (-3);
              db.EndLine := Some 0; db.Body := "odd lines";
              db.ResolvedAt := None; db.ResolvedBy := None;
              db.CreatedAt := "2024-01-02T00:00:00Z"; db.CreatedBy := "" |}.
Proof.
  split; [exact parseLineRange_accepts|].
  split; [intros raw n Hn Hr; apply parseLineRange_accepts; by apply accepts_single|].
  split.
  { intros raw n Hn Hr. destruct (parseLineRange raw) as [e|[st en]] eqn:Hp; [done|].
    exfalso. apply parseLineRange_accepts in Hp.
    pose proof (numeral_no_comma _ _ Hn) as Hcomma.
    inversion Hp as [|raw' n' Hn' Hr'|raw' s e Hrange]; subst.
    - discriminate Hn.
    - assert (n' = n) as -> by congruence. done.
    - by eapply no_comma_no_range. }
  split; [reflexivity|]. split; [reflexivity|].
  eexists. split; [vm_compute; reflexivity|]. vm_compute. reflexivity.
Qed.

Lemma parser_accepts_int64_ranges_witness :
  accepts "-3,0" (Some (-3)) (Some 0) /\
  parseLineRange "-7" = inr (Some (-7), Some (-7)).
Proof.
  split.
  - apply (proj1 parser_accepts_int64_ranges "-3,0" (Some (-3)) (Some 0)). reflexivity.
  - apply (proj1 (proj2 parser_accepts_int64_ranges) "-7" (-7)).
    + reflexivity.
    + unfold in_int64. split; [vm_compute; discriminate | reflexivity].
Defined.

(** Witnesses of the other claims. *)

Lemma cursor_written_after_both_steps_witness :
  is_ok (commands.NextCmd_Run (F := sound_storage) (E := git_no_checkout)
           main_worktree sample_env).1 = false /\
  store (commands.NextCmd_Run (F := sound_storage) (E := git_no_checkout)
           main_worktree sample_env).2 = store sample_env.
Proof.
  apply (proj2 (proj1 (proj2 (cursor_written_after_both_steps
                                sound_storage git_no_checkout main_worktree))
                      sample_env _ _ (surjective_pairing _))).
  exists [], (".", ["checkout"; "aaa111"; "--quiet"]), [].
  split; [vm_compute; reflexivity|]. split; reflexivity.
Defined.

Lemma next_targets_following_position_witness :
  exists target k,
    db.commits sample_store !! 1%nat = Some target /\
    db.Position target = 1 /\
    commands.NextCmd_Run (F := sound_storage) (E := git_quiet) main_worktree sample_env
    = (commands.jumpTo (F := sound_storage) (E := git_quiet) main_worktree "" target ;; k)
        sample_env /\
    forall env0, exists env1, k env0 = (inr tt, env1) /\ store env1 = store env0.
Proof.
  apply (proj2 (next_targets_following_position sound_storage git_quiet main_worktree
                  sample_env {| db.Name := ""; db.CurrentSha := Some "aaa111" |} 1
                  (fun _ _ => eq_refl)
                  ltac:(discriminate) eq_refl eq_refl
                  ltac:(refine (bool_decide_unpack _ _); vm_compute; exact I)
                  ltac:(reflexivity)
                  ltac:(eexists; split; [left|]; split; reflexivity))).
  reflexivity.
Defined.

Lemma resolve_needs_open_root_witness :
  (exists e,
     commands.ResolveCmd_Run (F := sound_storage) main_worktree
       {| commands.ResolveID := "02"; commands.ResolveName := "" |}
       "2024-01-02T00:00:00Z" sample_env = (inl e, sample_env) /\
     (commands.requireActive (F := sound_storage) sample_env = (inr tt, sample_env) ->
      e = ENew "only root comments can be resolved")) /\
  (exists env',
     commands.UnresolveCmd_Run (F := sound_storage) main_worktree "05" resolved_env
     = (inr tt, env') /\
     db.comments (store env') = db.comments sample_store /\
     (exists c', c' ∈ db.comments (store env') /\ db.ID c' = "05-other") /\
     (forall c', c' ∈ db.comments (store env') -> db.ID c' = "05-other" ->
                 db.ResolvedAt c' = None /\ db.ResolvedBy c' = None) /\
     (forall c', c' ∈ db.comments (store resolved_env) -> db.ID c' ≠ "05-other" ->
                 c' ∈ db.comments (store env'))).
Proof.
  split.
  - apply (proj1 (resolve_needs_open_root sound_storage main_worktree)
             {| commands.ResolveID := "02"; commands.ResolveName := "" |}
             "2024-01-02T00:00:00Z" sample_env
             (mk_comment "02-reply" (Some "01-root") "aaa111" "reply 1" "bob")).
    + reflexivity.
    + discriminate.
  - apply (proj2 (proj2 (proj2 (proj2 (resolve_needs_open_root sound_storage
                                         main_worktree))))
             "05" resolved_env resolved_root).
    + reflexivity.
    + reflexivity.
    + reflexivity.
    + reflexivity.
    + discriminate.
Defined.

Lemma reply_inherits_from_parent_witness :
  commands.AddCmd_Run (F := sound_storage) main_worktree
    {| commands.AddFile := ""; commands.AddLine := ""; commands.AddReplyTo := "zzz";
       commands.AddAuthor := ""; commands.AddMessage := "reply" |}
    "2024-01-02T00:00:00Z" "06-new" sample_env
  = (inl (ENew "comment not found"), sample_env) /\
  (exists env',
     commands.AddCmd_Run (F := sound_storage) main_worktree
       {| commands.AddFile := "b.go"; commands.AddLine := "7";
          commands.AddReplyTo := "03"; commands.AddAuthor := "dave";
          commands.AddMessage := "reply" |}
       "2024-01-02T00:00:00Z" "06-new" sample_env
     = (inr tt, env') /\
     db.comments (store env')
     = db.comments sample_store
       ++ [{| db.ID := "06-new"; db.ParentID := Some "03-reply";
              db.CommitSHA := "aab222"; db.File := None;
              db.StartLine := None; db.EndLine := None;
              db.Body := "reply"; db.ResolvedAt := None; db.ResolvedBy := None;
              db.CreatedAt := "2024-01-02T00:00:00Z"; db.CreatedBy := "dave" |}] /\
     db.session (store env') = db.session sample_store /\
     db.commits (store env') = db.commits sample_store /\
     db.reviewers (store env') = db.reviewers sample_store).
Proof.
  split.
  - apply (proj1 (reply_inherits_from_parent sound_storage main_worktree
                    {| commands.AddFile := ""; commands.AddLine := "";
                       commands.AddReplyTo := "zzz"; commands.AddAuthor := "";
                       commands.AddMessage := "reply" |}
                    "2024-01-02T00:00:00Z" "06-new" ltac:(discriminate))).
    + intros x Hx. simpl in Hx.
      repeat (apply elem_of_cons in Hx as [->|Hx]); try reflexivity.
      by apply elem_of_nil in Hx.
    + reflexivity.
  - apply (proj2 (proj2 (proj2 (reply_inherits_from_parent sound_storage main_worktree
                                  {| commands.AddFile := "b.go"; commands.AddLine := "7";
                                     commands.AddReplyTo := "03";
                                     commands.AddAuthor := "dave";
                                     commands.AddMessage := "reply" |}
                                  "2024-01-02T00:00:00Z" "06-new" ltac:(discriminate))))
             sample_env
             (mk_comment "03-reply" (Some "01-root") "aab222" "reply 2" "carol")).
    + reflexivity.
    + reflexivity.
    + reflexivity.
    + refine (bool_decide_unpack _ _). vm_compute. exact I.
    + refine (bool_decide_unpack _ _). vm_compute. exact I.
Defined.


Lemma start_inserts_contiguous_positions_witness :
  contiguous (db.commits (store (commands.StartCmd_Run
                                   (F := sound_storage) (E := git_feature)
                                   main_worktree
                                   {| commands.StartBase := "base0";
                                      commands.StartName := "" |}
                                   "2024-01-01T00:00:00Z" fresh_env).2)) /\
  (exists r env' first second,
     commands.StartCmd_Run (F := sound_storage) (E := git_feature) main_worktree
       {| commands.StartBase := "base0"; commands.StartName := "" |}
       "2024-01-01T00:00:00Z" fresh_env = (r, env') /\
     db.session (store env')
     = [{| db.BaseRef := "base0"; db.Branch := "feature";
           db.SessionCreatedAt := "2024-01-01T00:00:00Z" |}] /\
     db.commits (store env')
     = [{| db.Sha := "aaa111"; db.Message := first; db.Position := 0 |};
        {| db.Sha := "aab222"; db.Message := second; db.Position := 1 |}] /\
     db.Name <$> db.reviewers (store env') = [""] /\
     db.comments (store env') = []).
Proof.
  split.
  - destruct (proj1 (proj2 (start_inserts_contiguous_positions sound_storage git_feature
                              main_worktree
                              {| commands.StartBase := "base0"; commands.StartName := "" |}
                              "2024-01-01T00:00:00Z"))
                fresh_env _ _ eq_refl (surjective_pairing _))
      as [Hsame|(base & branch & shas & msgs & history & out & _ & _ & _ & _ & _ & Hlen
                 & _ & Hcommits & _ & Hpos & _)].
    + vm_compute in Hsame. discriminate Hsame.
    + assert (Hl : length (rows_from 0 shas msgs) = length shas).
      { by rewrite <- (length_fmap db.Position), Hpos, length_fmap, length_seq. }
      unfold contiguous. rewrite Hcommits. simpl. rewrite Hl. exact Hpos.
  - destruct (proj2 (proj2 (proj2 (start_inserts_contiguous_positions
                                     sound_storage git_feature main_worktree
                                     {| commands.StartBase := "base0";
                                        commands.StartName := "" |}
                                     "2024-01-01T00:00:00Z")))
                fresh_env "feature" "base0" ("aaa111" +:+ String "010"%char "aab222")
                (fun _ _ => eq_refl) eq_refl
                ltac:(discriminate) eq_refl ltac:(discriminate) eq_refl eq_refl
                ltac:(discriminate)
                ltac:(refine (bool_decide_unpack _ _); vm_compute; exact I)
                ltac:(intros sha _; apply not_elem_of_nil)
                ltac:(intros k _; apply not_elem_of_nil)
                ltac:(apply not_elem_of_nil))
      as (r & env' & msgs & Hrun & Hlen & Hsession & Hcommits & Hnames & Hcomments).
    destruct msgs as [|first [|second [|third msgs]]]; try discriminate Hlen.
    exists r, env', first, second. repeat split; assumption.
Defined.

Example start_creates_two_rows :
  db.commits (store (commands.StartCmd_Run (F := sound_storage) (E := git_feature)
                       main_worktree
                       {| commands.StartBase := "base0"; commands.StartName := "" |}
                       "2024-01-01T00:00:00Z" fresh_env).2)
  = [{| db.Sha := "aaa111"; db.Message := "subject"; db.Position := 0 |};
     {| db.Sha := "aab222"; db.Message := "subject"; db.Position := 1 |}].
Proof. vm_compute. reflexivity. Qed.

(** * Further properties of the code *)

(** ** Threads: children, descendants and notes *)

Section ChildrenMap.
Import db commands.

Lemma buildChildrenMap_fold (rows : list Comment) : forall (m : gmap string (list Comment)) k,
  default [] (foldl (fun m c =>
                       match ParentID c with
                       | Some key => <[key := default [] (m !! key) ++ [c]]> m
                       | None => m
                       end) m rows !! k)
  = default [] (m !! k) ++ filter (fun c => ParentID c = Some k) rows.
Proof.
  induction rows as [|c rows IH]; intros m k; simpl.
  - by rewrite app_nil_r.
  - rewrite IH. destruct (ParentID c) as [key|] eqn:Hp.
    + destruct (decide (key = k)) as [->|Hne].
      * rewrite lookup_insert_eq. simpl.
        rewrite filter_cons_True by done. by rewrite <- app_assoc.
      * rewrite lookup_insert_ne by done.
        rewrite filter_cons_False by congruence. done.
    + rewrite filter_cons_False by congruence. done.
Qed.

Lemma children_lookup (rows : list Comment) k :
  default [] (buildChildrenMap rows !! k) = filter (fun c => ParentID c = Some k) rows.
Proof. unfold buildChildrenMap. by rewrite buildChildrenMap_fold, lookup_empty. Qed.

Lemma buildChildrenMap_fold_None (rows : list Comment) :
  forall (m : gmap string (list Comment)) k,
  foldl (fun m c =>
           match ParentID c with
           | Some key => <[key := default [] (m !! key) ++ [c]]> m
           | None => m
           end) m rows !! k = None
  <-> m !! k = None /\ forall c, c ∈ rows -> ParentID c ≠ Some k.
Proof.
  induction rows as [|c rows IH]; intros m k; simpl.
  - split; [|by intros [? _]]. intros Hm. split; [done|].
    intros c Hc. by apply elem_of_nil in Hc.
  - rewrite IH. destruct (ParentID c) as [key|] eqn:Hp.
    + destruct (decide (key = k)) as [->|Hne].
      * rewrite lookup_insert_eq. split; [by intros [? _]|].
        intros [_ Hno]. exfalso. apply (Hno c); [left|done].
      * rewrite lookup_insert_ne by done. split.
        { intros [Hm Hno]. split; [done|]. intros d Hd.
          apply elem_of_cons in Hd as [->|Hd]; [congruence|by apply Hno]. }
        { intros [Hm Hno]. split; [done|]. intros d Hd. apply Hno. by right. }
    + split.
      { intros [Hm Hno]. split; [done|]. intros d Hd.
        apply elem_of_cons in Hd as [->|Hd]; [congruence|by apply Hno]. }
      { intros [Hm Hno]. split; [done|]. intros d Hd. apply Hno. by right. }
Qed.

End ChildrenMap.

(** X1. The children map of a table holds, under each key, the rows
    whose parent is that key, in table order; a key is absent from the map
    exactly when no row has it as parent. *)
Theorem children_map_groups_by_parent (rows : list db.Comment) (k : string) :
  default [] (commands.buildChildrenMap rows !! k)
  = filter (fun c => db.ParentID c = Some k) rows /\
  (commands.buildChildrenMap rows !! k = None
   <-> forall c, c ∈ rows -> db.ParentID c ≠ Some k).
Proof.
  split; [apply children_lookup|].
  unfold commands.buildChildrenMap. rewrite buildChildrenMap_fold_None.
  rewrite lookup_empty. split; [by intros [_ ?]|done].
Qed.

(** ** The byte order of strings and the sort of [descendants] *)

Lemma ascii_compare_lt_trans a b c :
  Ascii.compare a b = Lt -> Ascii.compare b c = Lt -> Ascii.compare a c = Lt.
Proof.
  unfold Ascii.compare. rewrite !N.compare_lt_iff. apply N.lt_trans.
Qed.

Lemma string_compare_lt_trans a : forall b c,
  String.compare a b = Lt -> String.compare b c = Lt -> String.compare a c = Lt.
Proof.
  induction a as [|x a IH]; intros [|y b] [|z c]; simpl; try done.
  destruct (Ascii.compare x y) eqn:Hxy; [|clear IH|done].
  - apply Ascii.compare_eq_iff in Hxy as ->.
    destruct (Ascii.compare y z); [apply IH|done|done].
  - intros _. destruct (Ascii.compare y z) eqn:Hyz; [|intros _|done].
    + apply Ascii.compare_eq_iff in Hyz as <-. by rewrite Hxy.
    + by rewrite (ascii_compare_lt_trans x y z).
Qed.

Lemma string_ltb_trans a b c :
  String.ltb a b = true -> String.ltb b c = true -> String.ltb a c = true.
Proof.
  unfold String.ltb. intros Hab Hbc.
  destruct (String.compare a b) eqn:H1; try done.
  destruct (String.compare b c) eqn:H2; try done.
  by rewrite (string_compare_lt_trans a b c).
Qed.

Lemma string_ltb_trichotomy a b :
  String.ltb a b = false -> a ≠ b -> String.ltb b a = true.
Proof.
  unfold String.ltb. intros Hab Hne.
  rewrite String.compare_antisym.
  destruct (String.compare a b) eqn:H1; try done.
  by apply String.compare_eq_iff in H1.
Qed.

Section SortById.
Import db commands.

Lemma insert_by_id_perm c l : insert_by_id c l ≡ₚ c :: l.
Proof.
  induction l as [|d l IH]; simpl; [done|].
  destruct (String.ltb (ID c) (ID d)); [done|].
  rewrite IH. apply Permutation_swap.
Qed.

Lemma sort_by_id_perm l : sort_by_id l ≡ₚ l.
Proof.
  induction l as [|c l IH]; simpl; [done|].
  by rewrite insert_by_id_perm, IH.
Qed.

Lemma insert_by_id_sorted c l :
  ID c ∉ ID <$> l -> StronglySorted id_before l ->
  StronglySorted id_before (insert_by_id c l).
Proof.
  intros Hc Hs. induction Hs as [|d l Hs IH Hd]; simpl.
  - repeat constructor.
  - destruct (String.ltb (ID c) (ID d)) eqn:Hlt.
    + constructor; [by constructor|].
      constructor; [done|].
      eapply Forall_impl; [exact Hd|]. intros e He.
      by apply (string_ltb_trans _ (ID d)).
    + rewrite fmap_cons, not_elem_of_cons in Hc. destruct Hc as [Hne Hc].
      constructor; [by apply IH|].
      rewrite insert_by_id_perm. constructor; [|done].
      by apply string_ltb_trichotomy.
Qed.

Lemma sort_by_id_sorted l :
  NoDup (ID <$> l) -> StronglySorted id_before (sort_by_id l).
Proof.
  induction l as [|c l IH]; simpl; [constructor|].
  rewrite NoDup_cons. intros [Hc Hl].
  apply insert_by_id_sorted; [|by apply IH].
  by rewrite sort_by_id_perm.
Qed.

End SortById.

(** ** [descendants] *)

Section Descendants.
Import db commands.

Lemma descendants_inner (cs : list Comment) : forall (res : list Comment) (q : list string),
  foldl (fun '(res, q) c => (res ++ [c], q ++ [ID c])) (res, q) cs
  = (res ++ cs, q ++ (ID <$> cs)).
Proof.
  induction cs as [|c cs IH]; intros res q; simpl.
  - by rewrite !app_nil_r.
  - rewrite IH, <- !app_assoc. done.
Qed.

Lemma descendants_loop_step fuel m x q res :
  descendants_loop (S fuel) m (x :: q) res
  = descendants_loop fuel m (q ++ (ID <$> default [] (m !! x)))
                     (res ++ default [] (m !! x)).
Proof. simpl. by rewrite descendants_inner. Qed.

(** Depth: a descendant of [p] needs more steps to its root than [p]. *)
Lemma descendant_climbs (rows : list Comment) p c n r :
  NoDup (ID <$> rows) -> p ∈ rows -> descendant rows (ID p) c ->
  climbs (buildIDMap rows) p n r ->
  exists k, climbs (buildIDMap rows) c (S (n + k)) r.
Proof.
  intros Hnd Hp Hd Hn.
  induction Hd as [c Hc Hpc|q c Hqd [k IH] Hc Hqc].
  - exists 0%nat. rewrite Nat.add_0_r. eapply climbs_step; [done| |done].
    by apply buildIDMap_lookup.
  - exists (S k). rewrite Nat.add_succ_r. eapply climbs_step; [done| |exact IH].
    apply buildIDMap_lookup; [done|]. split; [|done]. by eapply descendant_elem.
Qed.

Lemma forest_climbs (rows : list Comment) c :
  NoDup (ID <$> rows) -> forest rows -> c ∈ rows ->
  exists n r, climbs (buildIDMap rows) c n r.
Proof.
  intros Hnd Hf Hc. destruct (Hf c Hc) as [Hroot|(r & Hr & Hroot & Hd)].
  - exists 0%nat, c. by apply climbs_root.
  - destruct (descendant_climbs rows r c 0 r Hnd Hr Hd) as [k Hk];
      [by apply climbs_root|eauto].
Qed.

(** In a forest with unique keys no comment is below itself. *)
Lemma no_self_descendant (rows : list Comment) c :
  NoDup (ID <$> rows) -> forest rows -> c ∈ rows -> ~ descendant rows (ID c) c.
Proof.
  intros Hnd Hf Hc Hd.
  destruct (forest_climbs rows c Hnd Hf Hc) as (n & r & Hn).
  destruct (descendant_climbs rows c c n r Hnd Hc Hd Hn) as [k Hk].
  destruct (climbs_fun _ _ _ _ _ _ Hn Hk) as [Heq _]. lia.
Qed.

Lemma NoDup_rows (rows : list Comment) : NoDup (ID <$> rows) -> NoDup rows.
Proof. apply NoDup_fmap_1. Qed.

(** The loop, from a state where the rows of [done] have been taken off the
    queue and the rows of [pending] wait in it. *)
Lemma descendants_loop_spec (rows : list Comment) id :
  NoDup (ID <$> rows) -> forest rows ->
  forall fuel done pending,
    NoDup (done ++ pending) ->
    (forall e, e ∈ done ++ pending <->
               e ∈ rows /\ (ParentID e = Some id \/
                            exists p, p ∈ done /\ ParentID e = Some (ID p))) ->
    (forall e, e ∈ done ++ pending -> descendant rows id e) ->
    (length rows <= fuel + length done)%nat ->
    exists res,
      descendants_loop fuel (buildChildrenMap rows) (ID <$> pending) (done ++ pending)
      = Some res /\
      NoDup res /\ forall e, e ∈ res <-> descendant rows id e.
Proof.
  intros Hnd Hf fuel.
  induction fuel as [|fuel IH]; intros done pending Hnodup Hin Hdesc Hfuel.
  - destruct pending as [|c pending].
    + exists done. rewrite app_nil_r in *. simpl. split; [done|]. split; [done|].
      intros e. split; [apply Hdesc|].
      induction 1 as [e He Hp|p e _ IHp He Hp]; apply Hin; eauto.
    + exfalso.
      assert (length (done ++ c :: pending) <= length rows)%nat as Hlen.
      { apply submseteq_length, NoDup_submseteq; [done|].
        intros e He. by apply Hin in He as [He _]. }
      rewrite length_app in Hlen. simpl in *. lia.
  - destruct pending as [|c pending].
    + exists done. rewrite app_nil_r in *. simpl. split; [done|]. split; [done|].
      intros e. split; [apply Hdesc|].
      induction 1 as [e He Hp|p e _ IHp He Hp]; apply Hin; eauto.
    + rewrite fmap_cons, descendants_loop_step, children_lookup.
      set (cs := filter (fun e => ParentID e = Some (ID c)) rows).
      assert (Hc : c ∈ rows).
      { apply (proj1 (Hin c)). apply elem_of_app. right. left. }
      assert (Hcd : descendant rows id c).
      { apply Hdesc. apply elem_of_app. right. left. }
      assert (Hfresh : forall e, e ∈ cs -> e ∉ done ++ c :: pending).
      { intros e He Hold. apply list_elem_of_filter in He as [Hpe Her].
        apply Hin in Hold as [_ [Hid|(p & Hp & Hpp)]].
        - assert (ID c = id) by congruence. subst id.
          by apply (no_self_descendant rows c).
        - assert (p = c) as ->.
          { apply (NoDup_ID_eq rows); [done| |done|congruence].
            apply (proj1 (Hin p)). apply elem_of_app. by left. }
          apply NoDup_app in Hnodup as (_ & Hdisj & _).
          apply (Hdisj c Hp). left. }
      replace ((done ++ c :: pending) ++ cs) with ((done ++ [c]) ++ (pending ++ cs))
        by (by rewrite <- !app_assoc).
      rewrite <- fmap_app.
      apply IH.
      * replace ((done ++ [c]) ++ pending ++ cs) with ((done ++ c :: pending) ++ cs)
          by (by rewrite <- !app_assoc).
        apply NoDup_app. split; [done|]. split.
        { intros e He Hcs. by apply (Hfresh e). }
        { apply NoDup_filter. by apply NoDup_rows. }
      * intros e.
        replace ((done ++ [c]) ++ pending ++ cs) with ((done ++ c :: pending) ++ cs)
          by (by rewrite <- !app_assoc).
        rewrite elem_of_app, Hin. unfold cs. rewrite list_elem_of_filter. split.
        { intros [[He [Hid|(p & Hp & Hpp)]]|[Hpe He]]; (split; [done|]).
          - by left.
          - right. exists p. split; [apply elem_of_app; by left|done].
          - right. exists c. split; [apply elem_of_app; right; left|done]. }
        { intros [He [Hid|(p & Hp & Hpp)]]; [left; auto|].
          apply elem_of_app in Hp as [Hp|Hp]; [left; eauto|].
          apply list_elem_of_singleton in Hp as ->. right. auto. }
      * intros e.
        replace ((done ++ [c]) ++ pending ++ cs) with ((done ++ c :: pending) ++ cs)
          by (by rewrite <- !app_assoc).
        rewrite elem_of_app. intros [He|He]; [by apply Hdesc|].
        apply list_elem_of_filter in He as [Hpe He].
        by eapply desc_step.
      * rewrite length_app. simpl. lia.
Qed.


Lemma descendants_thread (rows : list Comment) (id : string) (fuel : nat) :
  NoDup (ID <$> rows) -> forest rows -> (length rows < fuel)%nat ->
  exists ds,
    descendants fuel (buildChildrenMap rows) id = Some ds /\
    StronglySorted id_before ds /\
    NoDup ds /\
    forall c, c ∈ ds <-> descendant rows id c.
Proof.
  intros Hnd Hf Hfuel. destruct fuel as [|fuel]; [lia|].
  unfold descendants.
  rewrite descendants_loop_step, children_lookup. simpl.
  set (cs := filter (fun e => ParentID e = Some id) rows).
  destruct (descendants_loop_spec rows id Hnd Hf fuel [] cs) as (res & Hres & Hnodup & Hin).
  - simpl. apply NoDup_filter. by apply NoDup_rows.
  - intros e. simpl. unfold cs. rewrite list_elem_of_filter. split.
    + intros [Hp He]. auto.
    + intros [He [Hp|(p & Hp & _)]]; [done|]. by apply elem_of_nil in Hp.
  - intros e. simpl. unfold cs. rewrite list_elem_of_filter. intros [Hp He].
    by apply desc_child.
  - simpl. lia.
  - simpl in Hres. rewrite Hres. simpl. eexists. split; [done|].
    assert (Hids : NoDup (ID <$> res)).
    { apply (NoDup_fmap_2_strong ID); [|done].
      intros x y Hx Hy. apply (NoDup_ID_eq rows); [done| |].
      - by eapply descendant_elem, Hin.
      - by eapply descendant_elem, Hin. }
    split; [by apply sort_by_id_sorted|]. split.
    + by rewrite sort_by_id_perm.
    + intros c. by rewrite sort_by_id_perm.
Qed.

(** More fuel does not change a result. *)
Lemma descendants_loop_more fuel : forall m queue result res fuel',
  descendants_loop fuel m queue result = Some res ->
  (fuel <= fuel')%nat ->
  descendants_loop fuel' m queue result = Some res.
Proof.
  induction fuel as [|fuel IH]; intros m queue result res fuel' Hrun Hle.
  - destruct queue; [|done]. by destruct fuel'.
  - destruct queue as [|x queue]; [by destruct fuel'|].
    destruct fuel' as [|fuel']; [lia|].
    rewrite descendants_loop_step in *. eapply IH; [done|lia].
Qed.

End Descendants.

(** X2. In a table with unique keys that is a forest, [descendants]
    over the children map of the table returns as soon as the fuel exceeds
    the number of rows; its result lists exactly the comments below [id],
    each once, in the byte order of their keys, and it is the only list that
    does. More fuel gives the same result. *)
Theorem descendants_lists_thread_in_key_order
        (rows : list db.Comment) (id : string) (fuel : nat) :
  NoDup (db.ID <$> rows) ->
  forest rows ->
  (length rows < fuel)%nat ->
  exists ds,
    commands.descendants fuel (commands.buildChildrenMap rows) id = Some ds /\
    StronglySorted id_before ds /\
    NoDup ds /\
    (forall c, c ∈ ds <-> descendant rows id c) /\
    (forall ds', StronglySorted id_before ds' -> NoDup ds' ->
                 (forall c, c ∈ ds' <-> descendant rows id c) -> ds' = ds) /\
    (forall fuel', (fuel <= fuel')%nat ->
       commands.descendants fuel' (commands.buildChildrenMap rows) id = Some ds).
Proof.
  intros Hnd Hf Hfuel.
  destruct (descendants_thread rows id fuel Hnd Hf Hfuel) as (ds & Hds & Hs & Hn & Hin).
  exists ds. repeat split; try done; try by apply Hin.
  - intros ds' Hs' Hn' Hin'.
    apply (StronglySorted_unique_strong id_before); [|done|done|].
    + intros x y Hx Hy Hxy Hyx. unfold id_before in *.
      assert (String.ltb (db.ID x) (db.ID x) = true) as Hxx
          by (by apply (string_ltb_trans _ (db.ID y))).
      unfold String.ltb in Hxx.
      destruct (String.compare (db.ID x) (db.ID x)) eqn:Hc; try done.
      pose proof (String.compare_antisym (db.ID x) (db.ID x)) as Ha.
      rewrite Hc in Ha. discriminate Ha.
    + apply NoDup_Permutation; [done|done|]. intros c. by rewrite Hin, Hin'.
  - intros fuel' Hle. unfold commands.descendants in *.
    destruct (commands.descendants_loop fuel _ _ _) as [res|] eqn:Hres; [|done].
    by rewrite (descendants_loop_more _ _ _ _ _ _ Hres Hle).
Qed.

Lemma descendants_lists_thread_in_key_order_witness :
  exists ds,
    commands.descendants 6 (commands.buildChildrenMap (db.comments sample_store))
                          "01-root" = Some ds /\
    forall c, c ∈ ds <-> descendant (db.comments sample_store) "01-root" c.
Proof.
  destruct (descendants_lists_thread_in_key_order
              (db.comments sample_store) "01-root" 6
              sample_rows_nodup sample_rows_forest ltac:(simpl; lia))
    as (ds & Hds & _ & _ & Hin & _).
  by exists ds.
Defined.

Example descendants_of_sample_root :
  commands.descendants 6 (commands.buildChildrenMap (db.comments sample_store)) "01-root"
  = Some [mk_comment "02-reply" (Some "01-root") "aaa111" "reply 1" "bob";
          mk_comment "03-reply" (Some "01-root") "aab222" "reply 2" "carol";
          mk_comment "04-grand" (Some "02-reply") "aaa111" "grandchild" "bob"].
Proof. vm_compute. reflexivity. Qed.

(** ** [buildCommitNotes] *)

Section Notes.
Import db commands.

Lemma reply_lines sha (ds : list Comment) : forall notes,
  foldl (fun notes r =>
           let rAuthorTag := authorSuffix (CreatedBy r) in
           let commitTag :=
             if negb (String.eqb (CommitSHA r) sha)
             then "(" +:+ ShortSHA (CommitSHA r) +:+ ") " else "" in
           notes ++ ["  " +:+ commitTag +:+ Body r +:+ rAuthorTag]) notes ds
  = notes ++ (reply_note sha <$> ds).
Proof.
  induction ds as [|r ds IH]; intros notes; simpl; [by rewrite app_nil_r|].
  rewrite IH, <- app_assoc. simpl. unfold reply_note at 2, authorSuffix.
  by destruct (String.eqb (CommitSHA r) sha).
Qed.

Lemma root_line (c : Comment) notes :
  match File c with
  | Some f =>
      let lr := FormatLineRange (StartLine c) (EndLine c) in
      let loc := if negb (String.eqb lr "") then f +:+ ":" +:+ lr else f in
      notes ++ [loc +:+ " -- " +:+ Body c +:+ authorSuffix (CreatedBy c)]
  | None => notes ++ [Body c +:+ authorSuffix (CreatedBy c)]
  end = notes ++ [root_note c].
Proof.
  unfold root_note, authorSuffix. destruct (File c); [|done]. simpl.
  by destruct (String.eqb (FormatLineRange (StartLine c) (EndLine c)) "").
Qed.

Lemma commitNotes_loop_spec (rows : list Comment) sha fuel :
  NoDup (ID <$> rows) -> forest rows -> (length rows < fuel)%nat ->
  forall tops notes,
  exists threads,
    Forall2 (thread_of rows) tops threads /\
    commitNotes_loop fuel (buildChildrenMap rows) sha tops notes
    = Some (notes ++ concat (zip_with (thread_note sha) tops threads)).
Proof.
  intros Hnd Hf Hfuel tops.
  induction tops as [|r tops IH]; intros notes.
  - exists []. split; [constructor|]. simpl. by rewrite app_nil_r.
  - simpl. rewrite root_line.
    destruct (descendants_thread rows (ID r) fuel Hnd Hf Hfuel)
      as (ds & Hds & Hsorted & _ & Hin).
    rewrite Hds. simpl. rewrite reply_lines.
    destruct (IH ((notes ++ [root_note r]) ++ (reply_note sha <$> ds)))
      as (threads & Hthreads & Hloop).
    exists (ds :: threads). split; [by constructor|].
    rewrite Hloop. simpl. unfold thread_note at 2.
    by rewrite <- !app_assoc.
Qed.

End Notes.

(** X3. The note of a commit. When no top-level comment is on the
    commit the note is empty, whatever the children map. Over the children
    map of a table with unique keys that is a forest, the note is made of
    the threads of the top-level comments on the commit, in table order:
    for each the line of the root, then one line for every comment below it,
    in key order; the lines are joined by newlines. *)
Theorem note_holds_the_threads_of_the_commit
        (rows : list db.Comment) (sha : string) (fuel : nat) :
  (forall m,
      (forall c, c ∈ rows -> db.CommitSHA c = sha -> db.ParentID c ≠ None) ->
      commands.buildCommitNotes fuel rows m sha = Some "") /\
  (NoDup (db.ID <$> rows) -> forest rows -> (length rows < fuel)%nat ->
   let tops := filter (fun c => db.CommitSHA c = sha /\ db.ParentID c = None) rows in
   exists threads,
     Forall2 (thread_of rows) tops threads /\
     commands.buildCommitNotes fuel rows (commands.buildChildrenMap rows) sha
     = Some (strings_Join (concat (zip_with (thread_note sha) tops threads))
                          (String "010"%char ""))).
Proof.
  split.
  - intros m Hnone. unfold commands.buildCommitNotes.
    destruct (filter _ rows) as [|c tops] eqn:Htops; [done|].
    exfalso. assert (Hc : c ∈ filter (fun c => db.CommitSHA c = sha /\ db.ParentID c = None) rows)
      by (rewrite Htops; left).
    apply list_elem_of_filter in Hc as [[Hsha Hroot] Hc]. by apply (Hnone c).
  - intros Hnd Hf Hfuel tops. unfold commands.buildCommitNotes. fold tops.
    destruct (commitNotes_loop_spec rows sha fuel Hnd Hf Hfuel tops [])
      as (threads & Hthreads & Hloop).
    exists threads. split; [done|]. by rewrite Hloop.
Qed.

Lemma note_holds_the_threads_of_the_commit_witness :
  exists threads,
    Forall2 (thread_of (db.comments sample_store))
            [mk_comment "05-other" None "aab222" "other root" "carol"] threads /\
    commands.buildCommitNotes 6 (db.comments sample_store)
      (commands.buildChildrenMap (db.comments sample_store)) "aab222"
    = Some (strings_Join
              (concat (zip_with (thread_note "aab222")
                         [mk_comment "05-other" None "aab222" "other root" "carol"]
                         threads))
              (String "010"%char "")).
Proof.
  exact (proj2 (note_holds_the_threads_of_the_commit (db.comments sample_store) "aab222" 6)
               sample_rows_nodup sample_rows_forest ltac:(simpl; lia)).
Defined.

Example note_of_sample_commit :
  commands.buildCommitNotes 6
    (db.comments sample_store ++
       [{| db.ID := "06-file"; db.ParentID := None; db.CommitSHA := "aaa111";
           db.File := Some "app.js"; db.StartLine := Some 10; db.EndLine := Some 35;
           db.Body := "on a range"; db.ResolvedAt := None; db.ResolvedBy := None;
           db.CreatedAt := "2024-01-02T00:00:00Z"; db.CreatedBy := "" |}])
    (commands.buildChildrenMap (db.comments sample_store)) "aaa111"
  = Some ("root @alice" +:+ String "010"%char
          ("  reply 1 @bob" +:+ String "010"%char
           ("  (aab222) reply 2 @carol" +:+ String "010"%char
            ("  grandchild @bob" +:+ String "010"%char
             "app.js:10-35 -- on a range")))).
Proof. vm_compute. reflexivity. Qed.

(** ** Looking rows up by a prefix *)

Section Like.
Import db.

Lemma like_percent pat s :
  like (String "%" pat) s
  = like pat s || match s with
                  | EmptyString => false
                  | String _ t => like (String "%" pat) t
                  end.
Proof. destruct s; reflexivity. Qed.

Lemma like_char p pat c s :
  p ≠ "%"%char ->
  like (String p pat) (String c s)
  = (Ascii.eqb p "_"%char || Ascii.eqb (fold_case p) (fold_case c)) && like pat s.
Proof.
  intros Hp. simpl. destruct (Ascii.eqb p "%") eqn:E; [|done].
  by apply Ascii.eqb_eq in E.
Qed.

(** The pattern [%] matches every string. *)
Lemma like_any s : like "%" s = true.
Proof.
  induction s as [|c s IH]; [done|].
  rewrite like_percent, IH. apply orb_true_r.
Qed.

(** A string matches itself followed by anything, wildcards or not. *)
Lemma like_prefix_literal p : forall s, like_prefix p (p +:+ s) = true.
Proof.
  unfold like_prefix.
  induction p as [|c p IH]; intros s.
  - apply like_any.
  - change (like (String c (p +:+ "%")) (String c (p +:+ s)) = true).
    destruct (decide (c = "%"%char)) as [->|Hc].
    + rewrite like_percent, like_percent, IH. simpl. apply orb_true_r.
    + rewrite like_char by done. rewrite Ascii.eqb_refl, orb_true_r. apply IH.
Qed.

Lemma prefix_append p : forall s,
  String.prefix p s = true -> exists rest, s = p +:+ rest.
Proof.
  induction p as [|c p IH]; intros s Hp.
  - by exists s.
  - destruct s as [|d s]; [done|]. simpl in Hp.
    destruct (ascii_dec c d) as [->|]; [|done].
    destruct (IH s Hp) as [rest ->]. by exists rest.
Qed.

Lemma like_prefix_of_HasPrefix s p :
  strings_HasPrefix s p = true -> like_prefix p s = true.
Proof.
  unfold strings_HasPrefix. intros Hp.
  destruct (prefix_append p s Hp) as [rest ->]. apply like_prefix_literal.
Qed.

Lemma like_prefix_empty s : like_prefix "" s = true.
Proof. apply like_any. Qed.

End Like.

Section Lookup.
Import db commands.
Context {F : Faults} {E : git.Executor}.

Lemma slice_to_cut (s : string) : forall n, exists rest, s = String.substring 0 n s +:+ rest.
Proof.
  induction s as [|c s IH]; intros n.
  - exists "". by destruct n.
  - destruct n as [|n]; [by exists (String c s)|].
    destruct (IH n) as [rest Hrest]. exists rest. simpl.
    change (String c s = String c (String.substring 0 n s +:+ rest)). by rewrite <- Hrest.
Qed.

Lemma ShortID_prefix id : exists rest, id = ShortID id +:+ rest.
Proof.
  unfold ShortID. destruct (8 <? String.length id)%nat.
  - apply slice_to_cut.
  - exists "". induction id as [|c id IH]; [done|].
    change (String c id = String c (id +:+ "")). by rewrite <- IH.
Qed.

Lemma ShortSHA_prefix sha : exists rest, sha = ShortSHA sha +:+ rest.
Proof.
  unfold ShortSHA. destruct (7 <? String.length sha)%nat.
  - apply slice_to_cut.
  - exists "". induction sha as [|c sha IH]; [done|].
    change (String c sha = String c (sha +:+ "")). by rewrite <- IH.
Qed.

Lemma first_row_filter {A} (P : A -> Prop) `{forall x, Decision (P x)}
      (pre : list A) (c : A) (post : list A) :
  (forall x, x ∈ pre -> ~ P x) -> P c ->
  first_row (filter P (pre ++ c :: post)) = inr c.
Proof.
  intros Hpre Hc. rewrite filter_app.
  assert (filter P pre = []) as ->.
  { induction pre as [|x pre IH]; [done|].
    rewrite filter_cons_False by (apply Hpre; left).
    apply IH. intros y Hy. apply Hpre. by right. }
  simpl. by rewrite filter_cons_True.
Qed.

Lemma first_row_filter_none {A} (P : A -> Prop) `{forall x, Decision (P x)} (l : list A) :
  (forall x, x ∈ l -> ~ P x) -> first_row (filter P l) = inl ENoRows.
Proof.
  intros Hl. induction l as [|x l IH]; [done|].
  rewrite filter_cons_False by (apply Hl; left).
  apply IH. intros y Hy. apply Hl. by right.
Qed.

Lemma first_row_filter_some {A} (P : A -> Prop) `{forall x, Decision (P x)} (l : list A) c :
  c ∈ l -> P c -> exists found, first_row (filter P l) = inr found /\ found ∈ l /\ P found.
Proof.
  intros Hc HP.
  assert (Hin : c ∈ filter P l) by (by apply list_elem_of_filter).
  destruct (filter P l) as [|found rest] eqn:Hf; [by apply elem_of_nil in Hin|].
  exists found. split; [done|].
  assert (Hfound : found ∈ filter P l) by (rewrite Hf; left).
  apply list_elem_of_filter in Hfound as [? ?]. done.
Qed.

Lemma FindCommentByPrefix_first p st pre c post :
  no_faults -> comments st = pre ++ c :: post ->
  (forall x, x ∈ pre -> like_prefix p (ID x) = false) ->
  like_prefix p (ID c) = true ->
  FindCommentByPrefix (Some p) st = inr c.
Proof.
  intros Hnf Hrows Hpre Hc. unfold FindCommentByPrefix.
  rewrite query_no_fault by apply Hnf. rewrite Hrows.
  apply first_row_filter; [|done]. intros x Hx. rewrite (Hpre x Hx). done.
Qed.

Lemma FindCommitBySHAPrefix_first p st pre c post :
  no_faults -> commits st = pre ++ c :: post ->
  (forall x, x ∈ pre -> like_prefix p (Sha x) = false) ->
  like_prefix p (Sha c) = true ->
  FindCommitBySHAPrefix (Some p) st = inr c.
Proof.
  intros Hnf Hrows Hpre Hc. unfold FindCommitBySHAPrefix.
  rewrite query_no_fault by apply Hnf. rewrite Hrows.
  apply first_row_filter; [|done]. intros x Hx. rewrite (Hpre x Hx). done.
Qed.

Lemma FindCommitBySHAPrefix_none p st :
  (forall x, x ∈ commits st -> like_prefix p (Sha x) = false) ->
  exists e, FindCommitBySHAPrefix (Some p) st = inl e.
Proof.
  intros Hnone. unfold FindCommitBySHAPrefix, query.
  destruct (io_fault _ _); [by eexists|].
  rewrite first_row_filter_none; [by eexists|].
  intros x Hx. rewrite (Hnone x Hx). done.
Qed.

End Lookup.

(** X4. The short forms the commands print find their rows again.
    When the storage does not fail, looking a comment up by the short form
    of the key of a row of the table never fails: it finds the first row of
    the table whose key matches, which is that row when no row before it
    matches. The same holds for a commit and the short form of its SHA, and
    for any literal prefix of a key. The empty prefix matches every key: it
    finds the first row of the table. *)
Theorem short_forms_find_their_rows (F : db.Faults) (st : db.Store) :
  no_faults ->
  (forall c, c ∈ db.comments st ->
     exists found,
       db.FindCommentByPrefix (Some (ShortID (db.ID c))) st = inr found /\
       found ∈ db.comments st /\
       db.like_prefix (ShortID (db.ID c)) (db.ID found) = true) /\
  (forall pre c post p,
     db.comments st = pre ++ c :: post ->
     strings_HasPrefix (db.ID c) p = true ->
     (forall x, x ∈ pre -> db.like_prefix p (db.ID x) = false) ->
     db.FindCommentByPrefix (Some p) st = inr c) /\
  (forall cm, cm ∈ db.commits st ->
     exists found,
       db.FindCommitBySHAPrefix (Some (ShortSHA (db.Sha cm))) st = inr found /\
       found ∈ db.commits st /\
       db.like_prefix (ShortSHA (db.Sha cm)) (db.Sha found) = true) /\
  (forall c rest, db.comments st = c :: rest ->
     db.FindCommentByPrefix (Some "") st = inr c).
Proof.
  intros Hnf. repeat split.
  - intros c Hc. unfold db.FindCommentByPrefix. rewrite query_no_fault by apply Hnf.
    destruct (ShortID_prefix (db.ID c)) as [rest Hrest].
    destruct (first_row_filter_some
                (fun x => db.like_prefix (ShortID (db.ID c)) (db.ID x) = true)
                (db.comments st) c Hc) as (found & Hfound & Hin & Hlike).
    { rewrite Hrest at 2. apply like_prefix_literal. }
    by exists found.
  - intros pre c post p Hrows Hp Hpre.
    apply (FindCommentByPrefix_first p st pre c post); try done.
    by apply like_prefix_of_HasPrefix.
  - intros cm Hcm. unfold db.FindCommitBySHAPrefix. rewrite query_no_fault by apply Hnf.
    destruct (ShortSHA_prefix (db.Sha cm)) as [rest Hrest].
    destruct (first_row_filter_some
                (fun x => db.like_prefix (ShortSHA (db.Sha cm)) (db.Sha x) = true)
                (db.commits st) cm Hcm) as (found & Hfound & Hin & Hlike).
    { rewrite Hrest at 2. apply like_prefix_literal. }
    by exists found.
  - intros c rest Hrows.
    apply (FindCommentByPrefix_first "" st [] c rest); try done.
    + intros x Hx. by apply elem_of_nil in Hx.
    + apply like_prefix_empty.
Qed.

Lemma short_forms_find_their_rows_witness :
  db.FindCommentByPrefix (F := sound_storage) (Some "05-other") sample_store
  = inr (mk_comment "05-other" None "aab222" "other root" "carol").
Proof.
  apply (proj1 (proj2 (short_forms_find_their_rows sound_storage sample_store
                         (fun _ _ => eq_refl)))
           [mk_comment "01-root" None "aaa111" "root" "alice";
            mk_comment "02-reply" (Some "01-root") "aaa111" "reply 1" "bob";
            mk_comment "03-reply" (Some "01-root") "aab222" "reply 2" "carol";
            mk_comment "04-grand" (Some "02-reply") "aaa111" "grandchild" "bob"]
           (mk_comment "05-other" None "aab222" "other root" "carol") []).
  - reflexivity.
  - reflexivity.
  - intros x Hx. repeat (apply elem_of_cons in Hx as [->|Hx]); try reflexivity.
    by apply elem_of_nil in Hx.
Defined.

Section JumpLookup.
Import db commands.
Context {F : Faults} {E : git.Executor}.

Lemma ListCommits_ok st :
  no_faults -> ListCommits st = inr (order_by_position (commits st)).
Proof. intros Hnf. unfold ListCommits. by rewrite query_no_fault by apply Hnf. Qed.

Lemma jump_report_ok g target env0 :
  no_faults ->
  exists env1, jump_report g target env0 = (inr tt, env1) /\ store env1 = store env0.
Proof.
  intros Hnf. unfold jump_report. unfold bind at 1. unfold wrap at 1, queryM at 1.
  rewrite ListCommits_ok by done.
  destruct (report_after_jump g (Sha target)
              (fun oneline stat =>
                 emit (Printf "\n" []) ;;
                 emit (Printf "  %s [%d/%d] %s\n"
                              [ABold "→"; AInt (wrap64 (Position target + 1));
                               AInt (Z.of_nat (length (order_by_position
                                                         (commits (store env0)))));
                               AStr oneline]) ;;
                 if String.eqb stat "" then ret tt
                 else emit (Printf "\n%s\n" [AStr stat])) env0) as [out ->].
  { intros a b env1. apply print_position_total. }
  eexists. split; [done|]. done.
Qed.

Lemma JumpCmd_Run_found g hash env target :
  requireActive env = (inr tt, env) ->
  FindCommitBySHAPrefix (Some hash) (store env) = inr target ->
  JumpCmd_Run g hash env
  = (jumpTo g (git.Reviewer g) target ;; jump_report g target) env.
Proof.
  intros Hreq Hfind. unfold JumpCmd_Run. unfold bind at 1. rewrite Hreq.
  unfold bind at 1. unfold or_fail at 1, queryM at 1. rewrite Hfind. done.
Qed.

End JumpLookup.

(** X5. [jump] in an active session. When no SHA of the table matches
    the hash followed by anything, whether the storage fails or not, [jump]
    answers "commit not found" and nothing has happened. When the storage does
    not fail, its target is the first commit of the table whose SHA matches:
    it navigates there and then reports, and the report cannot fail or
    write. The match is SQL's: a literal prefix always matches, and letters
    match in either case. *)
Theorem jump_goes_to_first_match
        (F : db.Faults) (E : git.Executor) (g : git.Git) (hash : string) (env : Env) :
  commands.requireActive env = (inr tt, env) ->
  ((forall cm, cm ∈ db.commits (store env) -> db.like_prefix hash (db.Sha cm) = false) ->
   commands.JumpCmd_Run g hash env = (inl (ENew "commit not found"), env)) /\
  (no_faults ->
   forall pre cm post,
     db.commits (store env) = pre ++ cm :: post ->
     (forall x, x ∈ pre -> db.like_prefix hash (db.Sha x) = false) ->
     db.like_prefix hash (db.Sha cm) = true ->
     commands.JumpCmd_Run g hash env
     = (commands.jumpTo g (git.Reviewer g) cm ;; jump_report g cm) env /\
     forall env0, exists env1,
         jump_report g cm env0 = (inr tt, env1) /\ store env1 = store env0) /\
  (forall sha, strings_HasPrefix sha hash = true -> db.like_prefix hash sha = true).
Proof.
  intros Hreq. split; [|split].
  - intros Hnone. destruct (FindCommitBySHAPrefix_none hash (store env) Hnone) as [e He].
    unfold commands.JumpCmd_Run. unfold bind at 1. rewrite Hreq.
    unfold bind at 1. unfold or_fail at 1, queryM at 1. by rewrite He.
  - intros Hnf pre cm post Hrows Hpre Hcm. split.
    + apply JumpCmd_Run_found; [done|].
      by apply (FindCommitBySHAPrefix_first hash (store env) pre cm post).
    + intros env0. by apply jump_report_ok.
  - intros sha. apply like_prefix_of_HasPrefix.
Qed.

Lemma jump_goes_to_first_match_witness :
  commands.JumpCmd_Run (F := sound_storage) (E := git_quiet) main_worktree "AAB" sample_env
  = (commands.jumpTo (F := sound_storage) (E := git_quiet) main_worktree ""
       {| db.Sha := "aab222"; db.Message := "two"; db.Position := 1 |} ;;
     jump_report (F := sound_storage) (E := git_quiet) main_worktree
       {| db.Sha := "aab222"; db.Message := "two"; db.Position := 1 |}) sample_env.
Proof.
  apply (proj1 (proj2 (jump_goes_to_first_match sound_storage git_quiet main_worktree
                         "AAB" sample_env eq_refl))
           (fun _ _ => eq_refl)
           [{| db.Sha := "aaa111"; db.Message := "one"; db.Position := 0 |}]
           {| db.Sha := "aab222"; db.Message := "two"; db.Position := 1 |}
           [{| db.Sha := "ccc333"; db.Message := "three"; db.Position := 2 |}]).
  - reflexivity.
  - intros x Hx. apply list_elem_of_singleton in Hx as ->. reflexivity.
  - reflexivity.
Defined.

(** ** Resolving and reopening *)

Section Resolve.
Import db commands.
Context {F : Faults} {E : git.Executor}.

Lemma requireActive_session env :
  no_faults -> requireActive env = (inr tt, env) -> session (store env) ≠ [].
Proof.
  intros Hnf. unfold requireActive, bind, wrap, queryM, SessionExists.
  rewrite query_no_fault by apply Hnf.
  destruct (session (store env)); [|done]. simpl. done.
Qed.

Lemma fmap_fixed {A} (f : A -> A) (l : list A) :
  f <$> l = l -> forall x, x ∈ l -> f x = x.
Proof.
  induction l as [|a l IH]; intros Heq x Hx; [by apply elem_of_nil in Hx|].
  injection Heq as Ha Hl. apply elem_of_cons in Hx as [->|Hx]; auto.
Qed.

Lemma ResolveCmd_Run_success g c now env env' :
  ResolveCmd_Run g c now env = (inr tt, env') ->
  exists comment,
    requireActive env = (inr tt, env) /\
    FindCommentByPrefix (Some (ResolveID c)) (store env) = inr comment /\
    ParentID comment = None /\ ResolvedAt comment = None /\
    store env' =
      with_comments
        (resolved_as (ID comment) now
                     (if String.eqb (ResolveName c) "" then git.Reviewer g
                      else ResolveName c)
           <$> comments (store env)) (store env) /\
    trace env' = trace env /\
    output env' = output env ++ [Ok "Resolved [%s]" [AStr (ShortID (ID comment))]].
Proof.
  unfold ResolveCmd_Run. unfold bind at 1.
  destruct (requireActive env) as [[e|[]] env0] eqn:Hreq;
    apply requireActive_store in Hreq as Heq; subst env0; [done|].
  unfold bind at 1. unfold or_fail, queryM.
  destruct (FindCommentByPrefix (Some (ResolveID c)) (store env)) as [e|comment] eqn:Hfind;
    [done|].
  case_bool_decide as Hp; [done|].
  case_bool_decide as Hres; [done|].
  unfold bind, wrap, execM, emit, ResolveComment, query.
  destruct (io_fault _ _); [done|]. simpl. intros [= <-]. simpl.
  exists comment. split; [done|]. split; [done|].
  split; [by destruct (ParentID comment); [destruct Hp; eauto|]|].
  split; [by destruct (ResolvedAt comment); [destruct Hres; eauto|]|].
  split; [|done]. f_equal. apply list_fmap_ext. intros _ x _. unfold resolved_as.
  destruct (decide (ID x = ID comment /\ ParentID x = None)) as [[H1 H2]|Hno].
  - by rewrite !bool_decide_eq_true_2.
  - destruct (bool_decide (ID x = ID comment)) eqn:B1; [|done].
    destruct (bool_decide (ParentID x = None)) eqn:B2; [|done].
    apply bool_decide_eq_true in B1, B2. tauto.
Qed.

Lemma ResolveCmd_Run_total g c now env comment :
  requireActive env = (inr tt, env) ->
  io_fault SResolveComment (store env) = false ->
  FindCommentByPrefix (Some (ResolveID c)) (store env) = inr comment ->
  ParentID comment = None -> ResolvedAt comment = None ->
  exists env', ResolveCmd_Run g c now env = (inr tt, env').
Proof.
  intros Hreq Hio Hfind Hp Hres. unfold ResolveCmd_Run. unfold bind at 1. rewrite Hreq.
  unfold bind at 1. unfold or_fail, queryM. rewrite Hfind, Hp, Hres.
  rewrite !bool_decide_eq_false_2 by (by intros [? ?]).
  unfold bind, wrap, execM, emit, ResolveComment, query. rewrite Hio. simpl.
  by eexists.
Qed.

Lemma filter_fmap_same (f : Comment -> Comment) (P : Comment -> Prop)
      `{forall x, Decision (P x)} (rows : list Comment) :
  (forall x, P (f x) <-> P x) ->
  filter P (f <$> rows) = f <$> filter P rows.
Proof.
  intros Hid. induction rows as [|x rows IH]; [done|].
  rewrite fmap_cons. destruct (decide (P x)) as [HP|HP].
  - rewrite !filter_cons_True by (by rewrite ?Hid). by rewrite fmap_cons, IH.
  - rewrite !filter_cons_False by (by rewrite ?Hid). done.
Qed.

Lemma first_row_fmap {A B} (f : A -> B) (l : list A) x :
  first_row l = inr x -> first_row (f <$> l) = inr (f x).
Proof. destruct l; [done|]. by intros [= ->]. Qed.

Lemma ID_resolved_as id at_ by_ x : ID (resolved_as id at_ by_ x) = ID x.
Proof. unfold resolved_as. by destruct (decide _). Qed.

Lemma with_comments_same st : with_comments (comments st) st = st.
Proof. by destruct st. Qed.

Lemma comments_with_comments v st : comments (with_comments v st) = v.
Proof. done. Qed.

Lemma with_comments_twice v w st :
  with_comments v (with_comments w st) = with_comments v st.
Proof. done. Qed.

End Resolve.

(** X6. A successful [resolve] has found a root that was not
    resolved and marks exactly that row: resolved at the given time, by the
    name given or else the worktree's; every other row, and every other
    table, is as before, and git was not run. In an active session whose
    storage does not fail on the update, resolving a root that is not
    resolved succeeds. *)
Theorem resolve_marks_the_root_only
        (F : db.Faults) (g : git.Git) (c : commands.ResolveCmd) (now : string) (env : Env) :
  (forall env',
      commands.ResolveCmd_Run g c now env = (inr tt, env') ->
      exists comment,
        db.FindCommentByPrefix (Some (commands.ResolveID c)) (store env) = inr comment /\
        db.ParentID comment = None /\ db.ResolvedAt comment = None /\
        db.comments (store env')
        = resolved_as (db.ID comment) now
                      (if String.eqb (commands.ResolveName c) "" then git.Reviewer g
                       else commands.ResolveName c)
            <$> db.comments (store env) /\
        db.session (store env') = db.session (store env) /\
        db.commits (store env') = db.commits (store env) /\
        db.reviewers (store env') = db.reviewers (store env) /\
        trace env' = trace env /\
        forall x, x ∈ db.comments (store env) -> x ≠ comment ->
                  NoDup (db.ID <$> db.comments (store env)) ->
                  x ∈ db.comments (store env')) /\
  (forall comment,
      commands.requireActive env = (inr tt, env) ->
      db.io_fault db.SResolveComment (store env) = false ->
      db.FindCommentByPrefix (Some (commands.ResolveID c)) (store env) = inr comment ->
      db.ParentID comment = None -> db.ResolvedAt comment = None ->
      exists env', commands.ResolveCmd_Run g c now env = (inr tt, env')).
Proof.
  split.
  - intros env' Hrun.
    apply ResolveCmd_Run_success in Hrun
      as (comment & _ & Hfind & Hp & Hres & Hst & Htrace & _).
    exists comment. rewrite Hst. simpl. repeat split; try done.
    intros x Hx Hne Hnd. apply list_elem_of_fmap. exists x. split; [|done].
    unfold resolved_as. rewrite decide_False; [done|]. intros [Hid _].
    apply Hne. apply (NoDup_ID_eq (db.comments (store env))); try done.
    by eapply FindCommentByPrefix_elem.
  - intros comment. apply ResolveCmd_Run_total.
Qed.

Lemma resolve_marks_the_root_only_witness :
  exists env',
    commands.ResolveCmd_Run (F := sound_storage) main_worktree
      {| commands.ResolveID := "05"; commands.ResolveName := "dave" |}
      "2024-01-03T00:00:00Z" sample_env = (inr tt, env').
Proof.
  apply (proj2 (resolve_marks_the_root_only sound_storage main_worktree
                  {| commands.ResolveID := "05"; commands.ResolveName := "dave" |}
                  "2024-01-03T00:00:00Z" sample_env)
           (mk_comment "05-other" None "aab222" "other root" "carol"));
    reflexivity.
Defined.

(** X7. Resolving and then reopening with the same id gives the
    store back: when the storage does not fail, the keys are unique and no
    open row names a resolver, a successful [resolve] has changed the
    comments table, and [unresolve] after it succeeds and leaves every
    table as it was before the [resolve]. *)
Theorem unresolve_undoes_resolve
        (F : db.Faults) (g : git.Git) (c : commands.ResolveCmd) (now : string)
        (env env1 : Env) :
  no_faults ->
  NoDup (db.ID <$> db.comments (store env)) ->
  open_rows_unsigned (db.comments (store env)) ->
  commands.ResolveCmd_Run g c now env = (inr tt, env1) ->
  db.comments (store env1) ≠ db.comments (store env) /\
  exists env2,
    commands.UnresolveCmd_Run g (commands.ResolveID c) env1 = (inr tt, env2) /\
    store env2 = store env.
Proof.
  intros Hnf Hnd Hopen Hrun.
  apply ResolveCmd_Run_success in Hrun
    as (comment & Hreq & Hfind & Hp & Hres & Hst & Htrace & Hout).
  set (name := if String.eqb (commands.ResolveName c) "" then git.Reviewer g
               else commands.ResolveName c) in *.
  set (f := resolved_as (db.ID comment) now name) in *.
  assert (Hc : comment ∈ db.comments (store env)) by (by eapply FindCommentByPrefix_elem).
  assert (Hfind1 : db.FindCommentByPrefix (Some (commands.ResolveID c)) (store env1)
                   = inr (f comment)).
  { unfold db.FindCommentByPrefix in *. rewrite query_no_fault in * by apply Hnf.
    rewrite Hst, comments_with_comments. cbv beta iota.
    rewrite (filter_fmap_same f).
    - by apply first_row_fmap.
    - intros x. unfold f. by rewrite ID_resolved_as. }
  assert (Hfc : f comment = db.set_resolution (Some now) (Some name) comment).
  { unfold f, resolved_as. by rewrite decide_True. }
  assert (Hreq1 : commands.requireActive env1 = (inr tt, env1)).
  { apply requireActive_ok; [done|]. rewrite Hst. simpl.
    by apply requireActive_session. }
  split.
  { rewrite Hst, comments_with_comments. intros Hsame.
    pose proof (fmap_fixed f _ Hsame comment Hc) as Hfix.
    rewrite Hfc in Hfix. rewrite <- Hfix in Hres. done. }
  unfold commands.UnresolveCmd_Run. unfold bind at 1. rewrite Hreq1.
  unfold bind at 1. unfold or_fail, queryM. rewrite Hfind1, Hfc. simpl. rewrite Hp.
  rewrite bool_decide_eq_false_2 by (by intros [? ?]).
  unfold bind, wrap, execM, emit, db.UnresolveComment.
  rewrite query_no_fault by apply Hnf. simpl.
  eexists. split; [done|]. simpl. rewrite Hst. rewrite with_comments_twice.
  rewrite comments_with_comments.
  transitivity (db.with_comments (db.comments (store env)) (store env));
    [|apply with_comments_same].
  f_equal. rewrite <- list_fmap_compose.
  transitivity (id <$> db.comments (store env)); [|apply list_fmap_id].
  apply list_fmap_ext. intros i x Hx. simpl.
  apply list_elem_of_lookup_2 in Hx.
  unfold f, resolved_as.
  destruct (decide (db.ID x = db.ID comment /\ db.ParentID x = None)) as [[Hid _]|Hno].
  - simpl. rewrite bool_decide_eq_true_2 by done.
    assert (x = comment) as -> by (by apply (NoDup_ID_eq (db.comments (store env)))).
    pose proof (Hopen comment Hc Hres) as Hby.
    destruct comment. simpl in *. by subst.
  - case_bool_decide as Hid; [|done].
    assert (x = comment) as -> by (by apply (NoDup_ID_eq (db.comments (store env)))).
    tauto.
Qed.

Lemma unresolve_undoes_resolve_witness :
  db.comments (store (commands.ResolveCmd_Run (F := sound_storage) main_worktree
                        {| commands.ResolveID := "05"; commands.ResolveName := "dave" |}
                        "2024-01-03T00:00:00Z" sample_env).2)
  ≠ db.comments sample_store /\
  exists env2,
    commands.UnresolveCmd_Run (F := sound_storage) main_worktree "05"
      (commands.ResolveCmd_Run (F := sound_storage) main_worktree
         {| commands.ResolveID := "05"; commands.ResolveName := "dave" |}
         "2024-01-03T00:00:00Z" sample_env).2 = (inr tt, env2) /\
    store env2 = sample_store.
Proof.
  apply (unresolve_undoes_resolve sound_storage main_worktree
           {| commands.ResolveID := "05"; commands.ResolveName := "dave" |}
           "2024-01-03T00:00:00Z" sample_env _ (fun _ _ => eq_refl) sample_rows_nodup).
  - intros x Hx _. simpl in Hx.
    repeat (apply elem_of_cons in Hx as [->|Hx]); try reflexivity.
    by apply elem_of_nil in Hx.
  - reflexivity.
Defined.

(** ** Adding comments *)

Section Add.
Import db commands.
Context {F : Faults} {E : git.Executor}.

Lemma InsertComment_success p st st' :
  InsertComment p st = inr st' ->
  st' = with_comments (comments st ++ [p]) st /\
  (ID p ∉ ID <$> comments st) /\
  (CommitSHA p ∈ Sha <$> commits st) /\
  (forall q, ParentID p = Some q -> q ∈ ID <$> (comments st ++ [p])).
Proof.
  unfold InsertComment, query. destruct (io_fault _ _); [done|].
  unfold mem, commit_ref_ok, mem.
  case_bool_decide as Hid; [done|].
  case_bool_decide as Hsha; [|done].
  simpl. destruct (ParentID p) as [q|] eqn:Hq.
  - case_bool_decide as Hpar; [|done]. simpl. intros [= <-].
    repeat split; try done. by intros q' [= <-].
  - simpl. intros [= <-]. repeat split; done.
Qed.

(** [add] either fails and leaves everything as it was, or has inserted
    one row: a reply to the comment found, or a top-level comment on the
    commit under the cursor. *)
Lemma AddCmd_Run_cases g c now newID env r env' :
  AddCmd_Run g c now newID env = (r, env') ->
  (is_ok r = false /\ env' = env) \/
  (r = inr tt /\
   requireActive env = (inr tt, env) /\
   trace env' = trace env /\
   exists params,
     InsertComment params (store env) = inr (store env') /\
     ((AddReplyTo c ≠ "" /\
       exists parent,
         FindCommentByPrefix (Some (AddReplyTo c)) (store env) = inr parent /\
         params = reply_row newID now (author_of g c) (AddMessage c) parent) \/
      (AddReplyTo c = "" /\
       exists reviewer sha st en,
         GetReviewer (git.Reviewer g) (store env) = inr reviewer /\
         CurrentSha reviewer = Some sha /\
         parseLineRange (AddLine c) = inr (st, en) /\
         params = root_row newID now (author_of g c) (AddMessage c) sha
                           (AddFile c) st en))).
Proof.
  unfold AddCmd_Run. unfold bind at 1.
  destruct (requireActive env) as [[e|[]] env0] eqn:Hreq;
    apply requireActive_store in Hreq as Heq; subst env0.
  { intros [= <- <-]. by left. }
  fold (author_of g c).
  destruct (String.eqb_spec (AddReplyTo c) "") as [Hmode|Hmode]; simpl negb; cbv iota.
  - unfold bind at 1. unfold bind at 1. unfold wrap at 1, queryM at 1.
    destruct (GetReviewer (git.Reviewer g) (store env)) as [e|reviewer] eqn:Hrev.
    { intros [= <- <-]. by left. }
    destruct (CurrentSha reviewer) as [sha|] eqn:Hsha.
    2: { intros [= <- <-]. by left. }
    destruct (parseLineRange (AddLine c)) as [e|[st en]] eqn:Hparse.
    { intros [= <- <-]. by left. }
    unfold ret at 1. unfold bind at 1. unfold wrap at 1, execM at 1.
    destruct (InsertComment _ (store env)) as [e|st'] eqn:Hins.
    { intros [= <- <-]. by left. }
    intros Hout. right.
    assert (r = inr tt /\ store env' = st' /\ trace env' = trace env) as (-> & <- & Htr).
    { destruct (negb (String.eqb (AddFile c) "")); unfold emit in Hout;
        injection Hout as <- <-; done. }
    split; [done|]. split; [done|]. split; [done|].
    eexists. split; [exact Hins|]. right. split; [done|].
    exists reviewer, sha, st, en. done.
  - unfold bind at 1. unfold bind at 1. unfold or_fail at 1, queryM at 1.
    destruct (FindCommentByPrefix _ (store env)) as [e|parent] eqn:Hfind.
    { intros [= <- <-]. by left. }
    unfold ret at 1. unfold bind at 1. unfold wrap at 1, execM at 1.
    destruct (InsertComment _ (store env)) as [e|st'] eqn:Hins.
    { intros [= <- <-]. by left. }
    unfold emit. intros [= <- <-]. right.
    split; [done|]. split; [done|]. split; [done|].
    eexists. split; [exact Hins|]. left. split; [done|].
    exists parent. done.
Qed.

End Add.

(** X8. A top-level comment lands on the commit under the cursor. A
    successful [add] without reply-to has found the reviewer of the
    worktree with a cursor, has read the line range, and has appended one
    row: no parent, the commit of the cursor, the file when one was given,
    the lines as read; the other tables and the git history are as before.
    A failed one has changed nothing at all. In an active session, a
    reviewer without cursor is told to run next first, and a line range
    that does not parse is refused with the parser's error; and with a
    cursor, a line range that parses, a key that is new, the commit of the
    cursor in the commit table and a store that takes the insertion, [add]
    succeeds and the row is the last of the table. *)
Theorem comment_lands_on_cursor_commit
        (F : db.Faults) (g : git.Git) (c : commands.AddCmd) (now newID : string)
        (env : Env) :
  commands.AddReplyTo c = "" ->
  (forall env',
      commands.AddCmd_Run g c now newID env = (inr tt, env') ->
      exists reviewer sha st en,
        db.GetReviewer (git.Reviewer g) (store env) = inr reviewer /\
        db.CurrentSha reviewer = Some sha /\
        parseLineRange (commands.AddLine c) = inr (st, en) /\
        db.comments (store env')
        = db.comments (store env)
          ++ [root_row newID now (author_of g c) (commands.AddMessage c) sha
                       (commands.AddFile c) st en] /\
        (sha ∈ db.Sha <$> db.commits (store env)) /\
        db.session (store env') = db.session (store env) /\
        db.commits (store env') = db.commits (store env) /\
        db.reviewers (store env') = db.reviewers (store env) /\
        trace env' = trace env) /\
  (forall e env', commands.AddCmd_Run g c now newID env = (inl e, env') -> env' = env) /\
  (forall reviewer,
      commands.requireActive env = (inr tt, env) ->
      db.GetReviewer (git.Reviewer g) (store env) = inr reviewer ->
      (db.CurrentSha reviewer = None ->
       commands.AddCmd_Run g c now newID env
       = (inl (ENew "No commit selected. Run 'git review next' first."), env)) /\
      (forall e, db.CurrentSha reviewer ≠ None ->
                 parseLineRange (commands.AddLine c) = inl e ->
                 commands.AddCmd_Run g c now newID env = (inl e, env))) /\
  (forall reviewer sha st en,
      commands.requireActive env = (inr tt, env) ->
      db.io_fault db.SInsertComment (store env) = false ->
      db.GetReviewer (git.Reviewer g) (store env) = inr reviewer ->
      db.CurrentSha reviewer = Some sha ->
      parseLineRange (commands.AddLine c) = inr (st, en) ->
      newID ∉ db.ID <$> db.comments (store env) ->
      sha ∈ db.Sha <$> db.commits (store env) ->
      exists env',
        commands.AddCmd_Run g c now newID env = (inr tt, env') /\
        db.comments (store env')
        = db.comments (store env)
          ++ [root_row newID now (author_of g c) (commands.AddMessage c) sha
                       (commands.AddFile c) st en]).
Proof.
  intros Hmode. split; [|split; [|split]].
  - intros env' Hrun.
    apply AddCmd_Run_cases in Hrun as [[? _]|(_ & _ & Htr & params & Hins & Hkind)];
      [done|].
    destruct Hkind as [[Hno _]|(_ & reviewer & sha & st & en & Hrev & Hsha & Hparse & ->)];
      [done|].
    apply InsertComment_success in Hins as (Hst & _ & Hcommit & _).
    exists reviewer, sha, st, en. rewrite Hst. by repeat split.
  - intros e env' Hrun. by apply AddCmd_Run_cases in Hrun as [[_ ->]|[? _]].
  - intros reviewer Hreq Hrev. split.
    + intros Hsha. unfold commands.AddCmd_Run. unfold bind at 1. rewrite Hreq.
      rewrite Hmode. simpl negb. cbv iota.
      unfold bind at 1. unfold bind at 1. unfold wrap at 1, queryM at 1.
      by rewrite Hrev, Hsha.
    + intros e Hsha Hparse. unfold commands.AddCmd_Run. unfold bind at 1. rewrite Hreq.
      rewrite Hmode. simpl negb. cbv iota.
      unfold bind at 1. unfold bind at 1. unfold wrap at 1, queryM at 1.
      rewrite Hrev. destruct (db.CurrentSha reviewer); [|done]. by rewrite Hparse.
  - intros reviewer sha st en Hreq Hio Hrev Hsha Hparse Hfresh Hcommit.
    unfold commands.AddCmd_Run. unfold bind at 1. rewrite Hreq.
    rewrite Hmode. simpl negb. cbv iota.
    unfold bind at 1. unfold bind at 1. unfold wrap at 1, queryM at 1.
    rewrite Hrev, Hsha, Hparse. unfold ret at 1. unfold bind at 1.
    unfold wrap, execM, db.InsertComment, db.query. rewrite Hio.
    unfold db.commit_ref_ok, db.mem. simpl db.ID. simpl db.CommitSHA. simpl db.ParentID.
    rewrite (bool_decide_eq_false_2 _ Hfresh), (bool_decide_eq_true_2 _ Hcommit).
    simpl.
    destruct (negb (String.eqb (commands.AddFile c) "")); unfold emit;
      eexists; (split; [reflexivity|]); done.
Qed.

Lemma comment_lands_on_cursor_commit_witness :
  commands.AddCmd_Run (F := sound_storage) main_worktree
    {| commands.AddFile := "app.js"; commands.AddLine := "35,10";
       commands.AddReplyTo := ""; commands.AddAuthor := "";
       commands.AddMessage := "backwards" |}
    "2024-01-02T00:00:00Z" "06-new" sample_env
  = (inl (ENew "invalid line range: start must not exceed end"), sample_env) /\
  (exists env',
     commands.AddCmd_Run (F := sound_storage) main_worktree
       {| commands.AddFile := "app.js"; commands.AddLine := "10,35";
          commands.AddReplyTo := ""; commands.AddAuthor := "";
          commands.AddMessage := "forwards" |}
       "2024-01-02T00:00:00Z" "06-new" sample_env = (inr tt, env') /\
     db.comments (store env')
     = db.comments sample_store
       ++ [{| db.ID := "06-new"; db.ParentID := None; db.CommitSHA := "aaa111";
              db.File := Some "app.js"; db.StartLine := Some 10; db.EndLine := Some 35;
              db.Body := "forwards"; db.ResolvedAt := None; db.ResolvedBy := None;
              db.CreatedAt := "2024-01-02T00:00:00Z"; db.CreatedBy := "" |}]).
Proof.
  split.
  - apply (proj2 (proj1 (proj2 (proj2 (comment_lands_on_cursor_commit
                           sound_storage main_worktree
                           {| commands.AddFile := "app.js"; commands.AddLine := "35,10";
                              commands.AddReplyTo := ""; commands.AddAuthor := "";
                              commands.AddMessage := "backwards" |}
                           "2024-01-02T00:00:00Z" "06-new" sample_env eq_refl)))
                   {| db.Name := ""; db.CurrentSha := Some "aaa111" |} eq_refl eq_refl)).
    + discriminate.
    + reflexivity.
  - apply (proj2 (proj2 (proj2 (comment_lands_on_cursor_commit
                           sound_storage main_worktree
                           {| commands.AddFile := "app.js"; commands.AddLine := "10,35";
                              commands.AddReplyTo := ""; commands.AddAuthor := "";
                              commands.AddMessage := "forwards" |}
                           "2024-01-02T00:00:00Z" "06-new" sample_env eq_refl)))
             {| db.Name := ""; db.CurrentSha := Some "aaa111" |} "aaa111"
             (Some 10) (Some 35)).
    + reflexivity.
    + reflexivity.
    + reflexivity.
    + reflexivity.
    + reflexivity.
    + refine (bool_decide_unpack _ _). vm_compute. exact I.
    + refine (bool_decide_unpack _ _). vm_compute. exact I.
Defined.

(** ** The shape of the comments table is kept *)

Section Shape.
Import db commands.
Context {F : Faults} {E : git.Executor}.

Lemma forest_parents_exist (rows : list Comment) : forest rows -> parents_exist rows.
Proof.
  intros Hf c p Hc Hp. destruct (Hf c Hc) as [Hroot|(r & Hr & _ & Hd)]; [congruence|].
  destruct Hd as [c _ Hpc|q c Hq _ Hpc].
  - assert (p = ID r) as -> by congruence. by apply list_elem_of_fmap_2.
  - assert (p = ID q) as -> by congruence.
    apply list_elem_of_fmap_2. by eapply descendant_elem.
Qed.

Lemma forest_app_root (rows : list Comment) new :
  forest rows -> ParentID new = None -> forest (rows ++ [new]).
Proof.
  intros Hf Hnew c Hc. apply elem_of_app in Hc as [Hc|Hc].
  - destruct (Hf c Hc) as [Hroot|(r & Hr & Hroot & Hd)]; [by left|].
    right. exists r. split; [apply elem_of_app; by left|]. split; [done|].
    eapply descendant_mono; [|done]. intros x Hx. apply elem_of_app. by left.
  - apply list_elem_of_singleton in Hc as ->. by left.
Qed.

Lemma forest_app_reply (rows : list Comment) new parent :
  forest rows -> parent ∈ rows -> ParentID new = Some (ID parent) ->
  forest (rows ++ [new]).
Proof.
  intros Hf Hparent Hnew c Hc.
  assert (Hsub : rows ⊆ rows ++ [new]) by (intros x Hx; apply elem_of_app; by left).
  assert (Hin : new ∈ rows ++ [new]) by (apply elem_of_app; right; left).
  apply elem_of_app in Hc as [Hc|Hc].
  - destruct (Hf c Hc) as [Hroot|(r & Hr & Hroot & Hd)]; [by left|].
    right. exists r. split; [by apply Hsub|]. split; [done|].
    by eapply descendant_mono.
  - apply list_elem_of_singleton in Hc as ->. right.
    destruct (Hf parent Hparent) as [Hroot|(r & Hr & Hroot & Hd)].
    + exists parent. split; [by apply Hsub|]. split; [done|]. by apply desc_child.
    + exists r. split; [by apply Hsub|]. split; [done|].
      eapply desc_step; [|done|done]. by eapply descendant_mono.
Qed.

Lemma descendant_fmap (f : Comment -> Comment) (rows : list Comment) a c :
  (forall x, ID (f x) = ID x) -> (forall x, ParentID (f x) = ParentID x) ->
  descendant rows a c -> descendant (f <$> rows) a (f c).
Proof.
  intros Hid Hparent. induction 1 as [c Hc Hp|p c _ IH Hc Hp].
  - apply desc_child; [by apply list_elem_of_fmap_2|]. by rewrite Hparent.
  - eapply desc_step; [exact IH|by apply list_elem_of_fmap_2|].
    by rewrite Hparent, Hid.
Qed.

Lemma well_formed_fmap (f : Comment -> Comment) (rows : list Comment) :
  (forall x, ID (f x) = ID x) -> (forall x, ParentID (f x) = ParentID x) ->
  well_formed rows -> well_formed (f <$> rows).
Proof.
  intros Hid Hparent [Hnd Hf]. split.
  - rewrite <- list_fmap_compose.
    replace (ID ∘ f <$> rows) with (ID <$> rows); [done|].
    apply list_fmap_ext. intros i x _. simpl. by rewrite Hid.
  - intros c' Hc'. apply list_elem_of_fmap in Hc' as (c & -> & Hc).
    destruct (Hf c Hc) as [Hroot|(r & Hr & Hroot & Hd)].
    + left. by rewrite Hparent.
    + right. exists (f r). split; [by apply list_elem_of_fmap_2|].
      split; [by rewrite Hparent|]. rewrite Hid. by apply descendant_fmap.
Qed.

Lemma cascade_sublist fuel : forall dead (rows : list Comment),
  cascade fuel dead rows `sublist_of` rows.
Proof.
  induction fuel as [|fuel IH]; intros dead rows; simpl; [done|].
  destruct (filter (fun c => refers_to dead c = true) rows); [done|].
  etransitivity; [apply IH|]. apply sublist_filter.
Qed.

Lemma delete_rows_sublist id (rows : list Comment) : delete_rows id rows `sublist_of` rows.
Proof.
  unfold delete_rows. destruct (mem id (ID <$> rows)); [|done].
  etransitivity; [apply cascade_sublist|]. apply sublist_filter.
Qed.

Lemma NoDup_ID_sublist (rows rows' : list Comment) :
  rows' `sublist_of` rows -> NoDup (ID <$> rows) -> NoDup (ID <$> rows').
Proof. intros Hs Hnd. eapply sublist_NoDup; [done|]. by apply fmap_sublist. Qed.

(** Deleting a root with its thread leaves a forest. *)
Lemma delete_root_well_formed (rows : list Comment) t :
  well_formed rows -> t ∈ rows -> ParentID t = None ->
  well_formed (delete_rows (ID t) rows).
Proof.
  intros [Hnd Hf] Ht Hroot.
  assert (Hid : ID t ∈ ID <$> rows) by (by apply list_elem_of_fmap_2).
  split; [by eapply NoDup_ID_sublist; [apply delete_rows_sublist|]|].
  intros c Hc. apply (delete_rows_cascades rows (ID t) c Hid) in Hc as (Hc & Hne & Hnd').
  destruct (Hf c Hc) as [Hcroot|(r & Hr & Hrroot & Hd)]; [by left|].
  right. exists r.
  assert (Hrt : ID r ≠ ID t).
  { intros Heq. apply Hnd'. by rewrite <- Heq. }
  split.
  { apply (delete_rows_cascades rows (ID t) r Hid). split; [done|]. split; [done|].
    intros Hdr. destruct Hdr; congruence. }
  split; [done|].
  clear Hc Hne. induction Hd as [c Hc Hp|p c Hpd IH Hc Hp].
  - apply desc_child; [|done].
    apply (delete_rows_cascades rows (ID t) c Hid). split; [done|]. split; [|done].
    intros Heq. assert (c = t) as -> by (by apply (NoDup_ID_eq rows)). congruence.
  - assert (Hpin : p ∈ rows) by (by eapply descendant_elem).
    assert (Hpt : ID p ≠ ID t).
    { intros Heq. apply Hnd'. apply desc_child; [done|]. by rewrite <- Heq. }
    assert (Hpn : ~ descendant rows (ID t) p).
    { intros Hdp. apply Hnd'. by eapply desc_step. }
    eapply desc_step; [by apply IH| |done].
    apply (delete_rows_cascades rows (ID t) c Hid). split; [done|]. split; [|done].
    intros Heq. assert (c = t) as -> by (by apply (NoDup_ID_eq rows)). congruence.
Qed.

(** Deleting a reply after handing its children to its parent leaves a
    forest. *)
Lemma delete_reply_well_formed (rows : list Comment) t g :
  well_formed rows -> t ∈ rows -> ParentID t = Some g ->
  well_formed (delete_rows (ID t) (reparent (Some g) (Some (ID t)) <$> rows)).
Proof.
  intros [Hnd Hf] Ht Hp.
  assert (Hg : g ≠ ID t).
  { intros ->. apply (no_self_descendant rows t Hnd Hf Ht). by apply desc_child. }
  rewrite delete_rows_childless by (intros c Hc; by eapply reparent_childless).
  set (rows' := filter (fun x => ID x ≠ ID t) (reparent (Some g) (Some (ID t)) <$> rows)).
  split.
  - apply (NoDup_ID_sublist (reparent (Some g) (Some (ID t)) <$> rows));
      [apply sublist_filter|].
    rewrite <- list_fmap_compose.
    replace (ID ∘ reparent (Some g) (Some (ID t)) <$> rows) with (ID <$> rows); [done|].
    apply list_fmap_ext. intros i x _. simpl. by rewrite ID_reparent.
  - intros c' Hc'. apply list_elem_of_filter in Hc' as [Hne Hc'].
    apply list_elem_of_fmap in Hc' as (c & -> & Hc). rewrite ID_reparent in Hne.
    assert (Hroots : forall r, r ∈ rows -> ParentID r = None ->
                               reparent (Some g) (Some (ID t)) r = r /\ r ∈ rows').
    { intros r Hr Hroot.
      assert (Hsame : reparent (Some g) (Some (ID t)) r = r).
      { unfold reparent, parent_is. by rewrite Hroot. }
      split; [done|]. apply list_elem_of_filter. split.
      - intros Heq. assert (r = t) as -> by (by apply (NoDup_ID_eq rows)). congruence.
      - apply list_elem_of_fmap. exists r. done. }
    destruct (Hf c Hc) as [Hroot|(r & Hr & Hroot & Hd)].
    + left. destruct (Hroots c Hc Hroot) as [-> _]. done.
    + right. exists r. destruct (Hroots r Hr Hroot) as [_ Hr'].
      split; [done|]. split; [done|].
      assert (Hrt : ID r ≠ ID t).
      { intros Heq. assert (r = t) as -> by (by apply (NoDup_ID_eq rows)). congruence. }
      pose proof (reparent_keeps_thread rows t g (ID r) c Hnd Ht Hp Hg Hrt Hd) as Hk.
      simpl in Hk. by rewrite decide_False in Hk.
Qed.

Lemma UnresolveCmd_Run_success g id env env' :
  UnresolveCmd_Run g id env = (inr tt, env') ->
  exists comment,
    store env' = with_comments (reopened (ID comment) <$> comments (store env)) (store env).
Proof.
  unfold UnresolveCmd_Run. unfold bind at 1.
  destruct (requireActive env) as [[e|[]] env0] eqn:Hreq;
    apply requireActive_store in Hreq as Heq; subst env0; [done|].
  unfold bind at 1. unfold or_fail, queryM.
  destruct (FindCommentByPrefix (Some id) (store env)) as [e|comment]; [done|].
  case_bool_decide as Hp; [done|].
  case_bool_decide as Hres; simpl; [|done].
  unfold bind, wrap, execM, emit, UnresolveComment, query.
  destruct (io_fault _ _); [done|]. simpl. intros [= <-]. simpl.
  exists comment. f_equal. apply list_fmap_ext. intros _ c _. unfold reopened.
  case_bool_decide; [by rewrite decide_True | by rewrite decide_False].
Qed.

Lemma ResolveCmd_Run_failure g c now env e env' :
  ResolveCmd_Run g c now env = (inl e, env') -> env' = env.
Proof.
  unfold ResolveCmd_Run. unfold bind at 1.
  destruct (requireActive env) as [[e0|[]] env0] eqn:Hreq;
    apply requireActive_store in Hreq as Heq; subst env0; [by intros [= _ <-]|].
  unfold bind at 1. unfold or_fail, queryM.
  destruct (FindCommentByPrefix _ (store env)) as [e0|comment]; [by intros [= _ <-]|].
  case_bool_decide; [by intros [= _ <-]|].
  case_bool_decide; [by intros [= _ <-]|].
  unfold bind, wrap, execM, emit.
  destruct (ResolveComment _ _ _ _); [by intros [= _ <-]|done].
Qed.

Lemma UnresolveCmd_Run_failure g id env e env' :
  UnresolveCmd_Run g id env = (inl e, env') -> env' = env.
Proof.
  unfold UnresolveCmd_Run. unfold bind at 1.
  destruct (requireActive env) as [[e0|[]] env0] eqn:Hreq;
    apply requireActive_store in Hreq as Heq; subst env0; [by intros [= _ <-]|].
  unfold bind at 1. unfold or_fail, queryM.
  destruct (FindCommentByPrefix _ (store env)) as [e0|comment]; [by intros [= _ <-]|].
  case_bool_decide; [by intros [= _ <-]|].
  destruct (negb _); [by intros [= _ <-]|].
  unfold bind, wrap, execM, emit.
  destruct (UnresolveComment _ _); [by intros [= _ <-]|done].
Qed.

End Shape.

(** X9. The comment commands keep the shape of the comments table:
    when the keys are unique and every comment is in the thread of a root
    before [add], [delete], [resolve] or [unresolve] runs, the same holds
    after it, whether the command succeeds or fails, whatever the storage
    and git do. In such a table every parent reference is the key of a
    row. *)
Theorem comment_commands_keep_forest
        (F : db.Faults) (g : git.Git) (env : Env) :
  well_formed (db.comments (store env)) ->
  (forall c now newID r env',
      commands.AddCmd_Run g c now newID env = (r, env') ->
      well_formed (db.comments (store env'))) /\
  (forall id r env',
      commands.DeleteCmd_Run g id env = (r, env') ->
      well_formed (db.comments (store env'))) /\
  (forall c now r env',
      commands.ResolveCmd_Run g c now env = (r, env') ->
      well_formed (db.comments (store env'))) /\
  (forall id r env',
      commands.UnresolveCmd_Run g id env = (r, env') ->
      well_formed (db.comments (store env'))) /\
  parents_exist (db.comments (store env)).
Proof.
  intros Hwf. split; [|split; [|split; [|split]]].
  - intros c now newID r env' Hrun.
    apply AddCmd_Run_cases in Hrun as [[_ ->]|(_ & _ & _ & params & Hins & Hkind)];
      [done|].
    apply InsertComment_success in Hins as (Hst & Hfresh & _ & _).
    rewrite Hst. simpl. destruct Hwf as [Hnd Hf]. split.
    + rewrite fmap_app. apply NoDup_app. split; [done|]. split.
      * intros x Hx Hnew. apply list_elem_of_singleton in Hnew. by subst x.
      * apply NoDup_singleton.
    + destruct Hkind as [(_ & parent & Hfind & ->)|(_ & rv & sha & st & en & _ & _ & _ & ->)].
      * apply (forest_app_reply _ _ parent); [done| |done].
        by eapply FindCommentByPrefix_elem.
      * by apply forest_app_root.
  - intros id r env' Hrun.
    apply DeleteCmd_Run_cases in Hrun as [[_ ->]|(_ & target & Hfind & ->)]; [done|].
    apply FindCommentByPrefix_elem in Hfind. simpl.
    destruct (db.ParentID target) as [p|] eqn:Hp.
    + by apply delete_reply_well_formed.
    + by apply delete_root_well_formed.
  - intros c now r env' Hrun. destruct r as [e|[]].
    + by apply ResolveCmd_Run_failure in Hrun as ->.
    + apply ResolveCmd_Run_success in Hrun as (comment & _ & _ & _ & _ & -> & _).
      simpl. apply well_formed_fmap; [| |done].
      * intros x. apply ID_resolved_as.
      * intros x. unfold resolved_as. by destruct (decide _).
  - intros id r env' Hrun. destruct r as [e|[]].
    + by apply UnresolveCmd_Run_failure in Hrun as ->.
    + apply UnresolveCmd_Run_success in Hrun as (comment & ->).
      simpl. apply well_formed_fmap; [| |done].
      * intros x. unfold reopened. by destruct (decide _).
      * intros x. unfold reopened. by destruct (decide _).
  - apply forest_parents_exist. by destruct Hwf.
Qed.

Lemma comment_commands_keep_forest_witness :
  well_formed (db.comments (store (commands.DeleteCmd_Run (F := sound_storage)
                                     main_worktree "02" sample_env).2)).
Proof.
  apply (proj1 (proj2 (comment_commands_keep_forest sound_storage main_worktree sample_env
                         (conj sample_rows_nodup sample_rows_forest)))
           "02" _ _ (surjective_pairing _)).
Defined.

Section AddDelete.
Import db commands.
Context {F : Faults} {E : git.Executor}.

Lemma like_prefix_self s : like_prefix s s = true.
Proof.
  assert (s = s +:+ "") as Heq.
  { induction s as [|c s IH]; [done|].
    change (String c s = String c (s +:+ "")). by rewrite <- IH. }
  rewrite Heq at 2. apply like_prefix_literal.
Qed.

Lemma reparent_none new key (rows : list Comment) :
  (forall x, x ∈ rows -> ParentID x ≠ Some key) ->
  reparent new (Some key) <$> rows = rows.
Proof.
  intros Hno. transitivity (id <$> rows); [|apply list_fmap_id].
  apply list_fmap_ext. intros i x Hx. apply list_elem_of_lookup_2 in Hx.
  unfold reparent. by rewrite (proj2 (parent_is_false _ x) (Hno x Hx)).
Qed.

Lemma unmatched_key_fresh (rows : list Comment) newID :
  (forall x, x ∈ rows -> like_prefix newID (ID x) = false) -> newID ∉ ID <$> rows.
Proof.
  intros Hno Hin. apply list_elem_of_fmap in Hin as (x & -> & Hx).
  specialize (Hno x Hx). by rewrite like_prefix_self in Hno.
Qed.

End AddDelete.

(** X10. Deleting a comment that was just added gives the store
    back. When the storage does not fail, every parent reference of the
    table is the key of a row and no key of the table matches the new key
    followed by anything, a successful [add] has put a row with the new
    key at the end of the table, and [delete] of the new key after it
    succeeds and leaves every table as it was before the [add]. *)
Theorem delete_undoes_add
        (F : db.Faults) (g : git.Git) (c : commands.AddCmd) (now newID : string)
        (env env1 : Env) :
  no_faults ->
  parents_exist (db.comments (store env)) ->
  (forall x, x ∈ db.comments (store env) -> db.like_prefix newID (db.ID x) = false) ->
  commands.AddCmd_Run g c now newID env = (inr tt, env1) ->
  (exists row, db.ID row = newID /\
               db.comments (store env1) = db.comments (store env) ++ [row]) /\
  exists env2,
    commands.DeleteCmd_Run g newID env1 = (inr tt, env2) /\
    store env2 = store env.
Proof.
  intros Hnf Hrefs Hnew Hrun.
  apply AddCmd_Run_cases in Hrun as [[? _]|(_ & Hreq & _ & params & Hins & Hkind)]; [done|].
  apply InsertComment_success in Hins as (Hst & _ & _ & Hparent).
  set (rows := db.comments (store env)) in *.
  assert (Hfresh : newID ∉ db.ID <$> rows) by (by apply unmatched_key_fresh).
  assert (Hid : db.ID params = newID).
  { by destruct Hkind as [(_ & ? & _ & ->)|(_ & ? & ? & ? & ? & _ & _ & _ & ->)]. }
  assert (Hpar : db.ParentID params ≠ Some newID).
  { destruct Hkind as [(_ & parent & Hfind & ->)|(_ & ? & ? & ? & ? & _ & _ & _ & ->)];
      [|done].
    simpl. intros [= Heq]. apply Hfresh. rewrite <- Heq.
    apply list_elem_of_fmap_2. by eapply FindCommentByPrefix_elem. }
  assert (Hchildless : forall x, x ∈ rows ++ [params] -> db.ParentID x ≠ Some newID).
  { intros x Hx Hp. apply elem_of_app in Hx as [Hx|Hx].
    - apply Hfresh. by apply (Hrefs x).
    - apply list_elem_of_singleton in Hx as ->. done. }
  assert (Hfind1 : db.FindCommentByPrefix (Some newID) (store env1) = inr params).
  { apply (FindCommentByPrefix_first newID (store env1) rows params []); try done.
    - by rewrite Hst.
    - rewrite Hid. apply like_prefix_self. }
  split; [exists params; by rewrite Hst|].
  destruct (DeleteCmd_Run_ok g newID env1 params Hnf) as [env2 Hdel]; try done.
  { rewrite Hst. simpl. by apply requireActive_session. }
  { rewrite Hst. simpl. exact Hparent. }
  exists env2. split; [done|].
  apply DeleteCmd_Run_cases in Hdel as [[? _]|(_ & target & Hfind2 & ->)]; [done|].
  assert (target = params) as -> by congruence.
  rewrite Hst, with_comments_twice, comments_with_comments, Hid.
  transitivity (db.with_comments rows (store env)); [|apply with_comments_same].
  f_equal.
  assert (Hdelete : db.delete_rows newID (rows ++ [params]) = rows).
  { rewrite delete_rows_childless by done.
    rewrite filter_app, filter_id_all by done.
    rewrite filter_cons_False by (intros Hne; by apply Hne).
    apply app_nil_r. }
  destruct (db.ParentID params); [|done].
  by rewrite reparent_none.
Qed.

Lemma delete_undoes_add_witness :
  (exists row,
     db.ID row = "06-new" /\
     db.comments (store (commands.AddCmd_Run (F := sound_storage) main_worktree
                           {| commands.AddFile := ""; commands.AddLine := "";
                              commands.AddReplyTo := "02"; commands.AddAuthor := "erin";
                              commands.AddMessage := "me too" |}
                           "2024-01-02T00:00:00Z" "06-new" sample_env).2)
     = db.comments sample_store ++ [row]) /\
  exists env2,
    commands.DeleteCmd_Run (F := sound_storage) main_worktree "06-new"
      (commands.AddCmd_Run (F := sound_storage) main_worktree
         {| commands.AddFile := ""; commands.AddLine := ""; commands.AddReplyTo := "02";
            commands.AddAuthor := "erin"; commands.AddMessage := "me too" |}
         "2024-01-02T00:00:00Z" "06-new" sample_env).2 = (inr tt, env2) /\
    store env2 = sample_store.
Proof.
  apply (delete_undoes_add sound_storage main_worktree
           {| commands.AddFile := ""; commands.AddLine := ""; commands.AddReplyTo := "02";
              commands.AddAuthor := "erin"; commands.AddMessage := "me too" |}
           "2024-01-02T00:00:00Z" "06-new" sample_env _ (fun _ _ => eq_refl)).
  - intros x p Hx Hp. simpl in Hx.
    repeat (apply elem_of_cons in Hx as [->|Hx]); simpl in Hp; try discriminate Hp;
      try (by apply elem_of_nil in Hx);
      injection Hp as <-; refine (bool_decide_unpack _ _); vm_compute; exact I.
  - intros x Hx. simpl in Hx.
    repeat (apply elem_of_cons in Hx as [->|Hx]); try reflexivity.
    by apply elem_of_nil in Hx.
  - reflexivity.
Defined.

(** ** Formatting and parsing line ranges *)

Section FormatParse.

Lemma digit_val_pretty d : (d < 10)%N -> digit_val (pretty_N_char d) = Some (Z.of_N d).
Proof.
  intros Hd.
  assert (d = 0 \/ d = 1 \/ d = 2 \/ d = 3 \/ d = 4 \/ d = 5 \/ d = 6 \/ d = 7
          \/ d = 8 \/ d = 9)%N as Hcases by lia.
  repeat (destruct Hcases as [->|Hcases]; [reflexivity|]). by subst.
Qed.

Lemma digits_value_pretty_go x : forall s,
  digits_value (pretty_N_go x s) 0 = digits_value s (Z.of_N x).
Proof.
  induction (N.lt_wf_0 x) as [x _ IH]. intros s.
  destruct (decide (x = 0%N)) as [->|Hx]; [by rewrite pretty_N_go_0|].
  rewrite pretty_N_go_step by lia.
  rewrite IH by (apply N.div_lt; lia).
  simpl. rewrite digit_val_pretty by (apply N.mod_lt; lia).
  f_equal. rewrite (N.div_mod x 10) at 3 by lia. lia.
Qed.

Lemma digits_first_not_sign c s acc v :
  digits_value (String c s) acc = Some v -> c ≠ "+"%char /\ c ≠ "-"%char.
Proof.
  simpl. destruct (digit_val c) eqn:Hd; [|done]. intros _.
  split; intros ->; discriminate Hd.
Qed.

Lemma numeral_value_digits s v :
  s ≠ "" -> digits_value s 0 = Some v -> numeral_value s = Some v.
Proof.
  intros Hs Hv. destruct s as [|c s]; [done|].
  destruct (digits_first_not_sign c s 0 v Hv) as [Hplus Hminus].
  unfold numeral_value.
  destruct (Ascii.eqb_spec c "+"); [done|].
  destruct (Ascii.eqb_spec c "-"); [done|]. done.
Qed.

Lemma unsigned_value_digits s v :
  s ≠ "" -> digits_value s 0 = Some v -> unsigned_value s = Some v.
Proof. by destruct s. Qed.

Lemma pretty_N_digits x :
  pretty x ≠ "" /\ digits_value (pretty x) 0 = Some (Z.of_N x).
Proof.
  unfold pretty, pretty_N. destruct (decide (x = 0%N)) as [->|Hx]; [done|].
  pose proof (digits_value_pretty_go x "") as Hd. simpl in Hd.
  split; [|done]. intros Hempty. rewrite Hempty in Hd. simpl in Hd.
  injection Hd. lia.
Qed.

(** Parsing what [strconv.FormatInt] prints gives the number back. *)
Lemma numeral_value_FormatInt z : numeral_value (strconv_FormatInt z) = Some z.
Proof.
  unfold strconv_FormatInt, pretty, pretty_Z. destruct z as [|p|p]; [done| |].
  - destruct (pretty_N_digits (N.pos p)) as [Hne Hd].
    by apply numeral_value_digits.
  - destruct (pretty_N_digits (N.pos p)) as [Hne Hd].
    change ("-" +:+ pretty (N.pos p)) with (String "-" (pretty (N.pos p))).
    change (Z.opp <$> unsigned_value (pretty (N.pos p)) = Some (Z.neg p)).
    by rewrite (unsigned_value_digits _ _ Hne Hd).
Qed.

Lemma digits_then_dash s : forall acc v rest,
  digits_value s acc = Some v -> digits_value (s +:+ String "-" rest) acc = None.
Proof.
  induction s as [|c s IH]; intros acc v rest Hv; [done|].
  change (digits_value (String c (s +:+ String "-" rest)) acc = None).
  simpl in *. destruct (digit_val c); [|done]. by eapply IH.
Qed.

Lemma unsigned_then_dash s v rest :
  unsigned_value s = Some v -> unsigned_value (s +:+ String "-" rest) = None.
Proof.
  destruct s as [|c s]; [done|]. intros Hv.
  change (unsigned_value (String c (s +:+ String "-" rest)) = None).
  unfold unsigned_value in *.
  change (digits_value (String c s +:+ String "-" rest) 0 = None).
  by eapply digits_then_dash.
Qed.

Lemma numeral_then_dash s v rest :
  numeral_value s = Some v -> numeral_value (s +:+ String "-" rest) = None.
Proof.
  destruct s as [|c s]; [done|]. intros Hv.
  change (numeral_value (String c (s +:+ String "-" rest)) = None).
  unfold numeral_value in *.
  destruct (Ascii.eqb c "+").
  - by eapply unsigned_then_dash.
  - destruct (Ascii.eqb c "-").
    + destruct (unsigned_value s) as [u|] eqn:Hu; [|done].
      by rewrite (unsigned_then_dash s u rest).
    + by apply (unsigned_then_dash (String c s) v rest).
Qed.

Lemma IndexByte_none_append a : forall b c,
  strings_IndexByte a c = -1 -> strings_IndexByte b c = -1 ->
  strings_IndexByte (a +:+ b) c = -1.
Proof.
  induction a as [|x a IH]; intros b c Ha Hb; [done|].
  change (strings_IndexByte (String x (a +:+ b)) c = -1).
  simpl in *. destruct (Ascii.eqb x c); [done|].
  destruct (strings_IndexByte a c <? 0) eqn:Hlt.
  - rewrite IH; [done| |done]. pose proof (IndexByte_lower a c). lia.
  - apply Z.ltb_ge in Hlt. lia.
Qed.

End FormatParse.

(** X11. Line ranges as shown and as read. A single line shown by
    [FormatLineRange] reads back as that line, for every line of the
    64-bit range, and so does a range written with a comma; but a range
    is shown with a dash, and no range shown that way is accepted by the
    parser. Without a start nothing is shown. *)
Theorem shown_line_range_and_parser :
  (forall n, in_int64 n ->
     parseLineRange (FormatLineRange (Some n) (Some n)) = inr (Some n, Some n) /\
     parseLineRange (FormatLineRange (Some n) None) = inr (Some n, Some n)) /\
  (forall s e, in_int64 s -> in_int64 e -> s <= e ->
     parseLineRange (strconv_FormatInt s +:+ "," +:+ strconv_FormatInt e)
     = inr (Some s, Some e)) /\
  (forall s e, s ≠ e ->
     FormatLineRange (Some s) (Some e)
     = strconv_FormatInt s +:+ "-" +:+ strconv_FormatInt e /\
     is_ok (parseLineRange (FormatLineRange (Some s) (Some e))) = false) /\
  (forall e, FormatLineRange None e = "").
Proof.
  split; [|split; [|split]].
  - intros n Hn. unfold FormatLineRange. rewrite Z.eqb_refl.
    assert (parseLineRange (strconv_FormatInt n) = inr (Some n, Some n)); [|done].
    apply parseLineRange_accepts. apply accepts_single; [|done].
    apply numeral_value_FormatInt.
  - intros s e Hs He Hle. apply parseLineRange_accepts. apply accepts_range; try done.
    exists (strconv_FormatInt s), (strconv_FormatInt e).
    split; [done|]. split; apply numeral_value_FormatInt.
  - intros s e Hne. unfold FormatLineRange.
    replace (e =? s) with false by (symmetry; apply Z.eqb_neq; congruence).
    split; [done|].
    set (raw := strconv_FormatInt s +:+ "-" +:+ strconv_FormatInt e).
    destruct (parseLineRange raw) as [err|[st en]] eqn:Hparse; [done|].
    exfalso. apply parseLineRange_accepts in Hparse.
    pose proof (numeral_value_FormatInt s) as Hs.
    pose proof (numeral_value_FormatInt e) as He.
    inversion Hparse as [Hraw| raw' n Hnum Hin Hraw | raw' a b Hrange Ha Hb Hle Hraw].
    + unfold raw in Hraw. destruct (strconv_FormatInt s); discriminate Hraw.
    + unfold raw in Hnum.
      change (strconv_FormatInt s +:+ "-" +:+ strconv_FormatInt e)
        with (strconv_FormatInt s +:+ String "-" (strconv_FormatInt e)) in Hnum.
      by rewrite (numeral_then_dash _ _ _ Hs) in Hnum.
    + revert Hrange. apply no_comma_no_range. unfold raw.
      apply IndexByte_none_append; [by eapply numeral_no_comma|].
      change ("-" +:+ strconv_FormatInt e) with (String "-" (strconv_FormatInt e)).
      simpl. by rewrite (numeral_no_comma _ _ He).
  - done.
Qed.

Lemma shown_line_range_and_parser_witness :
  parseLineRange (FormatLineRange (Some 42) (Some 42)) = inr (Some 42, Some 42) /\
  parseLineRange (strconv_FormatInt 10 +:+ "," +:+ strconv_FormatInt 35)
  = inr (Some 10, Some 35) /\
  is_ok (parseLineRange (FormatLineRange (Some 10) (Some 35))) = false.
Proof.
  split; [|split].
  - apply (proj1 shown_line_range_and_parser 42). by vm_compute.
  - apply (proj1 (proj2 shown_line_range_and_parser) 10 35); by vm_compute.
  - apply (proj1 (proj2 (proj2 shown_line_range_and_parser)) 10 35). discriminate.
Defined.

(** ** The lines of a git output *)

Section Lines.

Lemma string_app_assoc (a b c : string) : (a +:+ b) +:+ c = a +:+ (b +:+ c).
Proof.
  induction a as [|x a IH]; [done|].
  change (String x ((a +:+ b) +:+ c) = String x (a +:+ (b +:+ c))). by rewrite IH.
Qed.

Lemma string_app_nil_r (a : string) : a +:+ "" = a.
Proof.
  induction a as [|x a IH]; [done|].
  change (String x (a +:+ "") = String x a). by rewrite IH.
Qed.

Lemma strings_Join_cons e es sep :
  strings_Join (e :: es) sep = e +:+ foldr (fun x acc => sep +:+ x +:+ acc) "" es.
Proof.
  unfold strings_Join. revert e. induction es as [|x es IH]; intros e; simpl.
  - by rewrite string_app_nil_r.
  - rewrite IH. by rewrite !string_app_assoc.
Qed.

(** Joining the pieces of a split by newlines gives the text back. *)
Lemma Join_Split_nl s :
  strings_Join (strings_Split_nl s) (String "010"%char "") = s.
Proof.
  induction s as [|c s IH]; [done|]. simpl strings_Split_nl.
  destruct (Ascii.eqb_spec c "010") as [->|Hc].
  - rewrite strings_Join_cons. simpl.
    destruct (strings_Split_nl s) as [|piece rest] eqn:Hs;
      [by apply Split_nl_nonempty in Hs|].
    rewrite strings_Join_cons in IH. simpl. by rewrite IH.
  - destruct (strings_Split_nl s) as [|piece rest] eqn:Hs;
      [by apply Split_nl_nonempty in Hs|].
    rewrite strings_Join_cons in *.
    change (String c (piece +:+ foldr (fun x acc => String "010" "" +:+ x +:+ acc) "" rest)
            = String c s).
    by rewrite IH.
Qed.

Lemma Split_nl_no_newline s piece :
  piece ∈ strings_Split_nl s -> strings_IndexByte piece "010" = -1.
Proof.
  revert piece. induction s as [|c s IH]; intros piece Hin.
  - apply list_elem_of_singleton in Hin as ->. done.
  - simpl in Hin. destruct (Ascii.eqb c "010") eqn:Hc.
    + apply elem_of_cons in Hin as [->|Hin]; [done|]. by apply IH.
    + destruct (strings_Split_nl s) as [|first rest] eqn:Hs;
        [by apply Split_nl_nonempty in Hs|].
      apply elem_of_cons in Hin as [->|Hin].
      * simpl. rewrite Hc. rewrite (IH first) by left. done.
      * apply IH. by right.
Qed.

End Lines.

(** X12. [RevList] returns the lines of what git printed. When git
    succeeds, the result joined by newlines is git's output, no element
    contains a newline, and the result is empty exactly when the output is;
    nothing is written but the history of git invocations. When git fails,
    so does [RevList]. *)
Theorem revlist_returns_the_lines
        (E : git.Executor) (g : git.Git) (rangeSpec : string) (env : Env) :
  let inv := (git.WorkDir g, ["rev-list"; "--reverse"; rangeSpec]) in
  (forall out, git.git_exec (trace env) inv = Some out ->
     exists shas,
       git.RevList g rangeSpec env = (inr shas, with_trace (trace env ++ [inv]) env) /\
       strings_Join shas (String "010"%char "") = out /\
       (shas = [] <-> out = "") /\
       forall sha, sha ∈ shas -> strings_IndexByte sha "010" = -1) /\
  (git.git_exec (trace env) inv = None ->
   git.RevList g rangeSpec env
   = (inl (EWrap (EExec ["rev-list"; "--reverse"; rangeSpec]) "git command failed"),
      with_trace (trace env ++ [inv]) env)).
Proof.
  intros inv. split.
  - intros out Hout. unfold git.RevList, bind, git.Run. fold inv. rewrite Hout.
    destruct (String.eqb_spec out "") as [->|Hne].
    + exists []. repeat split; try done. intros sha Hsha. by apply elem_of_nil in Hsha.
    + exists (strings_Split_nl out). split; [done|]. split; [apply Join_Split_nl|].
      split.
      * split; [|done]. intros Hnil. by apply Split_nl_nonempty in Hnil.
      * intros sha. apply Split_nl_no_newline.
  - intros Hfail. unfold git.RevList, bind, git.Run. fold inv. by rewrite Hfail.
Qed.

Lemma revlist_returns_the_lines_witness :
  exists shas,
    git.RevList (E := git_feature) main_worktree "base0..HEAD" fresh_env
    = (inr shas,
       with_trace (trace fresh_env ++ [(".", ["rev-list"; "--reverse"; "base0..HEAD"])])
                  fresh_env) /\
    strings_Join shas (String "010"%char "") = "aaa111" +:+ String "010"%char "aab222".
Proof.
  destruct (proj1 (revlist_returns_the_lines git_feature main_worktree "base0..HEAD"
                     fresh_env)
              ("aaa111" +:+ String "010"%char "aab222") eq_refl)
    as (shas & Hrun & Hjoin & _).
  by exists shas.
Defined.

(** ** Writing notes *)

(** X13. [NotesAppend] adds the note when it cannot append it:
    when [notes append] succeeds nothing else is run; when it fails,
    [notes add] is run with the same message, and its outcome is the
    outcome; the error of the failed append is dropped. *)
Theorem notes_append_falls_back_to_add
        (E : git.Executor) (g : git.Git) (sha message : string) (env : Env) :
  let append := (git.WorkDir g, ["notes"; "append"; "-m"; message; sha]) in
  let add := (git.WorkDir g, ["notes"; "add"; "-m"; message; sha]) in
  (is_Some (git.git_exec (trace env) append) ->
   git.NotesAppend g sha message env
   = (inr tt, with_trace (trace env ++ [append]) env)) /\
  (git.git_exec (trace env) append = None ->
   is_Some (git.git_exec (trace env ++ [append]) add) ->
   git.NotesAppend g sha message env
   = (inr tt, with_trace (trace env ++ [append; add]) env)) /\
  (git.git_exec (trace env) append = None ->
   git.git_exec (trace env ++ [append]) add = None ->
   git.NotesAppend g sha message env
   = (inl (EWrap (EExec ["notes"; "add"; "-m"; message; sha]) "git command failed"),
      with_trace (trace env ++ [append; add]) env)) /\
  (forall r env', git.NotesAppend g sha message env = (r, env') ->
     store env' = store env /\ output env' = output env /\
     (trace env' = trace env ++ [append] \/ trace env' = trace env ++ [append; add])).
Proof.
  intros append add.
  unfold git.NotesAppend, bind, attempt, git.RunSilent. fold append. fold add.
  split; [|split; [|split]].
  - intros [out Hout]. by rewrite Hout.
  - intros Hfail [out Hout]. rewrite Hfail. simpl. rewrite Hout.
    unfold with_trace. simpl. by rewrite <- app_assoc.
  - intros Hfail Hfail2. rewrite Hfail. simpl. rewrite Hfail2.
    unfold with_trace. simpl. by rewrite <- app_assoc.
  - intros r env'. destruct (git.git_exec (trace env) append).
    + intros [= <- <-]. simpl. auto.
    + simpl. destruct (git.git_exec _ add); intros [= <- <-]; simpl;
        rewrite <- app_assoc; auto.
Qed.

Lemma notes_append_falls_back_to_add_witness :
  git.NotesAppend (E := git_quiet) main_worktree "aaa111" "root @alice" sample_env
  = (inr tt,
     with_trace [(".", ["notes"; "append"; "-m"; "root @alice"; "aaa111"])] sample_env).
Proof.
  apply (proj1 (notes_append_falls_back_to_add git_quiet main_worktree "aaa111"
                  "root @alice" sample_env)).
  by eexists.
Defined.

(** ** Joining a session *)

Section Join.
Import db commands.
Context {F : Faults} {E : git.Executor}.




End Join.



(** ** Starting: what is refused *)

Section StartRefusals.
Import db commands.
Context {F : Faults} {E : git.Executor}.

Lemma SessionExists_count st :
  io_fault SSessionExists st = false ->
  SessionExists st = inr (Z.of_nat (length (session st))).
Proof. intros Hio. unfold SessionExists. by rewrite query_no_fault. Qed.

Lemma StartCmd_Run_active g c now env :
  io_fault SSessionExists (store env) = false -> session (store env) ≠ [] ->
  StartCmd_Run g c now env
  = (if negb (String.eqb (StartName c) "") then joinExistingSession g c
     else if negb (String.eqb (StartBase c) "") then
       fail (EWithCode (ENew "Review already in progress. Finish or abort first.")
                       ErrCodeReviewActive)
     else showStatus g) env.
Proof.
  intros Hio Hs. unfold StartCmd_Run. unfold bind at 1. unfold wrap at 1, queryM at 1.
  rewrite SessionExists_count by done.
  destruct (session (store env)) as [|s l]; [done|].
  replace (0 <? Z.of_nat (length (s :: l))) with true; [done|].
  symmetry. apply Z.ltb_lt. simpl length. lia.
Qed.

End StartRefusals.

(** X15. What [start] refuses, and when. With a session in the store:
    a name makes it a join, a base without name is refused as a review that
    is active already, and with neither it only shows the status. Without
    a session: a HEAD that is on no branch is refused before anything else
    is run, then a base that git cannot resolve, then a base with no commit
    up to HEAD; each time with the code that names the reason, after exactly
    the git commands listed, and with the store untouched. *)
Theorem start_refuses_before_writing
        (F : db.Faults) (E : git.Executor) (g : git.Git) (c : commands.StartCmd)
        (now : string) (env : Env) :
  db.io_fault db.SSessionExists (store env) = false ->
  let branch := (git.WorkDir g, ["branch"; "--show-current"]) in
  let revparse := (git.WorkDir g, ["rev-parse"; commands.StartBase c]) in
  (db.session (store env) ≠ [] ->
   (commands.StartName c ≠ "" ->
    commands.StartCmd_Run g c now env = commands.joinExistingSession g c env) /\
   (commands.StartName c = "" -> commands.StartBase c ≠ "" ->
    commands.StartCmd_Run g c now env
    = (inl (EWithCode (ENew "Review already in progress. Finish or abort first.")
                      ErrCodeReviewActive), env)) /\
   (commands.StartName c = "" -> commands.StartBase c = "" ->
    commands.StartCmd_Run g c now env = commands.showStatus g env)) /\
  (db.session (store env) = [] ->
   (git.git_exec (trace env) branch = None \/ git.git_exec (trace env) branch = Some "" ->
    commands.StartCmd_Run g c now env
    = (inl (EWithCode (ENew "Detached HEAD. Checkout a branch first.")
                      ErrCodeDetachedHead),
       with_trace (trace env ++ [branch]) env)) /\
   (forall b, git.git_exec (trace env) branch = Some b -> b ≠ "" ->
      commands.StartBase c ≠ "" ->
      (git.git_exec (trace env ++ [branch]) revparse = None ->
       commands.StartCmd_Run g c now env
       = (inl (EWithCode (ENew "invalid ref") ErrCodeInvalidRef),
          with_trace (trace env ++ [branch; revparse]) env)) /\
      (forall base,
         git.git_exec (trace env ++ [branch]) revparse = Some base ->
         git.git_exec (trace env ++ [branch; revparse]) (revlist_step g base) = None \/
         git.git_exec (trace env ++ [branch; revparse]) (revlist_step g base) = Some "" ->
         commands.StartCmd_Run g c now env
         = (inl (EWithCode (ENew "No commits to review between base and HEAD.")
                           ErrCodeNoCommits),
            with_trace (trace env ++ [branch; revparse; revlist_step g base]) env)))).
Proof.
  intros Hio branch revparse. split.
  - intros Hs. rewrite StartCmd_Run_active by done. split; [|split].
    + intros Hname. by destruct (String.eqb_spec (commands.StartName c) "").
    + intros -> Hbase. simpl. by destruct (String.eqb_spec (commands.StartBase c) "").
    + by intros -> ->.
  - intros Hs.
    assert (Hstart : forall k : Z -> M unit,
               (let* count := wrap "failed to check session" (queryM db.SessionExists) in
                k count) env = k 0 env).
    { intros k. unfold bind, wrap, queryM. rewrite SessionExists_count by done.
      by rewrite Hs. }
    unfold commands.StartCmd_Run. rewrite Hstart. change (0 <? 0) with false. cbv iota zeta.
    split.
    + intros Hbranch. unfold bind at 1. unfold attempt, git.CurrentBranch, git.Run.
      fold branch. destruct Hbranch as [-> | ->]; reflexivity.
    + intros b Hb Hne Hbase.
      assert (Hrest : forall k : string -> M unit,
                 (let* branch0 := attempt (git.CurrentBranch g) in
                  let* currentBranch :=
                    match branch0 with
                    | inl _ => fail (EWithCode (ENew "Detached HEAD. Checkout a branch first.")
                                               ErrCodeDetachedHead)
                    | inr b0 =>
                        if String.eqb b0 "" then
                          fail (EWithCode (ENew "Detached HEAD. Checkout a branch first.")
                                          ErrCodeDetachedHead)
                        else ret b0
                    end in
                  k currentBranch) env
                 = k b (with_trace (trace env ++ [branch]) env)).
      { intros k. unfold bind at 1. unfold attempt, git.CurrentBranch, git.Run.
        fold branch. rewrite Hb. unfold bind at 1.
        by destruct (String.eqb_spec b "") as [|_]. }
      rewrite Hrest. clear Hrest.
      destruct (String.eqb_spec (commands.StartBase c) "") as [|_]; [done|].
      simpl negb. cbv iota.
      split.
      * intros Hrev. unfold bind at 1. unfold or_fail, git.Run. simpl trace.
        fold revparse. rewrite Hrev. unfold with_trace. simpl.
        by rewrite <- app_assoc.
      * intros base Hrev Hlist. unfold bind at 1. unfold or_fail, git.Run. simpl trace.
        fold revparse. rewrite Hrev.
        unfold bind at 1. unfold attempt, git.RevList, git.Run, bind. simpl trace.
        fold (revlist_step g base).
        replace ((trace env ++ [branch]) ++ [revparse]) with (trace env ++ [branch; revparse])
          by (by rewrite <- app_assoc).
        destruct Hlist as [-> | ->]; simpl; unfold bind, fail, with_trace; simpl;
          by rewrite <- app_assoc.
Qed.

Lemma start_refuses_before_writing_witness :
  commands.StartCmd_Run (F := sound_storage) (E := git_broken) main_worktree
    {| commands.StartBase := "main"; commands.StartName := "" |}
    "2024-01-01T00:00:00Z" fresh_env
  = (inl (EWithCode (ENew "Detached HEAD. Checkout a branch first.") ErrCodeDetachedHead),
     with_trace [(".", ["branch"; "--show-current"])] fresh_env).
Proof.
  apply (proj1 (proj2 (start_refuses_before_writing sound_storage git_broken main_worktree
                         {| commands.StartBase := "main"; commands.StartName := "" |}
                         "2024-01-01T00:00:00Z" fresh_env eq_refl) eq_refl)).
  by left.
Defined.

(** ** Status *)

Section Status.
Import db commands.
Context {F : Faults} {E : git.Executor}.

Lemma keeps_showStatus g : keeps_store (showStatus g).
Proof. unfold showStatus. keeps. Qed.

Lemma keeps_StatusCmd_Run g : keeps_store (StatusCmd_Run g).
Proof.
  unfold StatusCmd_Run. apply keeps_bind; [apply _|apply keeps_requireActive|].
  intros _. apply keeps_showStatus.
Qed.

(** A loop that only prints. *)
Lemma forM_prints {A} (xs : list A) (line : A -> OutEvent) env :
  forM xs (fun x => emit (line x)) env
  = (inr tt, with_output (output env ++ (line <$> xs)) env).
Proof.
  revert env. induction xs as [|x xs IH]; intros env; simpl.
  - unfold ret. rewrite app_nil_r. by destruct env.
  - unfold bind, emit. rewrite IH. simpl. unfold with_output. simpl.
    by rewrite <- app_assoc.
Qed.

Lemma bind_ok {A B} (m : M A) (k : A -> M B) env a env1 :
  m env = (inr a, env1) -> bind m k env = k a env1.
Proof. intros Hm. unfold bind. by rewrite Hm. Qed.

(** A git output whose failure is ignored. *)
Lemma Run_or_default g args d env :
  exists v,
    or_default d (git.Run g args) env
    = (inr v, with_trace (trace env ++ [(git.WorkDir g, args)]) env).
Proof. unfold or_default, git.Run. destruct (git.git_exec _ _); by eexists. Qed.

Lemma reports_ret : reports_with [] (ret tt).
Proof. intros env. exists (output env). unfold ret. rewrite app_nil_r. by destruct env. Qed.

Lemma reports_emit ev : reports_with [] (emit ev).
Proof.
  intros env. exists (output env ++ [ev]). unfold emit. rewrite app_nil_r.
  by destruct env.
Qed.

Lemma reports_bind l1 l2 (m1 m2 : M unit) :
  reports_with l1 m1 -> reports_with l2 m2 -> reports_with (l1 ++ l2) (m1 ;; m2).
Proof.
  intros H1 H2 env. destruct (H1 env) as [out1 Hm1].
  rewrite (bind_ok _ _ _ _ _ Hm1).
  destruct (H2 (with_output out1 (with_trace (trace env ++ l1) env))) as [out2 ->].
  exists out2. f_equal. unfold with_output, with_trace. simpl. by rewrite app_assoc.
Qed.

Lemma reports_bind_nil l (m1 m2 : M unit) :
  reports_with [] m1 -> reports_with l m2 -> reports_with l (m1 ;; m2).
Proof. intros H1 H2. by apply (reports_bind [] l). Qed.

Lemma reports_forM {A} (xs : list A) (body : A -> M unit) :
  (forall x, reports_with [] (body x)) -> reports_with [] (forM xs body).
Proof.
  intros Hbody. induction xs as [|x xs IH]; simpl; [apply reports_ret|].
  by apply reports_bind_nil.
Qed.

Lemma reports_if l (b : bool) (m1 m2 : M unit) :
  reports_with l m1 -> reports_with l m2 -> reports_with l (if b then m1 else m2).
Proof. by destruct b. Qed.

(** The loop over the commits: one [git log] each, whose failure only
    blanks the line. *)
Lemma reports_status_lines g (k : Commit -> string -> M unit) (cms : list Commit) :
  (forall cm oneline, reports_with [] (k cm oneline)) ->
  reports_with (oneline_step g ∘ Sha <$> cms)
    (forM cms (fun cm =>
       let* oneline := or_default "" (git.Oneline g (Sha cm)) in
       k cm oneline)).
Proof.
  intros Hk. induction cms as [|cm cms IH]; simpl; [apply reports_ret|].
  apply (reports_bind [_] _); [|exact IH].
  intros env.
  destruct (Run_or_default g ["log"; "--oneline"; "-1"; Sha cm] "" env) as [oneline Hrun].
  unfold git.Oneline. rewrite (bind_ok _ _ _ _ _ Hrun).
  destruct (Hk cm oneline (with_trace (trace env ++ [(git.WorkDir g, ["log"; "--oneline"; "-1"; Sha cm])]) env))
    as [out ->].
  exists out. f_equal. unfold with_output, with_trace. simpl. by rewrite app_nil_r.
Qed.

Lemma showStatus_ok g env :
  no_faults -> session (store env) ≠ [] ->
  exists out,
    showStatus g env
    = (inr tt,
       with_output out
         (with_trace (trace env
                      ++ (oneline_step g ∘ Sha <$> order_by_position (commits (store env))))
                     env)).
Proof.
  intros Hnf Hs. unfold showStatus.
  unfold bind at 1. unfold wrap at 1, queryM at 1, GetSession.
  rewrite query_no_fault by apply Hnf.
  destruct (session (store env)) as [|s l] eqn:Hsession; [done|]. simpl first_row. cbv iota.
  unfold bind at 1. unfold wrap at 1, queryM at 1.
  rewrite ListCommits_ok by done.
  unfold bind at 1. unfold attempt at 1, queryM at 1, ListAllComments.
  rewrite query_no_fault by apply Hnf. cbv iota beta.
  unfold bind at 1. unfold ret at 1.
  unfold bind at 1. unfold wrap at 1, queryM at 1, ListReviewers.
  rewrite query_no_fault by apply Hnf.
  match goal with
  | |- exists out, ?m env = _ =>
      enough (reports_with
                (oneline_step g ∘ Sha <$> order_by_position (commits (store env))) m)
        as Hrep by apply Hrep
  end.
  repeat (apply reports_bind_nil; [apply reports_emit|]).
  apply reports_bind_nil.
  { apply reports_if; [|apply reports_ret].
    apply reports_bind_nil; [|apply reports_emit].
    apply reports_forM. intros r. apply reports_emit. }
  rewrite <- (app_nil_r (_ <$> _)).
  apply reports_bind; [|apply reports_emit].
  apply (reports_status_lines g
           (fun cm oneline =>
              let n := default 0
                         (foldl (fun m c => <[CommitSHA c := default 0 (m !! CommitSHA c) + 1]> m)
                                ∅ (comments (store env)) !! Sha cm) in
              let badge :=
                if 0 <? n
                then " (" +:+ strconv_FormatInt n +:+ " "
                     +:+ Pluralize n "comment" "comments" +:+ ")"
                else "" in
              let line := strconv_FormatInt (wrap64 (Position cm + 1)) +:+ ". "
                          +:+ oneline +:+ badge in
              if Position cm <? currentPosition (reviewers (store env)) (git.Reviewer g)
                                                (order_by_position (commits (store env)))
              then emit (Printf "  %s %s\n" [AGreen "✓"; AGreen line])
              else if Position cm =? currentPosition (reviewers (store env)) (git.Reviewer g)
                                                     (order_by_position (commits (store env)))
              then emit (Printf "  %s %s\n" [AYellow "→"; AYellow line])
              else emit (Printf "  ○ %s\n" [AStr line]))).
  intros cm oneline. cbv zeta.
  repeat (apply reports_if); apply reports_emit.
Qed.

End Status.

(** X16. [status] only reads. Whatever the storage and git do, it
    leaves the store as it was. In an active session whose storage does
    not fail it always succeeds, even when every git command fails, and
    what it runs is exactly one [git log --oneline -1] for each commit, in
    the order of the positions. *)
Theorem status_only_reads (F : db.Faults) (E : git.Executor) (g : git.Git) (env : Env) :
  (forall r env', commands.StatusCmd_Run g env = (r, env') -> store env' = store env) /\
  (no_faults -> db.session (store env) ≠ [] ->
   exists out,
     commands.StatusCmd_Run g env
     = (inr tt,
        with_output out
          (with_trace
             (trace env
              ++ (oneline_step g ∘ db.Sha
                    <$> db.order_by_position (db.commits (store env))))
             env))).
Proof.
  split.
  - intros r env' Hrun. by apply keeps_StatusCmd_Run in Hrun.
  - intros Hnf Hs. unfold commands.StatusCmd_Run.
    rewrite (bind_ok _ _ _ _ _ (requireActive_ok env Hnf Hs)).
    by apply showStatus_ok.
Qed.

Lemma status_only_reads_witness :
  exists out,
    commands.StatusCmd_Run (F := sound_storage) (E := git_broken) main_worktree sample_env
    = (inr tt,
       with_output out
         (with_trace [(".", ["log"; "--oneline"; "-1"; "aaa111"]);
                      (".", ["log"; "--oneline"; "-1"; "aab222"]);
                      (".", ["log"; "--oneline"; "-1"; "ccc333"])] sample_env)).
Proof.
  apply (proj2 (status_only_reads sound_storage git_broken main_worktree sample_env)).
  - intros stmt st. reflexivity.
  - discriminate.
Defined.

(** ** Commands outside a session *)

(** X17. Outside a session nothing runs. When the session table is
    empty and the storage answers the count, [next], [jump], [add],
    [delete], [resolve], [unresolve] and [status] all fail with the code
    that says no review is in progress, and the store, the git history and
    the output are as before. *)
Theorem commands_need_a_session
        (F : db.Faults) (E : git.Executor) (g : git.Git) (env : Env) :
  db.session (store env) = [] ->
  db.io_fault db.SSessionExists (store env) = false ->
  let refused : Result unit * Env :=
    (inl (EWithCode (ENew "No review in progress. Start with: git review")
                    ErrCodeNoReview), env) in
  commands.NextCmd_Run g env = refused /\
  (forall hash, commands.JumpCmd_Run g hash env = refused) /\
  (forall c now newID, commands.AddCmd_Run g c now newID env = refused) /\
  (forall id, commands.DeleteCmd_Run g id env = refused) /\
  (forall c now, commands.ResolveCmd_Run g c now env = refused) /\
  (forall id, commands.UnresolveCmd_Run g id env = refused) /\
  commands.StatusCmd_Run g env = refused.
Proof.
  intros Hs Hio refused.
  assert (Hreq : commands.requireActive env = refused).
  { unfold commands.requireActive, bind, wrap, queryM.
    rewrite SessionExists_count by done. by rewrite Hs. }
  assert (Hguard : forall k : M unit, (commands.requireActive ;; k) env = refused).
  { intros k. unfold bind. by rewrite Hreq. }
  repeat split; intros; apply Hguard.
Qed.

Lemma commands_need_a_session_witness :
  commands.NextCmd_Run (F := sound_storage) (E := git_quiet) main_worktree fresh_env
  = (inl (EWithCode (ENew "No review in progress. Start with: git review")
                    ErrCodeNoReview), fresh_env).
Proof.
  apply (proj1 (commands_need_a_session sound_storage git_quiet main_worktree fresh_env
                  eq_refl eq_refl)).
Defined.

(** ** Ids that match nothing *)

Section NotFound.
Import db commands.
Context {F : Faults} {E : git.Executor}.

Lemma FindCommentByPrefix_none p st :
  (forall x, x ∈ comments st -> like_prefix p (ID x) = false) ->
  exists e, FindCommentByPrefix (Some p) st = inl e.
Proof.
  intros Hnone. unfold FindCommentByPrefix, query.
  destruct (io_fault _ _); [by eexists|].
  rewrite first_row_filter_none; [by eexists|].
  intros x Hx. rewrite (Hnone x Hx). done.
Qed.

End NotFound.

(** X18. An id that matches no comment. In an active session, when
    no key of the table matches the id followed by anything, [delete],
    [resolve] and [unresolve] answer "comment not found" and nothing has
    happened: the store, the git history and the output are as before. For
    [resolve] and [unresolve] this holds even when the storage fails on the
    lookup; [delete] looks the comment up inside a transaction, which has to
    begin. *)
Theorem unknown_id_is_not_found
        (F : db.Faults) (g : git.Git) (id : string) (env : Env) :
  commands.requireActive env = (inr tt, env) ->
  (forall x, x ∈ db.comments (store env) -> db.like_prefix id (db.ID x) = false) ->
  (db.io_fault db.SBegin (store env) = false ->
   commands.DeleteCmd_Run g id env = (inl (ENew "comment not found"), env)) /\
  (forall name now,
      commands.ResolveCmd_Run g {| commands.ResolveID := id; commands.ResolveName := name |}
                              now env
      = (inl (ENew "comment not found"), env)) /\
  commands.UnresolveCmd_Run g id env = (inl (ENew "comment not found"), env).
Proof.
  intros Hreq Hnone.
  destruct (FindCommentByPrefix_none id (store env) Hnone) as [e He].
  split; [|split].
  - intros Hbegin. unfold commands.DeleteCmd_Run.
    rewrite (bind_ok _ _ _ _ _ Hreq).
    unfold bind at 1. unfold WithTx. rewrite Hbegin.
    unfold bind at 1. unfold or_fail, queryM. rewrite He.
    unfold with_store. by destruct env.
  - intros name now. unfold commands.ResolveCmd_Run.
    rewrite (bind_ok _ _ _ _ _ Hreq).
    unfold bind at 1. unfold or_fail, queryM. simpl. by rewrite He.
  - unfold commands.UnresolveCmd_Run.
    rewrite (bind_ok _ _ _ _ _ Hreq).
    unfold bind at 1. unfold or_fail, queryM. by rewrite He.
Qed.

Lemma unknown_id_is_not_found_witness :
  commands.DeleteCmd_Run (F := sound_storage) main_worktree "zzz" sample_env
  = (inl (ENew "comment not found"), sample_env).
Proof.
  apply (proj1 (unknown_id_is_not_found sound_storage main_worktree "zzz"
                  sample_env eq_refl
                  ltac:(intros x Hx; simpl in Hx;
                        repeat (apply elem_of_cons in Hx as [->|Hx]); try reflexivity;
                        by apply elem_of_nil in Hx))).
  reflexivity.
Defined.

(** ** Where a new reviewer starts *)

Section Joined.
Import db commands.
Context {F : Faults} {E : git.Executor}.

Lemma bind_success {A B} (m : M A) (k : A -> M B) env b env' :
  bind m k env = (inr b, env') ->
  exists a env1, m env = (inr a, env1) /\ k a env1 = (inr b, env').
Proof. intros Hrun. by apply bind_step in Hrun as [(e & _ & ?)|?]. Qed.

Lemma wrap_success {A} msg (m : M A) env a env' :
  wrap msg m env = (inr a, env') -> m env = (inr a, env').
Proof. unfold wrap. by destruct (m env) as [[e|a'] env1]. Qed.


Lemma queryM_success {A} (q : Store -> Result A) env a env' :
  queryM q env = (inr a, env') -> q (store env) = inr a /\ env' = env.
Proof. unfold queryM. by intros [= -> <-]. Qed.



Lemma GetCommitByPosition_success pos st cm :
  GetCommitByPosition pos st = inr cm -> cm ∈ commits st /\ Position cm = pos.
Proof.
  unfold GetCommitByPosition, query. destruct (io_fault _ _); [done|].
  intros Hrow. apply first_row_elem in Hrow.
  apply list_elem_of_filter in Hrow as [? ?]. done.
Qed.


End Joined.



Section Started.
Import db commands.
Context {F : Faults} {E : git.Executor}.

Lemma attempt_success {A} (m : M A) env r env' :
  attempt m env = (inr r, env') -> m env = (r, env').
Proof. unfold attempt. destruct (m env). by intros [= -> ->]. Qed.

Lemma keeps_store_success {A} (m : M A) env a env' :
  keeps_store m -> m env = (a, env') -> store env' = store env.
Proof. intros Hk Hm. by apply Hk in Hm. Qed.

Lemma store_RevList g r : keeps_store (git.RevList g r).
Proof. unfold git.RevList. keeps. Qed.

End Started.

(** X20. After [start] the reviewer is on the first commit, so that
    a comment can be added at once. After a successful [start] from a
    store without session, the reviewer it has registered (the name given,
    else the worktree's) has its cursor on the commit at position 0, and
    looking that reviewer up gives a row with that cursor. *)
Theorem start_puts_cursor_on_first_commit
        (F : db.Faults) (E : git.Executor) (g : git.Git) (c : commands.StartCmd)
        (now : string) (env env' : Env) :
  db.session (store env) = [] ->
  commands.StartCmd_Run g c now env = (inr tt, env') ->
  let name := if String.eqb (commands.StartName c) "" then git.Reviewer g
              else commands.StartName c in
  exists first,
    first ∈ db.commits (store env') /\ db.Position first = 0 /\
    cursor_at (store env') name (db.Sha first) /\
    {| db.Name := name; db.CurrentSha := Some (db.Sha first) |}
      ∈ db.reviewers (store env') /\
    (db.io_fault db.SGetReviewer (store env') = false ->
     db.GetReviewer name (store env')
     = inr {| db.Name := name; db.CurrentSha := Some (db.Sha first) |}).
Proof.
  intros Hs Hrun name. unfold commands.StartCmd_Run in Hrun. fold name in Hrun.
  apply bind_success in Hrun as (count & env0 & Hcount & Hrun).
  apply wrap_success, queryM_success in Hcount as [Hcount ->].
  assert (count = 0) as ->.
  { unfold db.SessionExists, db.query in Hcount. destruct (db.io_fault _ _); [done|].
    rewrite Hs in Hcount. by injection Hcount. }
  change (0 <? 0) with false in Hrun. cbv iota zeta in Hrun.
  apply bind_success in Hrun as (branch & env1 & Hbranch & Hrun).
  apply (keeps_store_success _ _ _ _ (keeps_attempt same_store _ (store_Run _ _)))
    in Hbranch as Hst1.
  apply bind_success in Hrun as (currentBranch & env2 & Hcur & Hrun).
  assert (env2 = env1) as ->.
  { destruct branch as [e|b]; [done|]. destruct (String.eqb b ""); [done|].
    by injection Hcur. }
  clear Hcur.
  apply bind_success in Hrun as (base & env2 & Hbase & Hrun).
  assert (Hst2 : store env2 = store env1).
  { destruct (negb (String.eqb (commands.StartBase c) "")).
    - by apply (keeps_store_success _ _ _ _ (keeps_or_fail same_store _ _ (store_Run _ _)))
        in Hbase.
    - apply bind_success in Hbase as (b & env2' & Hdet & Hb).
      apply (keeps_store_success _ _ _ _ (keeps_detectBase _ _)) in Hdet.
      destruct (String.eqb b ""); [done|]. injection Hb as _ <-. done. }
  apply bind_success in Hrun as (listed & env3 & Hlisted & Hrun).
  assert (Hst3 : store env3 = store env2).
  { by apply (keeps_store_success _ _ _ _
                (keeps_attempt same_store _ (store_RevList _ _))) in Hlisted. }
  apply bind_success in Hrun as (shas & env4 & Hshas & Hrun).
  assert (env4 = env3) as ->.
  { destruct listed as [e|[|sha l]]; try done. by injection Hshas. }
  clear Hshas.
  apply bind_success in Hrun as ([] & env4 & Htx & Hrun).
  apply wrap_success in Htx.
  apply start_transaction_cases in Htx
    as [[? _]|(_ & msgs & Hlen & Hsession & Hcommits & Hreviewers & Hcomments)]; [done|].
  apply bind_success in Hrun as (jumpGit & env5 & Hwt & Hrun).
  assert (Hst5 : store env5 = store env4).
  { destruct (negb (String.eqb (commands.StartName c) "")).
    - apply bind_success in Hwt as ([] & env5' & Hadd & Hret).
      apply (keeps_store_success _ _ _ _ (keeps_wrap same_store _ _ (store_RunSilent _ _)))
        in Hadd.
      injection Hret as _ <-. done.
    - by injection Hwt as _ <-. }
  apply bind_success in Hrun as (first & env6 & Hfirst & Hrun).
  apply wrap_success, queryM_success in Hfirst as [Hfirst ->].
  apply GetCommitByPosition_success in Hfirst as [Hin Hpos].
  apply bind_success in Hrun as ([] & env6 & Hjump & Hrun).
  apply wrap_success in Hjump.
  apply jumpTo_cases in Hjump as [[? _]|(_ & parentRef & _ & _ & Hup)]; [done|].
  assert (Hst' : store env' = store env6).
  { apply bind_success in Hrun as (first' & env7 & Hidx & Hrun).
    apply (keeps_store_success _ _ _ _ (keeps_index same_store _ _)) in Hidx.
    apply bind_success in Hrun as (oneline & env8 & Hone & Hrun).
    apply (keeps_store_success _ _ _ _
             (keeps_or_default same_store _ _ (store_Run _ _))) in Hone.
    unfold bind, emit in Hrun. injection Hrun as <-. simpl. congruence. }
  pose proof (UpdateReviewerCurrent_rows _ _ _ _ Hup) as (_ & Hc & _ & _).
  pose proof (UpdateReviewerCurrent_cursor _ _ _ _ Hup) as Hcursor.
  assert (Hrow : {| db.Name := name; db.CurrentSha := Some (db.Sha first) |}
                   ∈ db.reviewers (store env6)).
  { revert Hup. unfold db.UpdateReviewerCurrent, db.query.
    destruct (db.io_fault _ _); [done|]. destruct (_ && _); [done|]. intros [= <-].
    simpl. rewrite Hst5, Hreviewers, fmap_app. apply elem_of_app. right. simpl.
    unfold db.set_current. simpl. rewrite bool_decide_eq_true_2 by done. left. }
  exists first. rewrite Hst'.
  split; [by rewrite Hc|]. split; [done|]. split; [done|]. split; [done|].
  intros Hio. unfold db.GetReviewer. rewrite query_no_fault by done.
  destruct (first_row_filter_some (fun r => db.Name r = name) (db.reviewers (store env6))
              _ Hrow eq_refl) as (found & -> & Hfound & Hname).
  f_equal. specialize (Hcursor found Hfound Hname).
  destruct found as [n s]. simpl in *. by subst.
Qed.

Lemma start_puts_cursor_on_first_commit_witness :
  exists first,
    first ∈ db.commits
              (store (commands.StartCmd_Run (F := sound_storage) (E := git_feature)
                        main_worktree
                        {| commands.StartBase := "base0"; commands.StartName := "" |}
                        "2024-01-01T00:00:00Z" fresh_env).2) /\
    {| db.Name := ""; db.CurrentSha := Some (db.Sha first) |}
      ∈ db.reviewers
          (store (commands.StartCmd_Run (F := sound_storage) (E := git_feature)
                    main_worktree
                    {| commands.StartBase := "base0"; commands.StartName := "" |}
                    "2024-01-01T00:00:00Z" fresh_env).2) /\
    db.Position first = 0 /\
    cursor_at (store (commands.StartCmd_Run (F := sound_storage) (E := git_feature)
                        main_worktree
                        {| commands.StartBase := "base0"; commands.StartName := "" |}
                        "2024-01-01T00:00:00Z" fresh_env).2) "" (db.Sha first).
Proof.
  destruct (start_puts_cursor_on_first_commit sound_storage git_feature main_worktree
              {| commands.StartBase := "base0"; commands.StartName := "" |}
              "2024-01-01T00:00:00Z" fresh_env
              (commands.StartCmd_Run (F := sound_storage) (E := git_feature)
                 main_worktree
                 {| commands.StartBase := "base0"; commands.StartName := "" |}
                 "2024-01-01T00:00:00Z" fresh_env).2
              eq_refl ltac:(vm_compute; reflexivity))
    as (first & Hin & Hpos & Hcursor & Hrow & _).
  exists first. split; [exact Hin|]. split; [exact Hrow|].
  split; [exact Hpos | exact Hcursor].
Defined.
